(** * Zimtohrli: the resonator filterbank, the loudness/masking transform
      and the [compare] driver

    A shallow embedding of
    - [tabuli::SimpleDb], [tabuli::FinalizeDb], [Rotators::FilterAndDownsample],
      [Rotators::Rotators], [Rotators::OccasionallyRenormalize] and
      [Rotators::IncrementAll] (the C++ filterbank), and
    - [main] of the Go [compare] tool,
    with the properties of the specification that concern them; and, with
    further properties read off the code, of
    - [tabuli::CalculateBandwidth], and
    - [ScoreType.Better], [ScoreTypes.Len], [ScoreTypes.Less],
      [ScoreTypes.Swap], [abs], [ternarySearch] and the search for the best
      threshold in [Study.Accuracy] (the Go package [data]).

    Conventions of the embedding.
    - [float] and [double] values are real numbers: rounding, overflow and
      NaN are outside the model.  [log], [exp], [sqrt], [cos], [sin] and
      [pow] are the functions of the real-number library.
    - A C++ array is a list; an [hwy::AlignedNDArray<float, 2>] and the
      two-dimensional members [rot] and [accu] are lists of rows.  An access
      outside an array is undefined in the source; the embedding reads [0]
      and writes nothing there, and the theorems on the content of an array
      assume the shapes under which no such access happens.
    - [kNumRotators] is declared in [fourier_bank.h], which is not part of the
      sources: it is a parameter of every definition that uses it.
    - A [for] loop over [k] is a fold of its body over the list of the
      indices it visits.
    - A division by zero and the square root of a negative number have a
      value in the real-number library and none in the source, where they
      give NaN.  [OccasionallyRenormalize] divides by the magnitude of a
      rotator, and the constructor takes the square root of a product of
      two frequencies: the theorems on the rotators assume rotators and
      gains that are not zero, and the theorems on the bandwidth assume
      frequencies that are not negative and at least two rotators. *)

From Stdlib Require Import Reals Lra Lia ZArith String.
From Stdlib Require OrderedTypeEx.
From stdpp Require Import base option list strings.

Open Scope R_scope.

#[global] Instance R_inhabited : Inhabited R := populate 0.
#[global] Instance R_eq_dec : EqDecision R := Req_dec_T.

(** ** Arrays *)

Abbreviation array2 := (list (list R)).

Definition get2 (a : array2) (r i : nat) : R := (a !!! r) !!! i.

Definition set2 (a : array2) (r i : nat) (v : R) : array2 :=
  <[r := <[i := v]> (a !!! r)]> a.

(** [shape2 rows cols a]: [a] has [rows] rows of [cols] entries each. *)
Definition shape2 (rows cols : nat) (a : array2) : Prop :=
  length a = rows ∧ ∀ r row, a !! r = Some row → length row = cols.

(** A loop whose body may have no defined result. *)
Fixpoint for_each {S : Type} (body : S → nat → option S) (ks : list nat)
    (s : S) : option S :=
  match ks with
  | [] => Some s
  | k :: ks' => s' ← body s k; for_each body ks' s'
  end.

(** ** [SimpleDb] *)

Definition full_scale_sine_db : R := 75.27901963526045.
Definition exp_full_scale_sine_db : R := exp full_scale_sine_db.
Definition epsilon : R := 1.0033294789821357e-09 * exp_full_scale_sine_db.
Definition kMul : R := 10.0 / ln 10.

Definition SimpleDb (energy : R) : R := kMul * ln (energy + epsilon).

(** ** [FinalizeDb] *)

Definition masker_step_per_octave_up_0 : R := 15.892019717473835.
Definition masker_step_per_octave_up_1 : R := 21.852019717473834.
Definition masker_step_per_octave_up_2 : R := 20.79201971747383.
Definition masker_gap_up : R := 19.140338374861235.
Definition maskingStrengthUp : R := 0.1252262923615547.
Definition up_blur : R := 0.8738593591692092.
Definition fraction_up : R := 1.02.

Definition masker_step_per_octave_down : R := 42.33972783112732.
Definition masker_gap_down : R := 19.66099875393617.
Definition maskingStrengthDown : R := 0.19329999999999992.
Definition down_blur : R := 0.714425315233319.

Definition min_limit : R := -11.397341001787765.
Definition fraction_down : R := 1.02.

Definition octaves_in_20_to_20000 : R := ln (20000 / 20) / ln 2.

(** The two sweeps of [FinalizeDb]. *)
Inductive pass : Type := Up | Down.

Section FinalizeDb.
Variable kNumRotators : nat.

Definition octaves_per_rot : R :=
  octaves_in_20_to_20000 / IZR (Z.of_nat kNumRotators - 1).
Definition masker_step_per_rot_up_0 : R :=
  octaves_per_rot * masker_step_per_octave_up_0.
Definition masker_step_per_rot_up_1 : R :=
  octaves_per_rot * masker_step_per_octave_up_1.
Definition masker_step_per_rot_up_2 : R :=
  octaves_per_rot * masker_step_per_octave_up_2.
Definition masker_step_per_rot_down : R :=
  octaves_per_rot * masker_step_per_octave_down.

(** [float v2 = (1 - up_blur) * v2 + up_blur * v; if (k == 0) v2 = v;]

    The declaration is inside the loop body, so its initializer reads
    the new, uninitialized [v2].  [fresh] is what that read finds:
    [Some u] when the storage of [v2] happens to hold [u], [None] when the
    value is indeterminate, as the language has it.  An indeterminate
    value stays indeterminate through arithmetic, and an assignment
    replaces it. *)
Definition up_v2 (fresh : option R) (k : nat) (v : R) : option R :=
  let v2 := (λ v2, (1 - up_blur) * v2 + up_blur * v) <$> fresh in
  if (k =? 0)%nat then Some v else v2.

(** [float v2 = (1 - down_blur) * v2 + down_blur * v;
     if (k == kNumRotators - 1) v2 = v;] *)
Definition down_v2 (fresh : option R) (k : nat) (v : R) : option R :=
  let v2 := (λ v2, (1 - down_blur) * v2 + down_blur * v) <$> fresh in
  if (Z.of_nat k =? Z.of_nat kNumRotators - 1)%Z then Some v else v2.

(** The body of the first loop, on the loop state [(channels, masker)].
    The test [masker < v2] needs the value of [v2]: on an indeterminate
    [v2] the body has no defined result. *)
Definition up_body (fresh : pass → nat → option R) (mul : R) (out_ix : nat)
    (s : array2 * R) (k : nat) : option (array2 * R) :=
  let '(channels, masker) := s in
  let v := SimpleDb (mul * get2 channels out_ix k) in
  let v := if Rlt_dec v min_limit then min_limit else v in
  v2 ← up_v2 (fresh Up k) k v;
  let masker := if Rlt_dec masker v2 then v2 else masker in
  let mask := fraction_up * masker - masker_gap_up in
  let v :=
    if Rlt_dec v mask
    then maskingStrengthUp * mask + (1.0 - maskingStrengthUp) * v
    else v in
  let channels := set2 channels out_ix k v in
  let masker :=
    if (3 * k <? kNumRotators)%nat then masker - masker_step_per_rot_up_0
    else if (3 * k <? 2 * kNumRotators)%nat
         then masker - masker_step_per_rot_up_1
         else masker - masker_step_per_rot_up_2 in
  Some (channels, masker).

(** The body of the second loop.  [v2] is computed and never used. *)
Definition down_body (fresh : pass → nat → option R) (out_ix : nat)
    (s : array2 * R) (k : nat) : option (array2 * R) :=
  let '(channels, masker) := s in
  let v := get2 channels out_ix k in
  let _v2 := down_v2 (fresh Down k) k v in
  let masker := if Rlt_dec masker v then v else masker in
  let mask := fraction_down * masker - masker_gap_down in
  let v :=
    if Rlt_dec v mask
    then maskingStrengthDown * mask + (1.0 - maskingStrengthDown) * v
    else v in
  let channels := set2 channels out_ix k v in
  let masker := masker - masker_step_per_rot_down in
  Some (channels, masker).

(** [None]: the execution branches on an indeterminate value. *)
Definition FinalizeDb (fresh : pass → nat → option R) (channels : array2)
    (mul : R) (out_ix : nat) : option array2 :=
  let masker := 0.0 in
  '(channels, _) ← for_each (up_body fresh mul out_ix)
                            (seq 0 kNumRotators) (channels, masker);
  let masker := 0.0 in
  '(channels, _) ← for_each (down_body fresh out_ix)
                            (reverse (seq 0 kNumRotators)) (channels, masker);
  Some channels.

End FinalizeDb.

(** ** [Rotators] *)

(** The members of [class Rotators] that the code below uses.  [channel]
    holds, for every audio channel, its [accu[6][kNumRotators]]. *)
Record Rotators : Type := mkRotators {
  rot : array2;                  (* rot[4][kNumRotators] *)
  window : list R;               (* window[kNumRotators] *)
  gain : list R;                 (* gain[kNumRotators] *)
  channel : list array2;         (* channel[c].accu *)
  rotator_frequency : list R
}.

Definition set_rot (st : Rotators) (r i : nat) (v : R) : Rotators :=
  mkRotators (set2 (rot st) r i v) (window st) (gain st) (channel st)
             (rotator_frequency st).

Definition set_window (st : Rotators) (i : nat) (v : R) : Rotators :=
  mkRotators (rot st) (<[i := v]> (window st)) (gain st) (channel st)
             (rotator_frequency st).

Definition set_gain (st : Rotators) (i : nat) (v : R) : Rotators :=
  mkRotators (rot st) (window st) (<[i := v]> (gain st)) (channel st)
             (rotator_frequency st).

(** [channel[c].accu[r][i]] *)
Definition accu (st : Rotators) (c r i : nat) : R :=
  get2 (channel st !!! c) r i.

Definition set_accu (st : Rotators) (c r i : nat) (v : R) : Rotators :=
  mkRotators (rot st) (window st) (gain st)
             (<[c := set2 (channel st !!! c) r i v]> (channel st))
             (rotator_frequency st).

Definition CalculateBandwidth (low mid high : R) : R :=
  let geo_mean_low := sqrt (low * mid) in
  let geo_mean_high := sqrt (mid * high) in
  Rabs (geo_mean_high - mid) + Rabs (mid - geo_mean_low).

Definition kWindow : R := 0.9996028710680265.
Definition kBandwidthMagic : R := 0.7328516996032982.

Section Rotators.
Variable kNumRotators : nat.

(** The body of the constructor's loop.  With a single rotator the source
    reads [frequency[i - 1]] at [i = 0], outside the vector, where the
    embedding reads [frequency[0]]; and the bandwidth is a number only for
    frequencies that are not negative. *)
Definition Rotators_body (frequency filter_gains : list R) (sample_rate : R)
    (st : Rotators) (i : nat) : Rotators :=
  let bw :=
    CalculateBandwidth
      (if (i =? 0)%nat then frequency !!! 1%nat
       else frequency !!! (i - 1)%nat)
      (frequency !!! i)
      (if (i + 1 =? kNumRotators)%nat then frequency !!! (i - 1)%nat
       else frequency !!! (i + 1)%nat) in
  let st := set_window st i (Rpower kWindow (bw * kBandwidthMagic)) in
  let windowM1 := 1.0 - window st !!! i in
  let f := frequency !!! i * 2.0 * PI / sample_rate in
  let full_scale_sine_db := exp 75.27901963526045 in
  let gainer := 2.0 * sqrt full_scale_sine_db in
  let st := set_gain st i (gainer * filter_gains !!! i * windowM1 ^ 3) in
  let st := set_rot st 0 i (cos f) in
  let st := set_rot st 1 i (- sin f) in
  let st := set_rot st 2 i (gain st !!! i) in
  let st := set_rot st 3 i 0.0 in
  st.

(** [Rotators::Rotators].  [channel.resize(num_channels)] value-initializes
    the accumulators, that is, to zero; the array members are taken as
    zero before the loop assigns every entry of index below
    [kNumRotators]. *)
Definition Rotators_new (num_channels : nat) (frequency filter_gains : list R)
    (sample_rate : R) : Rotators :=
  let zeros := replicate kNumRotators 0 in
  let st :=
    mkRotators (replicate 4 zeros) zeros zeros
               (replicate num_channels (replicate 6 zeros)) [] in
  let st :=
    fold_left (Rotators_body frequency filter_gains sample_rate)
              (seq 0 kNumRotators) st in
  mkRotators (rot st) (window st) (gain st) (channel st) frequency.

(** The body of the loop of [OccasionallyRenormalize].  On a rotator
    [(0, 0)] the source divides by zero. *)
Definition OccasionallyRenormalize_body (st : Rotators) (i : nat)
    : Rotators :=
  let norm :=
    gain st !!! i
    / sqrt (get2 (rot st) 2 i * get2 (rot st) 2 i
            + get2 (rot st) 3 i * get2 (rot st) 3 i) in
  let st := set_rot st 2 i (get2 (rot st) 2 i * norm) in
  let st := set_rot st 3 i (get2 (rot st) 3 i * norm) in
  st.

Definition OccasionallyRenormalize (st : Rotators) : Rotators :=
  fold_left OccasionallyRenormalize_body (seq 0 kNumRotators) st.

(** The body of the loop [for (int c = 0; c < 1; ++c)]. *)
Definition IncrementAll_channel (signal : R) (i : nat) (w : R)
    (st : Rotators) (c : nat) : Rotators :=
  let st := set_accu st c 0 i (accu st c 0 i * w) in
  let st := set_accu st c 1 i (accu st c 1 i * w) in
  let st := set_accu st c 2 i (accu st c 2 i * w) in
  let st := set_accu st c 3 i (accu st c 3 i * w) in
  let st := set_accu st c 4 i (accu st c 4 i * w) in
  let st := set_accu st c 5 i (accu st c 5 i * w) in
  let st := set_accu st c 2 i (accu st c 2 i + accu st c 0 i) in
  let st := set_accu st c 3 i (accu st c 3 i + accu st c 1 i) in
  let st := set_accu st c 4 i (accu st c 4 i + accu st c 2 i) in
  let st := set_accu st c 5 i (accu st c 5 i + accu st c 3 i) in
  let st := set_accu st c 0 i (accu st c 0 i + get2 (rot st) 2 i * signal) in
  let st := set_accu st c 1 i (accu st c 1 i + get2 (rot st) 3 i * signal) in
  st.

Definition IncrementAll_body (signal : R) (st : Rotators) (i : nat)
    : Rotators :=
  let tr := get2 (rot st) 0 i * get2 (rot st) 2 i
            - get2 (rot st) 1 i * get2 (rot st) 3 i in
  let tc := get2 (rot st) 0 i * get2 (rot st) 3 i
            + get2 (rot st) 1 i * get2 (rot st) 2 i in
  let st := set_rot st 2 i tr in
  let st := set_rot st 3 i tc in
  let w := window st !!! i in
  fold_left (IncrementAll_channel signal i w) (seq 0 1) st.

Definition IncrementAll (st : Rotators) (signal : R) : Rotators :=
  fold_left (IncrementAll_body signal) (seq 0 kNumRotators) st.

(** ** [FilterAndDownsample] *)

(** [channel[0].accu[4][k] * channel[0].accu[4][k] +
     channel[0].accu[5][k] * channel[0].accu[5][k]] *)
Definition energy (st : Rotators) (k : nat) : R :=
  accu st 0 4 k * accu st 0 4 k + accu st 0 5 k * accu st 0 5 k.

(** The loop of the branch [zz == 0]: [channels[{out_ix}][k] = energy]. *)
Definition store_energy (st : Rotators) (out_ix : nat) (channels : array2)
    : array2 :=
  fold_left (λ channels k, set2 channels out_ix k (energy st k))
            (seq 0 kNumRotators) channels.

(** The loop of the other branch: [channels[{out_ix}][k] += energy]. *)
Definition add_energy (st : Rotators) (out_ix : nat) (channels : array2)
    : array2 :=
  fold_left (λ channels k,
               set2 channels out_ix k (get2 channels out_ix k + energy st k))
            (seq 0 kNumRotators) channels.

(** How a call ends.  [Aborted] is [abort()] after the message on
    [stderr]; [Undefined] is a [FinalizeDb] that branched on an
    indeterminate value; [OutOfFuel] is the embedding's own, and
    [FilterAndDownsample] never yields it. *)
Inductive outcome : Type :=
| Returned (st : Rotators) (channels : array2)
| Aborted (st : Rotators) (channels : array2)
| Undefined
| OutOfFuel.

(** Conversion to [size_t], where the source compares an [int64_t] with
    [signal.size()] or subtracts from [channels.shape()[0]]. *)
Definition to_size_t (z : Z) : Z := (z mod 2 ^ 64)%Z.

(** How the inner loop ends: it runs to [zz == downsampling], or the
    function returns or aborts inside it. *)
Inductive inner_result : Type :=
| Next (st : Rotators) (channels : array2)
| Exit (o : outcome).

Section Loops.
(** [fresh out_ix]: what the two loops of the call
    [FinalizeDb(channels, _, out_ix)] find in the storage of [v2]. *)
Variable fresh : nat → pass → nat → option R.
Variable signal : list R.
Variable downsampling : Z.

Definition scaling_for_downsampling : R := 1.0 / IZR downsampling.

(** The loop over [zz], with [n] iterations left. *)
Fixpoint inner_loop (ii : Z) (out_ix : nat) (n : nat) (zz : Z)
    (st : Rotators) (channels : array2) : inner_result :=
  match n with
  | O => Next st channels
  | S n' =>
      let input_ix := (ii + zz)%Z in
      if (Z.of_nat (length signal) <=? to_size_t input_ix)%Z then
        let finalized :=
          if (out_ix <? length channels)%nat
          then FinalizeDb kNumRotators (fresh out_ix) channels
                          scaling_for_downsampling out_ix
          else Some channels in
        match finalized with
        | None => Exit Undefined
        | Some channels =>
            if (Z.of_nat out_ix
                =? to_size_t (Z.of_nat (length channels) - 1))%Z
            then Exit (Returned st channels)
            else Exit (Aborted st channels)
        end
      else
        let st := IncrementAll st (signal !!! Z.to_nat input_ix) in
        let channels :=
          if (zz =? 0)%Z then store_energy st out_ix channels
          else add_energy st out_ix channels in
        inner_loop ii out_ix n' (zz + 1)%Z st channels
  end.

(** The loop over [ii]. *)
Fixpoint outer_loop (fuel : nat) (ii : Z) (out_ix : nat)
    (st : Rotators) (channels : array2) : outcome :=
  match fuel with
  | O => OutOfFuel
  | S fuel' =>
      if (to_size_t ii <? Z.of_nat (length signal))%Z then
        let st := OccasionallyRenormalize st in
        match inner_loop ii out_ix (Z.to_nat downsampling) 0%Z
                         st channels with
        | Exit o => o
        | Next st channels =>
            match FinalizeDb kNumRotators (fresh out_ix) channels
                             scaling_for_downsampling out_ix with
            | None => Undefined
            | Some channels =>
                let out_ix := S out_ix in
                if (length channels <=? out_ix)%nat
                then Returned st channels
                else outer_loop fuel' (ii + downsampling)%Z out_ix
                                st channels
            end
        end
      else Returned st channels
  end.

(** Every turn of the outer loop that does not leave the function
    completes one more of the [channels.shape()[0]] frames, hence the
    fuel. *)
Definition FilterAndDownsample (st : Rotators) (channels : array2)
    : outcome :=
  outer_loop (S (length channels)) 0%Z 0%nat st channels.
End Loops.

End Rotators.

(** ** The [compare] tool *)

(** [audio.Audio], by the two fields [main] uses. *)
Record Audio : Type := mkAudio {
  Rate : R;
  Samples : list (list R)
}.

(** The flags of [main], after [flag.Parse()]. *)
Record flags : Type := mkFlags {
  path_a : string;
  path_b : string;
  output_zimtohrli_distance : bool;
  per_channel : bool;
  frequency_resolution : R
}.

(** [goohrli.New(rate, frequencyResolution)] *)
Record Goohrli : Type := New {
  g_rate : R;
  g_frequency_resolution : R
}.

(** [goohrli.EnergyAndMaxAbsAmplitude] *)
Record EnergyAndMaxAbsAmplitude : Type := mkMeasurement {
  EnergyDBFS : R;
  MaxAbsAmplitude : R
}.

(** The calls into [goohrli] that receive sample buffers, in the order
    [main] makes them. *)
Inductive call : Type :=
| CallMeasure (signal : list R)
| CallNormalizeAmplitude (maxAbsAmplitude : R) (signal : list R)
| CallDistance (a b : list R)
| CallNormalizedAudioDistance (a b : Audio).

Section Compare.
(** The errors of [aio.Load] and [NormalizedAudioDistance]. *)
Variable lib_error : Type.

Inductive error : Type :=
| LibError (e : lib_error)
| RateError (pathA : string) (rateA : R) (pathB : string) (rateB : R)
| ChannelsError (pathA : string) (nA : nat) (pathB : string) (nB : nat).

(** How [main] ends: it returns, [os.Exit(1)] after the usage text, or
    [log.Panic]. *)
Inductive ending : Type :=
| Done
| Exited (code : Z)
| Panicked (e : error).

(** What a run of [main] leaves behind: how it ended, the calls into
    [goohrli], the numbers printed, and the two signals once loaded. *)
Record run : Type := mkRun {
  run_ending : ending;
  run_calls : list call;
  run_printed : list R;
  run_signalA : option Audio;
  run_signalB : option Audio
}.

(** The packages [aio] and [goohrli] are used by [main] and defined
    elsewhere.  [Measure], [Distance] and [NormalizedAudioDistance] are
    taken by their results.  The result of [NormalizeAmplitude] is
    dropped by [main], which passes it the slice
    [signalB.Samples[channelIndex]]: the function is taken by what it
    leaves in that buffer. *)
Variable Load : string → Audio + lib_error.
Variable Measure : list R → EnergyAndMaxAbsAmplitude.
Variable NormalizeAmplitude : R → list R → list R.
Variable Distance : Goohrli → list R → list R → R.
Variable NormalizedAudioDistance : Goohrli → Audio → Audio → R + lib_error.
Variable MOSFromZimtohrli : R → R.

(** What the per-channel loop leaves in the buffer [b] of signal B that
    goes with the buffer [a] of signal A. *)
Definition normalized (a b : list R) : list R :=
  NormalizeAmplitude (MaxAbsAmplitude (Measure a)) b.

(** The calls of one turn of the per-channel loop. *)
Definition channel_calls (a b : list R) : list call :=
  [CallMeasure a;
   CallNormalizeAmplitude (MaxAbsAmplitude (Measure a)) b;
   CallDistance a (normalized a b)].

Definition getMetric (fl : flags) (f : R) : R :=
  if output_zimtohrli_distance fl then f else MOSFromZimtohrli f.

(** The body of [for channelIndex := range signalA.Samples], on the
    buffers of signal B, the calls made and the lines printed. *)
Definition per_channel_body (fl : flags) (g : Goohrli) (samplesA : list (list R))
    (s : list (list R) * list call * list R) (channelIndex : nat)
    : list (list R) * list call * list R :=
  let '(samplesB, calls, printed) := s in
  let a := samplesA !!! channelIndex in
  let measurement := Measure a in
  let calls := calls ++ [CallMeasure a] in
  let b := samplesB !!! channelIndex in
  let calls :=
    calls ++ [CallNormalizeAmplitude (MaxAbsAmplitude measurement) b] in
  let samplesB :=
    <[channelIndex := NormalizeAmplitude (MaxAbsAmplitude measurement) b]>
      samplesB in
  let b := samplesB !!! channelIndex in
  let calls := calls ++ [CallDistance a b] in
  let printed := printed ++ [getMetric fl (Distance g a b)] in
  (samplesB, calls, printed).

Definition main (fl : flags) : run :=
  if (String.eqb (path_a fl) "" || String.eqb (path_b fl) "")%bool
  then mkRun (Exited 1) [] [] None None
  else
    match Load (path_a fl) with
    | inr err => mkRun (Panicked (LibError err)) [] [] None None
    | inl signalA =>
    match Load (path_b fl) with
    | inr err => mkRun (Panicked (LibError err)) [] [] (Some signalA) None
    | inl signalB =>
        if negb (bool_decide (Rate signalA = Rate signalB)) then
          mkRun (Panicked (RateError (path_a fl) (Rate signalA)
                                     (path_b fl) (Rate signalB)))
                [] [] (Some signalA) (Some signalB)
        else if negb (length (Samples signalA)
                      =? length (Samples signalB))%nat then
          mkRun (Panicked (ChannelsError
                             (path_a fl) (length (Samples signalA))
                             (path_b fl) (length (Samples signalB))))
                [] [] (Some signalA) (Some signalB)
        else
          let g := New (Rate signalA) (frequency_resolution fl) in
          if per_channel fl then
            let '(samplesB, calls, printed) :=
              fold_left (per_channel_body fl g (Samples signalA))
                        (seq 0 (length (Samples signalA)))
                        (Samples signalB, [], []) in
            mkRun Done calls printed (Some signalA)
                  (Some (mkAudio (Rate signalB) samplesB))
          else
            let calls := [CallNormalizedAudioDistance signalA signalB] in
            match NormalizedAudioDistance g signalA signalB with
            | inr err =>
                mkRun (Panicked (LibError err)) calls []
                      (Some signalA) (Some signalB)
            | inl dist =>
                mkRun Done calls [getMetric fl dist]
                      (Some signalA) (Some signalB)
            end
    end
    end.

End Compare.

(** ** The transform and the decimation as the specification words them

    The definitions of this part follow the text of the specification,
    on whole frames and whole windows of samples; the theorems below
    compare them with the loops above.  [und k] stands for the content
    that the upward sweep finds in the storage of [v2] at channel [k]. *)

Section Specification.
Variable kNumRotators : nat.

(** Clamp a loudness value to the floor. *)
Definition clamp (v : R) : R := Rmax min_limit v.

(** Blend [v] towards [mask] when it lies below it. *)
Definition blend (strength mask v : R) : R :=
  if Rlt_dec v mask then strength * mask + (1 - strength) * v else v.

(** The decay of the masker after channel [k] of the upward sweep. *)
Definition masker_step_up (k : nat) : R :=
  if (3 * k <? kNumRotators)%nat
  then masker_step_per_rot_up_0 kNumRotators
  else if (3 * k <? 2 * kNumRotators)%nat
       then masker_step_per_rot_up_1 kNumRotators
       else masker_step_per_rot_up_2 kNumRotators.

(** Upward spreading over the channels [k], [k + 1], ... whose loudness
    values are [vs], with the masker [masker] carried in. *)
Fixpoint spread_up (und : nat → R) (k : nat) (masker : R) (vs : list R)
    : list R :=
  match vs with
  | [] => []
  | v :: vs' =>
      let v2 :=
        if (k =? 0)%nat then v else (1 - up_blur) * und k + up_blur * v in
      let masker := Rmax masker v2 in
      blend maskingStrengthUp (fraction_up * masker - masker_gap_up) v
      :: spread_up und (S k) (masker - masker_step_up k) vs'
  end.

(** Downward spreading; [vs] lists the channels from the highest down. *)
Fixpoint spread_down (masker : R) (vs : list R) : list R :=
  match vs with
  | [] => []
  | v :: vs' =>
      let masker := Rmax masker v in
      blend maskingStrengthDown (fraction_down * masker - masker_gap_down) v
      :: spread_down (masker - masker_step_per_rot_down kNumRotators) vs'
  end.

(** Loudness of the scaled energies, clamped. *)
Definition loudness (mul : R) (energies : list R) : list R :=
  (λ e, clamp (SimpleDb (mul * e))) <$> energies.

(** The masked loudness frame of an energy frame: up, then down. *)
Definition masked_frame (und : nat → R) (mul : R) (energies : list R)
    : list R :=
  reverse (spread_down 0 (reverse (spread_up und 0 0 (loudness mul energies)))).

(** One resonator of the bank: its angular increment [(cos f, - sin f)]
    ([rot[0][i]], [rot[1][i]]), its rotating pair ([rot[2][i]],
    [rot[3][i]]), its window coefficient ([window[i]]) and the six
    stages of its cascade ([accu[0..5][i]] of the first audio channel). *)
Record resonator : Type := mkResonator {
  increment : R * R;
  phasor : R * R;
  coefficient : R;
  stages : list R
}.

Definition resonator_of (st : Rotators) (i : nat) : resonator :=
  mkResonator (get2 (rot st) 0 i, get2 (rot st) 1 i)
              (get2 (rot st) 2 i, get2 (rot st) 3 i)
              (window st !!! i)
              ((λ r, accu st 0 r i) <$> seq 0 6).

(** The product of two complex numbers. *)
Definition cmul (a b : R * R) : R * R :=
  (a.1 * b.1 - a.2 * b.2, a.1 * b.2 + a.2 * b.1).

(** One input sample [x] through one resonator: the pair is rotated by
    the increment; every stage is multiplied by the window coefficient;
    the stages [2] to [5] receive the stage two below them; and the
    stages [0] and [1] receive the sample times the rotated pair. *)
Definition resonator_step (x : R) (r : resonator) : resonator :=
  let p := cmul (increment r) (phasor r) in
  let w := coefficient r in
  let a := λ k : nat, stages r !!! k * w in
  let b2 := a 2%nat + a 0%nat in
  let b3 := a 3%nat + a 1%nat in
  mkResonator (increment r) p w
              [a 0%nat + p.1 * x; a 1%nat + p.2 * x; b2; b3;
               a 4%nat + b2; a 5%nat + b3].

(** The squared magnitude of the last two stages. *)
Definition resonator_energy (r : resonator) : R :=
  stages r !!! 4%nat * stages r !!! 4%nat
  + stages r !!! 5%nat * stages r !!! 5%nat.

(** The energies of all channels. *)
Definition energies (st : Rotators) : list R :=
  energy st <$> seq 0 kNumRotators.

(** Feed [samples] to the filterbank, adding up the energies after
    each of them. *)
Fixpoint accumulate (st : Rotators) (samples : list R) (sums : list R)
    : Rotators * list R :=
  match samples with
  | [] => (st, sums)
  | x :: rest =>
      let st := IncrementAll kNumRotators st x in
      accumulate st rest (zip_with Rplus sums (energies st))
  end.

(** One output frame from a window of samples: the filterbank state
    after it and the sums of the energies. *)
Definition frame_sums (st : Rotators) (samples : list R)
    : Rotators * list R :=
  accumulate (OccasionallyRenormalize kNumRotators st) samples
             (replicate kNumRotators 0).

(** The decimation of [rest], the input still unread, into the frames
    [out_ix], [out_ix + 1], ... of which [left] are still to fill; [d] is
    the number of samples per frame.  A window cut short by the end of
    the input is finalized like a full one, after which the call returns
    if that was the last frame and aborts otherwise. *)
Fixpoint decimate (und : nat → nat → R) (d : nat) (left : nat)
    (out_ix : nat) (st : Rotators) (rest : list R) (channels : array2)
    : outcome :=
  match rest, left with
  | [], _ | _, O => Returned st channels
  | _ :: _, S left' =>
      let '(st', sums) := frame_sums st (take d rest) in
      let channels' :=
        <[out_ix := masked_frame (und out_ix) (1 / INR d) sums]> channels in
      if (length rest <? d)%nat then
        if (left' =? 0)%nat then Returned st' channels'
        else Aborted st' channels'
      else
        if (left' =? 0)%nat then Returned st' channels'
        else decimate und d left' (S out_ix) st' (drop d rest) channels'
  end.

(** The filterbank state after the first [n] samples of [signal], in
    frames of [d] samples. *)
Fixpoint state_after (d : nat) (st : Rotators) (signal : list R) (n : nat)
    : Rotators :=
  match n with
  | O => st
  | S n' =>
      let st' := state_after d st signal n' in
      let st' :=
        if (n' mod d =? 0)%nat
        then OccasionallyRenormalize kNumRotators st' else st' in
      IncrementAll kNumRotators st' (signal !!! n')
  end.

(** The sum over the samples [from], ..., [from + count - 1] of the
    energy of channel [k] after the sample. *)
Definition energy_sum (d : nat) (st : Rotators) (signal : list R)
    (from count : nat) (k : nat) : R :=
  foldr Rplus 0
        ((λ n, energy (state_after d st signal (S n)) k) <$> seq from count).

End Specification.

(** [OccasionallyRenormalize] on one resonator, of gain [g]: the rotating
    pair is scaled to the magnitude [g]. *)
Definition renormalize (g : R) (r : resonator) : resonator :=
  let norm := g / sqrt ((phasor r).1 * (phasor r).1
                        + (phasor r).2 * (phasor r).2) in
  mkResonator (increment r) ((phasor r).1 * norm, (phasor r).2 * norm)
              (coefficient r) (stages r).

(** The resonator [i] as the constructor leaves it. *)
Definition new_resonator (N : nat) (frequency filter_gains : list R)
    (sample_rate : R) (i : nat) (stages : list R) : resonator :=
  let bw :=
    CalculateBandwidth
      (if (i =? 0)%nat then frequency !!! 1%nat else frequency !!! (i - 1)%nat)
      (frequency !!! i)
      (if (i + 1 =? N)%nat then frequency !!! (i - 1)%nat
       else frequency !!! (i + 1)%nat) in
  let w := Rpower kWindow (bw * kBandwidthMagic) in
  let f := frequency !!! i * 2 * PI / sample_rate in
  let g := 2 * sqrt (exp 75.27901963526045) * filter_gains !!! i * (1 - w) ^ 3 in
  mkResonator (cos f, - sin f) (g, 0) w stages.

(** ** Shapes *)

(** The arrays of a [Rotators] have their declared sizes, and there is at
    least one audio channel. *)
Definition Rotators_shape (N : nat) (st : Rotators) : Prop :=
  shape2 4 N (rot st)
  ∧ length (window st) = N
  ∧ length (gain st) = N
  ∧ (0 < length (channel st))%nat
  ∧ ∀ c a, channel st !! c = Some a → shape2 6 N a.

(** The six stages [accu[0..5][i]] of the audio channel [c]. *)
Definition stages_of (st : Rotators) (c i : nat) : list R :=
  (λ r, accu st c r i) <$> seq 0 6.

(** What a run of statements on the stages [accu[..][i]] of the audio
    channel [c] has done to the state [st0]. *)
Definition stage_run (N c i : nat) (st0 st : Rotators) (cs : list R) : Prop :=
  Rotators_shape N st
  ∧ rot st = rot st0 ∧ window st = window st0 ∧ gain st = gain st0
  ∧ length (channel st) = length (channel st0)
  ∧ stages_of st c i = cs
  ∧ ∀ c' i', c ≠ c' ∨ i ≠ i' → stages_of st c' i' = stages_of st0 c' i'.

(** How the call ends once the input has run out inside the frame [o],
    whose sums so far are [sums]; [F] is the number of frames. *)
Definition cut_short (N F : nat) (und : nat → nat → R) (d : nat) (o : nat)
    (st : Rotators) (sums : list R) (channels : array2) : outcome :=
  let channels' :=
    <[o := masked_frame N (und o) (1 / INR d) sums]> channels in
  if (S o =? F)%nat then Returned st channels' else Aborted st channels'.

(** The frame [j] of the auditory image of [signal]: the masked loudness
    of the energies summed over the samples of its window, of which there
    are [d], or fewer when the input ends inside the window. *)
Definition window_frame (N : nat) (und : nat → nat → R) (d : nat)
    (st : Rotators) (signal : list R) (j : nat) : list R :=
  masked_frame N (und j) (1 / INR d)
    (energy_sum N d st signal (j * d) (d `min` (length signal - j * d))
     <$> seq 0 N).

(** ** Scaled resonators *)

(** The resonator [r] with every stage of its cascade multiplied by [c]:
    what the input scaled by [c] leaves where the input itself leaves
    [r]. *)
Definition scale_stages (c : R) (r : resonator) : resonator :=
  mkResonator (increment r) (phasor r) (coefficient r)
              (Rmult c <$> stages r).

(** ** The package [data]: score types and the accuracy search

    Go's [int] is taken as 64 bits wide, and its arithmetic wraps; a
    [float64] is a real number.  A slice is a list. *)

(** The value that an [int] result wraps to. *)
Definition int (z : Z) : Z := ((z + 2 ^ 63) mod 2 ^ 64 - 2 ^ 63)%Z.

(** What a call that may panic comes to.  [NoFuel] is the embedding's
    own, and [ternarySearch] never yields it. *)
Inductive result (A : Type) : Type :=
| Ok (a : A)
| Panic
| NoFuel.
Arguments Ok {A} a.
Arguments Panic {A}.
Arguments NoFuel {A}.

(** [s[i]]; [None] is the panic of an index out of range. *)
Definition at_index {A : Type} (s : list A) (i : Z) : option A :=
  if (i <? 0)%Z then None else s !! Z.to_nat i.

(** [len(s)] *)
Definition len {A : Type} (s : list A) : Z := Z.of_nat (length s).

(** The score types. *)
Definition MOS : string := "MOS".
Definition Zimtohrli : string := "Zimtohrli".
Definition JND : string := "JND".
Definition ViSQOL : string := "ViSQOL".

(** [ScoreType.Better] *)
Definition Better (s : string) : Z :=
  if String.eqb s MOS then 1
  else if String.eqb s Zimtohrli then -1
  else if String.eqb s JND then -1
  else if String.eqb s ViSQOL then 1
  else 0.

(** [ScoreTypes.Len], [ScoreTypes.Less] and [ScoreTypes.Swap].  The
    comparison of Go strings is that of their bytes, in lexicographic
    order. *)
Definition ScoreTypes_Len (s : list string) : Z := len s.

Definition ScoreTypes_Less (s : list string) (i j : Z) : option bool :=
  a ← at_index s i; b ← at_index s j; Some (String.ltb a b).

(** [s[i], s[j] = s[j], s[i]]: both elements are read, then [s[i]] and
    [s[j]] are written in this order. *)
Definition ScoreTypes_Swap (s : list string) (i j : Z)
    : option (list string) :=
  a ← at_index s i; b ← at_index s j;
  Some (<[Z.to_nat j := a]> (<[Z.to_nat i := b]> s)).

(** [abs] returns [-1], not [-i], on a negative [i]. *)
Definition abs (i : Z) : Z := if (i <? 0)%Z then -1 else i.

(** The loop of [ternarySearch].  [f] panics where it is [None]; of the
    two operands of [f(leftThird) < f(rightThird)] the left one is
    evaluated first. *)
Fixpoint ternarySearch_loop (fuel : nat) (f : Z → option R) (left right : Z)
    : result Z :=
  match fuel with
  | O => NoFuel
  | S fuel' =>
      if (2 <? abs (int (right - left)))%Z then
        let third := int (int (right - left) ÷ 3) in
        let leftThird := int (left + third) in
        let rightThird := int (right - third) in
        match f leftThird with
        | None => Panic
        | Some fl =>
            match f rightThird with
            | None => Panic
            | Some fr =>
                if Rlt_dec fl fr
                then ternarySearch_loop fuel' f leftThird right
                else ternarySearch_loop fuel' f left rightThird
            end
        end
      else Ok (int (int (left + right) ÷ 2))
  end.

Definition ternarySearch (f : Z → option R) (left right : Z) : result Z :=
  ternarySearch_loop (S (Z.to_nat (int (right - left)))) f left right.

(** [AccuracyScore] *)
Record AccuracyScore : Type := mkAccuracyScore {
  ScoreType : string;
  Threshold : R;
  Accuracy : R
}.

Section Accuracy.
(** [sort.SearchFloat64s] belongs to the Go library: it is a parameter. *)
Variable SearchFloat64s : list R → R → Z.

(** The closure [accuracy] of [Study.Accuracy], for the score type
    [scoreType] and the slices [all], [audible] and [inaudible] as they
    are after [sort.Sort]. *)
Definition accuracy (scoreType : string) (all audible inaudible : list R)
    (index : Z) : option R :=
  threshold ← at_index all index;
  let audibleBelowThreshold := SearchFloat64s audible threshold in
  let inaudibleBelowThreshold := SearchFloat64s inaudible threshold in
  let '(correctAudible, correctInaudible) :=
    if (0 <? Better scoreType)%Z
    then (audibleBelowThreshold,
          int (len inaudible - inaudibleBelowThreshold))
    else (int (len audible - audibleBelowThreshold),
          inaudibleBelowThreshold) in
  Some (IZR (int (correctAudible + correctInaudible))
        / IZR (int (len audible + len inaudible))).

(** What a turn of the loop [for scoreType := range allMapMap] of
    [Study.Accuracy] appends to [result], from the search for the best
    threshold on. *)
Definition Accuracy_body (scoreType : string) (all audible inaudible : list R)
    : result AccuracyScore :=
  match ternarySearch (accuracy scoreType all audible inaudible) 0
                      (int (len all - 1)) with
  | Ok bestAccuracyThresholdIndex =>
      match at_index all bestAccuracyThresholdIndex,
            accuracy scoreType all audible inaudible
                     bestAccuracyThresholdIndex with
      | Some threshold, Some acc =>
          Ok (mkAccuracyScore scoreType threshold acc)
      | _, _ => Panic
      end
  | Panic => Panic
  | NoFuel => NoFuel
  end.

End Accuracy.

(** * Properties *)

(** ** Arrays *)

Lemma shape2_Forall (n N : nat) (a : array2) :
  length a = n → Forall (λ row, length row = N) a → shape2 n N a.
Proof.
  intros Hlen Hrows. split; [done|]. intros r row Hrow.
  by apply (Forall_lookup_1 _ _ _ _ Hrows Hrow).
Qed.

Lemma Rotators_shape_Forall (N : nat) (st : Rotators) :
  shape2 4 N (rot st) → length (window st) = N → length (gain st) = N →
  (0 < length (channel st))%nat → Forall (shape2 6 N) (channel st) →
  Rotators_shape N st.
Proof.
  intros Hrot Hw Hg Hlen Hch. do 4 (split; [done|]).
  intros c a Ha. by apply (Forall_lookup_1 _ _ _ _ Hch Ha).
Qed.

Lemma length_set2 (a : array2) r i v : length (set2 a r i v) = length a.
Proof. apply length_insert. Qed.

Lemma set2_row (a : array2) r i v :
  (r < length a)%nat → set2 a r i v !!! r = <[i := v]> (a !!! r).
Proof. intros Hr. unfold set2. by rewrite list_lookup_total_insert_eq. Qed.

Lemma set2_row_ne (a : array2) r r' i v :
  r ≠ r' → set2 a r i v !!! r' = a !!! r'.
Proof. intros Hr. unfold set2. by rewrite list_lookup_total_insert_ne. Qed.

Lemma get2_set2_eq (a : array2) r i v :
  (r < length a)%nat → (i < length (a !!! r))%nat →
  get2 (set2 a r i v) r i = v.
Proof.
  intros Hr Hi. unfold get2. rewrite set2_row by done.
  by rewrite list_lookup_total_insert_eq.
Qed.

Lemma get2_set2_ne (a : array2) r i r' i' v :
  r ≠ r' ∨ i ≠ i' → get2 (set2 a r i v) r' i' = get2 a r' i'.
Proof.
  intros Hne. unfold get2.
  destruct (decide (r = r')) as [<-|Hr]; [|by rewrite set2_row_ne].
  destruct Hne as [|Hi]; [done|].
  destruct (decide (r < length a)%nat) as [Hlt|Hge].
  - rewrite set2_row by done. by rewrite list_lookup_total_insert_ne.
  - unfold set2. rewrite list_insert_ge by lia. done.
Qed.

Lemma shape2_row rows cols (a : array2) r :
  shape2 rows cols a → (r < rows)%nat → length (a !!! r) = cols.
Proof.
  intros [Hlen Hrows] Hr. apply (Hrows r).
  apply list_lookup_lookup_total_lt. lia.
Qed.

Lemma shape2_insert rows cols (a : array2) r row :
  shape2 rows cols a → length row = cols → shape2 rows cols (<[r := row]> a).
Proof.
  intros [Hlen Hrows] Hrow. split; [by rewrite length_insert|].
  intros r' row' Hlook.
  destruct (decide (r = r')) as [<-|Hne].
  - apply list_lookup_insert_Some in Hlook as [(_ & -> & _)|[? _]]; done.
  - rewrite list_lookup_insert_ne in Hlook by done. eauto.
Qed.

Lemma shape2_set2 rows cols (a : array2) r i v :
  shape2 rows cols a → shape2 rows cols (set2 a r i v).
Proof.
  intros Ha. destruct (decide (r < rows)%nat) as [Hr|Hr].
  - apply shape2_insert; [done|].
    rewrite length_insert. by eapply shape2_row.
  - unfold set2. destruct Ha as [Hlen ?].
    rewrite list_insert_ge by lia. by split.
Qed.

(** Writing the entry [length done] of row [r], when the row is
    [done ++ x :: todo]. *)
Lemma set2_middle (a : array2) r (done todo : list R) x v :
  (r < length a)%nat → a !!! r = done ++ x :: todo →
  set2 a r (length done) v = <[r := done ++ v :: todo]> a.
Proof.
  intros Hr Hrow. unfold set2. rewrite Hrow.
  f_equal. rewrite insert_app_r_alt by lia.
  by replace (length done - length done)%nat with 0%nat by lia.
Qed.

Lemma get2_middle (a : array2) r (done todo : list R) x :
  a !!! r = done ++ x :: todo → get2 a r (length done) = x.
Proof. intros Hrow. unfold get2. rewrite Hrow. by apply list_lookup_total_middle. Qed.

Lemma insert_insert_row (a : array2) r (row row' : list R) :
  <[r := row]> (<[r := row']> a) = <[r := row]> a.
Proof. apply list_insert_insert_eq. Qed.

Lemma insert_row_id (a : array2) r :
  (r < length a)%nat → <[r := a !!! r]> a = a.
Proof. intros Hr. apply list_insert_id. by apply list_lookup_lookup_total_lt. Qed.

(** ** [FinalizeDb] and the two sweeps *)

Lemma Rmax_if (m v : R) : (if Rlt_dec m v then v else m) = Rmax m v.
Proof.
  unfold Rmax. destruct (Rlt_dec m v), (Rle_dec m v); lra.
Qed.

Lemma clamp_if (v : R) :
  (if Rlt_dec v min_limit then min_limit else v) = clamp v.
Proof.
  unfold clamp, Rmax. destruct (Rlt_dec v min_limit), (Rle_dec min_limit v); lra.
Qed.

Lemma blend_if (strength mask v : R) :
  (if Rlt_dec v mask then strength * mask + (1.0 - strength) * v else v)
  = blend strength mask v.
Proof. unfold blend. destruct (Rlt_dec v mask); lra. Qed.

Lemma length_loudness mul (es : list R) : length (loudness mul es) = length es.
Proof. apply length_fmap. Qed.

Lemma length_spread_up N und (vs : list R) :
  ∀ k m, length (spread_up N und k m vs) = length vs.
Proof. induction vs as [|v vs IH]; intros k m; simpl; [done|]. by rewrite IH. Qed.

Lemma length_spread_down N (vs : list R) :
  ∀ m, length (spread_down N m vs) = length vs.
Proof. induction vs as [|v vs IH]; intros m; simpl; [done|]. by rewrite IH. Qed.

Lemma length_masked_frame N und mul (es : list R) :
  length (masked_frame N und mul es) = length es.
Proof.
  unfold masked_frame.
  by rewrite length_reverse, length_spread_down, length_reverse,
    length_spread_up, length_loudness.
Qed.

Section Sweeps.
Variable N : nat.
Variable fresh : pass → nat → option R.
Variable und : nat → R.
Hypothesis fresh_up :
  ∀ k, k ≠ 0%nat → (k < N)%nat → fresh Up k = Some (und k).

Lemma up_body_middle mul o (ch : array2) m (done todo : list R) x :
  (o < length ch)%nat → ch !!! o = done ++ x :: todo →
  (length done < N)%nat →
  let v := clamp (SimpleDb (mul * x)) in
  let v2 := if (length done =? 0)%nat then v
            else (1 - up_blur) * und (length done) + up_blur * v in
  up_body N fresh mul o (ch, m) (length done)
  = Some
      (<[o := done ++ blend maskingStrengthUp
                        (fraction_up * Rmax m v2 - masker_gap_up) v
                      :: todo]> ch,
       Rmax m v2 - masker_step_up N (length done)).
Proof.
  intros Ho Hrow HN. unfold up_body, masker_step_up, up_v2.
  rewrite (get2_middle _ _ _ _ _ Hrow), clamp_if.
  destruct (3 * length done <? N)%nat, (3 * length done <? 2 * N)%nat;
    (destruct (length done =? 0)%nat eqn:Hk;
     [|apply Nat.eqb_neq in Hk as Hk'; rewrite (fresh_up _ Hk' HN)]);
    cbn [fmap option_fmap option_map mbind option_bind];
    rewrite Rmax_if, blend_if, (set2_middle _ _ _ _ _ _ Ho Hrow);
    done.
Qed.

Lemma up_loop_spread mul o (todo : list R) :
  ∀ (done : list R) (ch : array2) m,
  (o < length ch)%nat → ch !!! o = done ++ todo →
  (length done + length todo <= N)%nat →
  ∃ m',
    for_each (up_body N fresh mul o) (seq (length done) (length todo)) (ch, m)
    = Some (<[o := done ++ spread_up N und (length done) m
                                     (loudness mul todo)]> ch, m').
Proof.
  induction todo as [|x todo IH]; intros done ch m Ho Hrow HN.
  - exists m. simpl. rewrite <- Hrow. by rewrite insert_row_id.
  - cbn [length] in HN. cbn [length seq for_each].
    rewrite (up_body_middle _ _ _ _ _ _ _ Ho Hrow) by lia.
    cbn [mbind option_bind].
    unfold loudness. rewrite fmap_cons. cbn [spread_up].
    fold (loudness mul todo).
    set (v := clamp _). set (v2 := if (_ =? _)%nat then _ else _).
    set (v' := blend _ _ _). set (m1 := _ - _).
    destruct (IH (done ++ [v']) (<[o := done ++ v' :: todo]> ch) m1)
      as [m' Hloop].
    { by rewrite length_insert. }
    { rewrite list_lookup_total_insert_eq by done. by rewrite <- app_assoc. }
    { rewrite length_app. simpl. lia. }
    exists m'. rewrite length_app in Hloop. cbn [length] in Hloop.
    replace (length done + 1)%nat with (S (length done)) in Hloop by lia.
    rewrite Hloop. rewrite insert_insert_row.
    by rewrite <- app_assoc.
Qed.

Lemma down_body_middle o (ch : array2) m (todo done : list R) x :
  (o < length ch)%nat → ch !!! o = todo ++ x :: done →
  down_body N fresh o (ch, m) (length todo)
  = Some (<[o := todo ++ blend maskingStrengthDown
                           (fraction_down * Rmax m x - masker_gap_down) x
                         :: done]> ch,
          Rmax m x - masker_step_per_rot_down N).
Proof.
  intros Ho Hrow. unfold down_body.
  rewrite (get2_middle _ _ _ _ _ Hrow).
  by rewrite Rmax_if, blend_if, (set2_middle _ _ _ _ _ _ Ho Hrow).
Qed.

Lemma down_loop_spread o (n : nat) :
  ∀ (todo done : list R) (ch : array2) m,
  length todo = n → (o < length ch)%nat → ch !!! o = todo ++ done →
  ∃ m',
    for_each (down_body N fresh o) (reverse (seq 0 n)) (ch, m)
    = Some (<[o := reverse (spread_down N m (reverse todo)) ++ done]> ch, m').
Proof.
  induction n as [|n IH]; intros todo done ch m Hlen Ho Hrow.
  - destruct todo; [|done]. exists m. simpl in Hrow |- *.
    rewrite <- Hrow. by rewrite insert_row_id.
  - destruct (exists_last (l := todo)) as (todo' & x & ->).
    { by intros ->. }
    rewrite length_app in Hlen. simpl in Hlen.
    assert (length todo' = n) as Hlen' by lia.
    rewrite <- app_assoc in Hrow. simpl in Hrow.
    rewrite seq_S, reverse_snoc. cbn [Nat.add for_each].
    replace (down_body N fresh o (ch, m) n)
      with (down_body N fresh o (ch, m) (length todo'))
      by (by rewrite Hlen').
    rewrite (down_body_middle _ _ _ _ _ _ Ho Hrow).
    cbn [mbind option_bind].
    rewrite reverse_snoc. cbn [spread_down]. rewrite reverse_cons.
    set (v' := blend _ _ _). set (m1 := _ - _).
    destruct (IH todo' (v' :: done) (<[o := todo' ++ v' :: done]> ch) m1)
      as [m' Hloop]; [done| |..].
    { by rewrite length_insert. }
    { by rewrite list_lookup_total_insert_eq. }
    exists m'. rewrite Hloop, insert_insert_row.
    by rewrite <- app_assoc.
Qed.

(** [FinalizeDb] replaces the frame [out_ix] by its masked loudness
    frame and leaves the other frames alone. *)
Lemma FinalizeDb_masked_frame (channels : array2) mul out_ix :
  (out_ix < length channels)%nat → length (channels !!! out_ix) = N →
  FinalizeDb N fresh channels mul out_ix
  = Some (<[out_ix := masked_frame N und mul (channels !!! out_ix)]> channels).
Proof.
  intros Ho Hrow. unfold FinalizeDb.
  destruct (up_loop_spread mul out_ix (channels !!! out_ix) [] channels 0.0
                           Ho eq_refl) as [m1 Hup]; [simpl; lia|].
  simpl in Hup. rewrite Hrow in Hup. rewrite Hup. simpl.
  set (up := spread_up _ _ _ _ _) in *.
  assert (length up = N) as Hlen.
  { subst up. by rewrite length_spread_up, length_loudness. }
  destruct (down_loop_spread out_ix N up [] (<[out_ix := up]> channels) 0.0)
    as [m2 Hdown]; [done|by rewrite length_insert|..].
  { rewrite list_lookup_total_insert_eq by done. by rewrite app_nil_r. }
  rewrite Hdown. simpl. rewrite insert_insert_row, app_nil_r.
  unfold masked_frame. subst up. by replace 0.0 with 0 by lra.
Qed.
End Sweeps.

(** ** The sweeps only raise values *)

Lemma maskingStrengthUp_range : 0 <= maskingStrengthUp <= 1.
Proof. unfold maskingStrengthUp. lra. Qed.

Lemma maskingStrengthDown_range : 0 <= maskingStrengthDown <= 1.
Proof. unfold maskingStrengthDown. lra. Qed.

Lemma blend_ge (strength mask v : R) :
  0 <= strength → v <= blend strength mask v.
Proof. intros Hs. unfold blend. destruct (Rlt_dec v mask); nra. Qed.

Lemma blend_mix (strength mask v : R) :
  0 <= strength <= 1 →
  strength * mask + (1 - strength) * v <= blend strength mask v.
Proof. intros Hs. unfold blend. destruct (Rlt_dec v mask); nra. Qed.


Lemma spread_up_ge N und (vs : list R) :
  ∀ k m, Forall2 Rle vs (spread_up N und k m vs).
Proof.
  induction vs as [|v vs IH]; intros k m; simpl; constructor; [|apply IH].
  apply blend_ge, maskingStrengthUp_range.
Qed.

Lemma spread_down_ge N (vs : list R) :
  ∀ m, Forall2 Rle vs (spread_down N m vs).
Proof.
  induction vs as [|v vs IH]; intros m; simpl; constructor; [|apply IH].
  apply blend_ge, maskingStrengthDown_range.
Qed.

Lemma Forall2_Rle_floor (floor : R) (xs ys : list R) :
  Forall2 Rle xs ys → Forall (Rle floor) xs → Forall (Rle floor) ys.
Proof.
  induction 1 as [|x y xs ys Hxy _ IH]; intros Hxs; [done|].
  apply Forall_cons in Hxs as [Hx Hxs]. constructor; [lra|by apply IH].
Qed.

(** The downward sweep, put back in channel order, is above its input. *)
Lemma spread_down_reverse_ge N (vs : list R) m :
  Forall2 Rle vs (reverse (spread_down N m (reverse vs))).
Proof.
  rewrite <- (reverse_involutive vs) at 1.
  apply Forall2_reverse, spread_down_ge.
Qed.



Lemma masked_frame_above_up N und mul (es : list R) :
  Forall2 Rle (spread_up N und 0 0 (loudness mul es))
              (masked_frame N und mul es).
Proof. apply spread_down_reverse_ge. Qed.

(** ** The constants *)

Lemma ln_10_pos : 0 < ln 10.
Proof. rewrite <- ln_1. apply ln_increasing; lra. Qed.

Lemma kMul_pos : 0 < kMul.
Proof. unfold kMul. apply Rdiv_lt_0_compat; [lra|apply ln_10_pos]. Qed.

Lemma epsilon_pos : 0 < epsilon.
Proof.
  unfold epsilon, exp_full_scale_sine_db.
  apply Rmult_lt_0_compat; [lra|apply exp_pos].
Qed.

Lemma octaves_in_20_to_20000_pos : 0 < octaves_in_20_to_20000.
Proof.
  unfold octaves_in_20_to_20000. apply Rdiv_lt_0_compat.
  - rewrite <- ln_1. apply ln_increasing; lra.
  - rewrite <- ln_1. apply ln_increasing; lra.
Qed.

Lemma octaves_per_rot_pos N : (2 <= N)%nat → 0 < octaves_per_rot N.
Proof.
  intros HN. unfold octaves_per_rot.
  apply Rdiv_lt_0_compat; [apply octaves_in_20_to_20000_pos|].
  apply IZR_lt. lia.
Qed.

Lemma masker_steps_distinct N :
  (2 <= N)%nat →
  masker_step_per_rot_up_0 N ≠ masker_step_per_rot_up_1 N
  ∧ masker_step_per_rot_up_1 N ≠ masker_step_per_rot_up_2 N
  ∧ masker_step_per_rot_up_0 N ≠ masker_step_per_rot_up_2 N.
Proof.
  intros HN. pose proof (octaves_per_rot_pos N HN) as Hpos.
  unfold masker_step_per_rot_up_0, masker_step_per_rot_up_1,
    masker_step_per_rot_up_2, masker_step_per_octave_up_0,
    masker_step_per_octave_up_1, masker_step_per_octave_up_2.
  repeat split; nra.
Qed.

(** ** The claims on [SimpleDb] and [FinalizeDb] *)

(** C2.  [SimpleDb] returns [k * ln (e + epsilon)] with [k = 10 / ln 10];
    [epsilon] is a positive multiple of [exp 75.27901963526045]; and on
    the energies, which are not negative, the loudness is bounded below by
    its value at [0], which is [k * ln epsilon]. *)
Theorem SimpleDb_formula :
  (∀ e, SimpleDb e = 10 / ln 10 * ln (e + epsilon))
  ∧ epsilon = 1.0033294789821357e-09 * exp 75.27901963526045
  ∧ 0 < epsilon
  ∧ 0 < 10 / ln 10
  ∧ SimpleDb 0 = 10 / ln 10 * ln epsilon
  ∧ (∀ e, 0 <= e → SimpleDb 0 <= SimpleDb e).
Proof.
  assert (10 / ln 10 = kMul) as Hk by (unfold kMul; f_equal; lra).
  repeat split.
  - intros e. by rewrite Hk.
  - apply epsilon_pos.
  - rewrite Hk. apply kMul_pos.
  - rewrite Hk. unfold SimpleDb. by rewrite Rplus_0_l.
  - intros e He. unfold SimpleDb.
    apply Rmult_le_compat_l; [apply Rlt_le, kMul_pos|].
    pose proof epsilon_pos.
    destruct He as [He| <-]; [|lra].
    apply Rlt_le, ln_increasing; lra.
Qed.

Lemma SimpleDb_formula_witness : SimpleDb 0 <= SimpleDb 1.
Proof. apply SimpleDb_formula. lra. Defined.

(** C1.  [FinalizeDb] turns the frame [out_ix] into the result of two
    sweeps, in this order: the upward spreading over the clamped loudness
    values, from channel [0] up, whose masker decays by the step of the
    region of the channel ([3k < N], [3k < 2N], or above), and then the
    downward spreading over the values the upward spreading produced, from
    the highest channel down, with one step.  In both, [blend] moves a
    value towards the mask exactly when the value is below the mask.  The
    three steps of the upward sweep differ from each other. *)
Theorem FinalizeDb_up_then_down N fresh und (channels : array2) mul out_ix :
  (∀ k, k ≠ 0%nat → (k < N)%nat → fresh Up k = Some (und k)) →
  (out_ix < length channels)%nat →
  length (channels !!! out_ix) = N →
  let loud := (λ e, clamp (SimpleDb (mul * e))) <$> channels !!! out_ix in
  let up := spread_up N und 0 0 loud in
  let down := reverse (spread_down N 0 (reverse up)) in
  FinalizeDb N fresh channels mul out_ix = Some (<[out_ix := down]> channels)
  ∧ (∀ strength mask v,
       blend strength mask v
       = if Rlt_dec v mask then strength * mask + (1 - strength) * v else v)
  ∧ ((2 <= N)%nat →
       masker_step_per_rot_up_0 N ≠ masker_step_per_rot_up_1 N
       ∧ masker_step_per_rot_up_1 N ≠ masker_step_per_rot_up_2 N
       ∧ masker_step_per_rot_up_0 N ≠ masker_step_per_rot_up_2 N).
Proof.
  intros Hfresh Ho Hrow. repeat split.
  - by apply FinalizeDb_masked_frame.
  - by apply masker_steps_distinct.
  - by apply masker_steps_distinct.
  - by apply masker_steps_distinct.
Qed.

Lemma FinalizeDb_up_then_down_witness :
  FinalizeDb 2 (λ _ _, Some 0) [[1; 2]] 1 0
  = Some [reverse (spread_down 2 0 (reverse (spread_up 2 (λ _, 0) 0 0
             [clamp (SimpleDb (1 * 1)); clamp (SimpleDb (1 * 2))])))].
Proof.
  apply (FinalizeDb_up_then_down 2 (λ _ _, Some 0) (λ _, 0) [[1; 2]] 1 0);
    [done|simpl; lia|reflexivity].
Defined.



(** ** The uninitialized [v2] *)

Lemma up_v2_indeterminate k v : k ≠ 0%nat → up_v2 None k v = None.
Proof. intros Hk. unfold up_v2. apply Nat.eqb_neq in Hk. by rewrite Hk. Qed.

Lemma down_v2_indeterminate N k v :
  Z.of_nat k ≠ (Z.of_nat N - 1)%Z → down_v2 N None k v = None.
Proof. intros Hk. unfold down_v2. apply Z.eqb_neq in Hk. by rewrite Hk. Qed.

Lemma up_body_0 N fresh mul o s : is_Some (up_body N fresh mul o s 0).
Proof. destruct s as [ch m]. unfold up_body, up_v2. by simpl. Qed.

Lemma up_body_indeterminate N fresh mul o s k :
  k ≠ 0%nat → fresh Up k = None → up_body N fresh mul o s k = None.
Proof.
  intros Hk Hfresh. destruct s as [ch m]. unfold up_body.
  by rewrite Hfresh, up_v2_indeterminate.
Qed.

(** With two channels or more, the first loop of [FinalizeDb] reaches the
    test [masker < v2] at channel [1] with [v2] indeterminate. *)
Lemma FinalizeDb_indeterminate N (channels : array2) mul out_ix :
  (1 < N)%nat → FinalizeDb N (λ _ _, None) channels mul out_ix = None.
Proof.
  intros HN. destruct N as [|[|n]]; [lia|lia|].
  unfold FinalizeDb. cbn [seq for_each].
  destruct (up_body_0 (S (S n)) (λ _ _, None) mul out_ix (channels, 0.0))
    as [s Hs].
  rewrite Hs. cbn [mbind option_bind].
  by rewrite up_body_indeterminate.
Qed.

(** By the content of the storage of [v2] at channel [1], the masked
    value of channel [1] exceeds every bound. *)
Lemma masked_frame_channel_1_unbounded N mul e0 e1 (rest : list R) (B : R) :
  ∃ U, B < masked_frame N (λ _, U) mul (e0 :: e1 :: rest) !!! 1%nat.
Proof.
  set (v1 := clamp (SimpleDb (mul * e1))).
  set (a := maskingStrengthUp * fraction_up * (1 - up_blur)).
  set (c := maskingStrengthUp * (fraction_up * up_blur * v1 - masker_gap_up)
            + (1 - maskingStrengthUp) * v1).
  assert (0 < a) as Ha.
  { unfold a, maskingStrengthUp, fraction_up, up_blur. lra. }
  exists ((B - c) / a + 1).
  set (U := (B - c) / a + 1).
  assert (B < a * U + c) as HB.
  { replace (a * U + c) with (B + a) by (unfold U; field; lra). lra. }
  eapply Rlt_le_trans; [exact HB|].
  pose proof (masked_frame_above_up N (λ _, U) mul (e0 :: e1 :: rest)) as Hup.
  assert (is_Some (masked_frame N (λ _, U) mul (e0 :: e1 :: rest) !! 1%nat))
    as [y Hy].
  { apply lookup_lt_is_Some. rewrite length_masked_frame. simpl. lia. }
  rewrite (list_lookup_total_correct _ _ _ Hy).
  unfold loudness in Hup. rewrite !fmap_cons in Hup. cbn [spread_up] in Hup.
  fold v1 in Hup.
  eapply Rle_trans; [|eapply (Forall2_lookup_lr _ _ _ 1%nat _ _ Hup); [done|exact Hy]].
  cbn [Nat.eqb].
  eapply Rle_trans; [|apply blend_mix, maskingStrengthUp_range].
  set (M := Rmax _ ((1 - up_blur) * U + up_blur * v1)).
  assert ((1 - up_blur) * U + up_blur * v1 <= M) as HM by apply Rmax_r.
  pose proof maskingStrengthUp_range as Hs.
  assert (0 <= maskingStrengthUp * fraction_up) as Hsf.
  { unfold maskingStrengthUp, fraction_up. lra. }
  unfold a, c. nra.
Qed.

(** C3.  The initializer of [v2] reads [v2] itself.  In both loops the
    value of [v2] is indeterminate at every channel but the first one
    visited; with more than one channel the first loop reaches its test
    [masker < v2] on such a value, so that the execution has no defined
    result; and when the storage of [v2] does hold numbers, the frame
    written back depends on them. *)
Theorem FinalizeDb_reads_uninitialized_v2 N :
  (∀ k v, k ≠ 0%nat → up_v2 None k v = None)
  ∧ (∀ k v, Z.of_nat k ≠ (Z.of_nat N - 1)%Z → down_v2 N None k v = None)
  ∧ ((1 < N)%nat → ∀ (channels : array2) mul out_ix,
       FinalizeDb N (λ _ _, None) channels mul out_ix = None)
  ∧ ((1 < N)%nat → ∀ (channels : array2) mul out_ix (und : pass → nat → R),
       (out_ix < length channels)%nat → length (channels !!! out_ix) = N →
       ∃ und' : pass → nat → R,
         FinalizeDb N (λ p k, Some (und p k)) channels mul out_ix
         ≠ FinalizeDb N (λ p k, Some (und' p k)) channels mul out_ix).
Proof.
  split; [apply up_v2_indeterminate|].
  split; [apply down_v2_indeterminate|].
  split; [intros HN channels mul out_ix; by apply FinalizeDb_indeterminate|].
  intros HN channels mul out_ix und Ho Hrow.
  destruct (channels !!! out_ix) as [|e0 [|e1 rest]] eqn:Hframe;
    [simpl in Hrow; lia|simpl in Hrow; lia|].
  destruct (masked_frame_channel_1_unbounded N mul e0 e1 rest
              (masked_frame N (und Up) mul (e0 :: e1 :: rest) !!! 1%nat))
    as [U HU].
  exists (λ _ _, U).
  rewrite (FinalizeDb_masked_frame N _ (und Up)) by (done || by rewrite Hframe).
  rewrite (FinalizeDb_masked_frame N _ (λ _, U)) by (done || by rewrite Hframe).
  rewrite Hframe. intros Heq.
  assert (masked_frame N (und Up) mul (e0 :: e1 :: rest)
          = masked_frame N (λ _, U) mul (e0 :: e1 :: rest)) as Hrows.
  { injection Heq as Heq.
    apply (f_equal (λ a : array2, a !!! out_ix)) in Heq.
    by rewrite !list_lookup_total_insert_eq in Heq by done. }
  rewrite Hrows in HU. lra.
Qed.

Lemma FinalizeDb_reads_uninitialized_v2_witness :
  up_v2 None 1 0 = None
  ∧ FinalizeDb 2 (λ _ _, None) [[1; 2]] 1 0 = None.
Proof.
  destruct (FinalizeDb_reads_uninitialized_v2 2) as (Hup & _ & Hrun & _).
  split; [by apply Hup|apply Hrun; lia].
Defined.

(** ** The accumulators *)

Lemma accu_set_accu_eq N st c r i v :
  Rotators_shape N st → (c < length (channel st))%nat → (r < 6)%nat →
  (i < N)%nat → accu (set_accu st c r i v) c r i = v.
Proof.
  intros (_ & _ & _ & _ & Hch) Hc Hr Hi. unfold accu, set_accu. simpl.
  rewrite list_lookup_total_insert_eq by done.
  pose proof (Hch c _ (list_lookup_lookup_total_lt _ _ Hc)) as Ha.
  apply get2_set2_eq.
  - destruct Ha as [-> _]. done.
  - by rewrite (shape2_row _ _ _ _ Ha).
Qed.

Lemma accu_set_accu_ne st c r i c' r' i' v :
  c ≠ c' ∨ r ≠ r' ∨ i ≠ i' →
  accu (set_accu st c r i v) c' r' i' = accu st c' r' i'.
Proof.
  intros Hne. unfold accu, set_accu. simpl.
  destruct (decide (c = c')) as [<-|Hc];
    [|by rewrite list_lookup_total_insert_ne].
  destruct (decide (c < length (channel st))%nat) as [Hlt|Hge].
  - rewrite list_lookup_total_insert_eq by done.
    apply get2_set2_ne. destruct Hne as [|[|]]; [done|by left|by right].
  - by rewrite list_insert_ge by lia.
Qed.

Lemma Rotators_shape_set_accu N st c r i v :
  Rotators_shape N st → Rotators_shape N (set_accu st c r i v).
Proof.
  intros (Hrot & Hw & Hg & Hlen & Hch). unfold set_accu.
  split; [exact Hrot|]. split; [exact Hw|]. split; [exact Hg|].
  split; [simpl; by rewrite length_insert|].
  simpl. intros c' a Ha. destruct (decide (c = c')) as [<-|Hne].
  - apply list_lookup_insert_Some in Ha as [(_ & <- & Hc)|[? _]]; [|done].
    apply shape2_set2, (Hch c). by apply list_lookup_lookup_total_lt.
  - rewrite list_lookup_insert_ne in Ha by done. by apply (Hch c').
Qed.

Lemma Rotators_shape_set_rot N st r i v :
  Rotators_shape N st → Rotators_shape N (set_rot st r i v).
Proof.
  intros (Hrot & Hw & Hg & Hlen & Hch). unfold set_rot.
  split; [by apply shape2_set2|done].
Qed.

Lemma stages_of_set_accu N st c r i v :
  Rotators_shape N st → (c < length (channel st))%nat → (r < 6)%nat →
  (i < N)%nat →
  stages_of (set_accu st c r i v) c i = <[r := v]> (stages_of st c i).
Proof.
  intros Hst Hc Hr Hi. unfold stages_of. cbn [seq fmap list_fmap].
  do 6 (destruct r as [|r];
        [cbn [insert list_insert];
         rewrite (accu_set_accu_eq N) by (done || lia);
         rewrite !accu_set_accu_ne by (right; left; lia); done|]).
  lia.
Qed.

Lemma stages_of_set_accu_ne st c r i c' i' v :
  c ≠ c' ∨ i ≠ i' →
  stages_of (set_accu st c r i v) c' i' = stages_of st c' i'.
Proof.
  intros Hne. unfold stages_of. apply list_fmap_ext. intros _ r' _.
  apply accu_set_accu_ne. destruct Hne; [by left|by right; right].
Qed.

Lemma accu_stages_of st c r i :
  (r < 6)%nat → accu st c r i = stages_of st c i !!! r.
Proof.
  intros Hr. do 6 (destruct r as [|r]; [done|]). lia.
Qed.

Lemma stage_run_set N c i st0 st cs r v :
  (c < length (channel st0))%nat → (r < 6)%nat → (i < N)%nat →
  stage_run N c i st0 st cs →
  stage_run N c i st0 (set_accu st c r i v) (<[r := v]> cs).
Proof.
  intros Hc Hr Hi (Hst & Hrot & Hw & Hg & Hlen & Hcs & Hframe).
  split; [by apply Rotators_shape_set_accu|].
  repeat split; try done.
  - simpl. by rewrite length_insert.
  - rewrite (stages_of_set_accu N) by (done || lia). by rewrite Hcs.
  - intros c' i' Hne. rewrite stages_of_set_accu_ne by done. by apply Hframe.
Qed.

Lemma stage_run_read N c i st0 st cs r :
  (r < 6)%nat → stage_run N c i st0 st cs → accu st c r i = cs !!! r.
Proof.
  intros Hr (_ & _ & _ & _ & _ & <- & _). by apply accu_stages_of.
Qed.

(** One more statement [s := set_accu s0 c r i v] of a run [H] on [s0]. *)
Ltac stage_step s H H' :=
  let body := eval unfold s in s in
  lazymatch body with
  | set_accu ?s0 _ ?r _ ?v =>
      lazymatch type of H with
      | stage_run ?N ?c ?i ?st0 _ ?cs =>
          assert (H' := stage_run_set N c i st0 s0 cs r v
                          ltac:(eassumption) ltac:(clear; lia)
                          ltac:(eassumption) H);
          change (set_accu s0 c r i v) with s in H';
          try rewrite (stage_run_read N c i st0 s0 cs 0 ltac:(clear; lia) H) in H';
          try rewrite (stage_run_read N c i st0 s0 cs 1 ltac:(clear; lia) H) in H';
          try rewrite (stage_run_read N c i st0 s0 cs 2 ltac:(clear; lia) H) in H';
          try rewrite (stage_run_read N c i st0 s0 cs 3 ltac:(clear; lia) H) in H';
          try rewrite (stage_run_read N c i st0 s0 cs 4 ltac:(clear; lia) H) in H';
          try rewrite (stage_run_read N c i st0 s0 cs 5 ltac:(clear; lia) H) in H';
          cbn [insert list_insert lookup_total list_lookup_total] in H'
      end
  end.

Lemma IncrementAll_channel_run N x w c i st :
  Rotators_shape N st → (c < length (channel st))%nat → (i < N)%nat →
  let a := λ k : nat, accu st c k i * w in
  stage_run N c i st (IncrementAll_channel x i w st c)
    [a 0%nat + get2 (rot st) 2 i * x; a 1%nat + get2 (rot st) 3 i * x;
     a 2%nat + a 0%nat; a 3%nat + a 1%nat;
     a 4%nat + (a 2%nat + a 0%nat); a 5%nat + (a 3%nat + a 1%nat)].
Proof.
  intros Hst Hc Hi a.
  assert (stage_run N c i st st
            [accu st c 0 i; accu st c 1 i; accu st c 2 i;
             accu st c 3 i; accu st c 4 i; accu st c 5 i])
    as H0 by (split; [done|]; repeat split; done).
  pose (s1 := set_accu st c 0 i (accu st c 0 i * w)).
  pose (s2 := set_accu s1 c 1 i (accu s1 c 1 i * w)).
  pose (s3 := set_accu s2 c 2 i (accu s2 c 2 i * w)).
  pose (s4 := set_accu s3 c 3 i (accu s3 c 3 i * w)).
  pose (s5 := set_accu s4 c 4 i (accu s4 c 4 i * w)).
  pose (s6 := set_accu s5 c 5 i (accu s5 c 5 i * w)).
  pose (s7 := set_accu s6 c 2 i (accu s6 c 2 i + accu s6 c 0 i)).
  pose (s8 := set_accu s7 c 3 i (accu s7 c 3 i + accu s7 c 1 i)).
  pose (s9 := set_accu s8 c 4 i (accu s8 c 4 i + accu s8 c 2 i)).
  pose (s10 := set_accu s9 c 5 i (accu s9 c 5 i + accu s9 c 3 i)).
  pose (s11 := set_accu s10 c 0 i (accu s10 c 0 i + get2 (rot s10) 2 i * x)).
  pose (s12 := set_accu s11 c 1 i (accu s11 c 1 i + get2 (rot s11) 3 i * x)).
  change (IncrementAll_channel x i w st c) with s12.
  assert (H1 := stage_run_set N c i st st _ 0%nat (accu st c 0 i * w)
                  Hc ltac:(clear; lia) Hi H0).
  change (set_accu st c 0 i (accu st c 0 i * w)) with s1 in H1.
  cbn [insert list_insert] in H1.
  stage_step s2 H1 H2. stage_step s3 H2 H3.
  stage_step s4 H3 H4. stage_step s5 H4 H5. stage_step s6 H5 H6.
  stage_step s7 H6 H7. stage_step s8 H7 H8. stage_step s9 H8 H9.
  stage_step s10 H9 H10. stage_step s11 H10 H11. stage_step s12 H11 H12.
  destruct H10 as (_ & Hrot10 & _). destruct H11 as (_ & Hrot11 & _).
  rewrite Hrot10, Hrot11 in H12. exact H12.
Qed.

(** ** Loops over independent channels *)

(** A loop over the indices below [n] whose turn [j] leaves the part
    [view] of the state alone unless [j = i], and applies [g] to it when
    [j = i]. *)
Lemma fold_left_column {St V : Type} (f : St → nat → St) (ok : St → Prop)
    (view : St → V) (g : V → V) (n i : nat) :
  (∀ s j, ok s → (j < n)%nat → ok (f s j)) →
  (∀ s j, ok s → (j < n)%nat → j ≠ i → view (f s j) = view s) →
  (∀ s, ok s → (i < n)%nat → view (f s i) = g (view s)) →
  ∀ s, ok s → (i < n)%nat →
  ok (fold_left f (seq 0 n) s) ∧ view (fold_left f (seq 0 n) s) = g (view s).
Proof.
  intros Hok Hne Heq.
  assert (∀ m a s, ok s → (a + m <= n)%nat →
            ok (fold_left f (seq a m) s)
            ∧ view (fold_left f (seq a m) s)
              = if decide (a <= i < a + m)%nat then g (view s) else view s)
    as Hgen.
  { induction m as [|m IH]; intros a s Hs Ham.
    - simpl. split; [done|]. case_decide; [lia|done].
    - cbn [seq fold_left].
      destruct (IH (S a) (f s a)) as [Hok' Hview]; [apply Hok; [done|lia]|lia|].
      split; [done|]. rewrite Hview.
      destruct (decide (a = i)) as [->|Hai].
      + rewrite Heq by (done || lia). repeat case_decide; (done || lia).
      + rewrite Hne by (done || lia). repeat case_decide; (done || lia). }
  intros s Hs Hi. destruct (Hgen n 0%nat s Hs) as [? Hview]; [lia|].
  split; [done|]. rewrite Hview. case_decide; [done|lia].
Qed.

Lemma get2_rot_set_rot_eq N st r i v :
  Rotators_shape N st → (r < 4)%nat → (i < N)%nat →
  get2 (rot (set_rot st r i v)) r i = v.
Proof.
  intros (Hrot & _) Hr Hi. simpl. apply get2_set2_eq.
  - destruct Hrot as [-> _]. done.
  - by rewrite (shape2_row _ _ _ _ Hrot).
Qed.

Lemma get2_rot_set_rot_ne st r i r' i' v :
  r ≠ r' ∨ i ≠ i' → get2 (rot (set_rot st r i v)) r' i' = get2 (rot st) r' i'.
Proof. intros Hne. simpl. by apply get2_set2_ne. Qed.

Lemma stages_of_0 st i : stages (resonator_of st i) = stages_of st 0 i.
Proof. done. Qed.

(** One turn of the loop of [IncrementAll] is one step of the resonator
    of its channel, and leaves the other resonators alone. *)
Lemma IncrementAll_body_resonator N x st i :
  Rotators_shape N st → (i < N)%nat →
  Rotators_shape N (IncrementAll_body x st i)
  ∧ resonator_of (IncrementAll_body x st i) i
    = resonator_step x (resonator_of st i)
  ∧ ∀ j, j ≠ i →
      resonator_of (IncrementAll_body x st i) j = resonator_of st j.
Proof.
  intros Hst Hi. unfold IncrementAll_body.
  set (tr := _ - _). set (tc := _ + _).
  set (st1 := set_rot st 2 i tr). set (st2 := set_rot st1 3 i tc).
  assert (Rotators_shape N st1) as Hst1 by by apply Rotators_shape_set_rot.
  assert (Rotators_shape N st2) as Hst2 by by apply Rotators_shape_set_rot.
  assert (0 < length (channel st2))%nat as Hc by apply Hst2.
  cbn [seq fold_left].
  destruct (IncrementAll_channel_run N x (window st2 !!! i) 0 i st2 Hst2 Hc Hi)
    as (Hshape & Hrot & Hw & Hg & Hlen & Hcs & Hframe).
  split; [done|].
  assert (∀ r j, get2 (rot st2) r j
                 = if decide (j = i)
                   then if decide (r = 2)%nat then tr
                        else if decide (r = 3)%nat then tc
                             else get2 (rot st) r j
                   else get2 (rot st) r j) as Hrot2.
  { intros r j. subst st2 st1. repeat case_decide; subst.
    - rewrite get2_rot_set_rot_ne by (left; lia).
      by rewrite (get2_rot_set_rot_eq N) by (done || lia).
    - by rewrite (get2_rot_set_rot_eq N) by (done || lia).
    - rewrite !get2_rot_set_rot_ne by (left; lia). done.
    - rewrite !get2_rot_set_rot_ne by (right; lia). done. }
  split.
  - unfold resonator_of at 1. fold (stages_of (IncrementAll_channel x i (window st2 !!! i) st2 0) 0 i).
    rewrite Hcs, Hrot, Hw, !Hrot2.
    repeat (case_decide; try lia).
    unfold resonator_step, resonator_of, cmul. cbn -[accu].
    subst tr tc. reflexivity.
  - intros j Hj. unfold resonator_of.
    fold (stages_of (IncrementAll_channel x i (window st2 !!! i) st2 0) 0 j).
    rewrite Hframe by (right; done).
    rewrite Hrot, Hw, !Hrot2. case_decide; [done|]. reflexivity.
Qed.

Lemma energy_resonator st i :
  energy st i = resonator_energy (resonator_of st i).
Proof. done. Qed.

Lemma IncrementAll_resonator N st x i :
  Rotators_shape N st → (i < N)%nat →
  Rotators_shape N (IncrementAll N st x)
  ∧ resonator_of (IncrementAll N st x) i = resonator_step x (resonator_of st i).
Proof.
  intros Hst Hi. unfold IncrementAll.
  apply (fold_left_column (IncrementAll_body x) (Rotators_shape N)
           (λ s, resonator_of s i) (resonator_step x) N i); [| | |done..].
  - intros s j Hs Hj.
    by destruct (IncrementAll_body_resonator N x s j Hs Hj) as (? & _).
  - intros s j Hs Hj Hne.
    destruct (IncrementAll_body_resonator N x s j Hs Hj) as (_ & _ & Hframe).
    apply Hframe. done.
  - intros s Hs _.
    by destruct (IncrementAll_body_resonator N x s i Hs Hi) as (_ & ? & _).
Qed.

Lemma fold_left_preserved {St V : Type} (f : St → nat → St) (view : St → V)
    (ks : list nat) :
  (∀ s j, view (f s j) = view s) → ∀ s, view (fold_left f ks s) = view s.
Proof.
  intros Hf. induction ks as [|k ks IH]; intros s; simpl; [done|].
  by rewrite IH.
Qed.

Lemma fold_left_ok {St : Type} (f : St → nat → St) (ok : St → Prop)
    (ks : list nat) :
  (∀ s j, ok s → ok (f s j)) → ∀ s, ok s → ok (fold_left f ks s).
Proof.
  intros Hf. induction ks as [|k ks IH]; intros s Hs; simpl; [done|].
  by apply IH, Hf.
Qed.

Lemma lookup_total_energies N st k :
  (k < N)%nat → energies N st !!! k = energy st k.
Proof.
  intros Hk. unfold energies.
  apply list_lookup_total_correct.
  rewrite list_lookup_fmap, lookup_seq_lt by done. done.
Qed.

Lemma lookup_total_zip_with_Rplus (l k : list R) i :
  (i < length l)%nat → (i < length k)%nat →
  zip_with Rplus l k !!! i = l !!! i + k !!! i.
Proof.
  intros Hl Hk. apply list_lookup_total_correct.
  rewrite lookup_zip_with.
  rewrite (list_lookup_lookup_total_lt l i Hl).
  by rewrite (list_lookup_lookup_total_lt k i Hk).
Qed.

Lemma length_energies N st : length (energies N st) = N.
Proof. unfold energies. by rewrite length_fmap, length_seq. Qed.

(** An array that differs from [a] in the row [o] only. *)
Lemma array2_row_ext F N (a a' : array2) o (row : list R) :
  shape2 F N a → shape2 F N a' → (o < F)%nat → length row = N →
  (∀ r, r ≠ o → a' !!! r = a !!! r) →
  (∀ k, (k < N)%nat → get2 a' o k = row !!! k) →
  a' = <[o := row]> a.
Proof.
  intros Ha Ha' Ho Hrow Hother Hentries.
  apply (list_eq_same_length _ _ F);
    [rewrite length_insert; by destruct Ha|by destruct Ha'|].
  intros r x y Hr Hx Hy.
  apply list_lookup_total_correct in Hx. subst x.
  destruct (decide (r = o)) as [->|Hne].
  - rewrite list_lookup_insert_eq in Hy by (destruct Ha as [-> _]; done).
    injection Hy as <-.
    apply (list_eq_same_length _ _ N); [done|by eapply shape2_row|].
    intros k x y Hk Hx Hy.
    apply list_lookup_total_correct in Hx, Hy. subst x y.
    by apply Hentries.
  - rewrite list_lookup_insert_ne in Hy by done.
    apply list_lookup_total_correct in Hy. subst y. by apply Hother.
Qed.

Lemma store_energy_row F N st (channels : array2) o :
  shape2 F N channels → (o < F)%nat →
  store_energy N st o channels = <[o := energies N st]> channels.
Proof.
  intros Hch Ho. unfold store_energy.
  set (f := λ (channels : array2) k, set2 channels o k (energy st k)).
  apply (array2_row_ext F N); [done| |done|apply length_energies|..].
  - apply (fold_left_ok f); [|done]. intros s j Hs. by apply shape2_set2.
  - intros r Hr.
    apply (fold_left_preserved f (λ a : array2, a !!! r)).
    intros s j. by apply set2_row_ne.
  - intros k Hk. rewrite lookup_total_energies by done.
    apply (fold_left_column f (shape2 F N) (λ a, get2 a o k)
             (λ _, energy st k) N k); [| | |done..].
    + intros s j Hs _. by apply shape2_set2.
    + intros s j Hs _ Hne. apply get2_set2_ne. by right.
    + intros s Hs _. apply get2_set2_eq.
      * destruct Hs as [-> _]. done.
      * by rewrite (shape2_row _ _ _ _ Hs).
Qed.

Lemma add_energy_row F N st (channels : array2) o :
  shape2 F N channels → (o < F)%nat →
  add_energy N st o channels
  = <[o := zip_with Rplus (channels !!! o) (energies N st)]> channels.
Proof.
  intros Hch Ho. unfold add_energy.
  set (f := λ (channels : array2) k,
              set2 channels o k (get2 channels o k + energy st k)).
  assert (length (channels !!! o) = N) as Hrow by by eapply shape2_row.
  apply (array2_row_ext F N); [done| |done| |..].
  - apply (fold_left_ok f); [|done]. intros s j Hs. by apply shape2_set2.
  - rewrite length_zip_with, length_energies. lia.
  - intros r Hr.
    apply (fold_left_preserved f (λ a : array2, a !!! r)).
    intros s j. by apply set2_row_ne.
  - intros k Hk.
    rewrite lookup_total_zip_with_Rplus by (rewrite ?length_energies; lia).
    rewrite lookup_total_energies by done.
    apply (fold_left_column f (shape2 F N) (λ a, get2 a o k)
             (λ v, v + energy st k) N k); [| | |done..].
    + intros s j Hs _. by apply shape2_set2.
    + intros s j Hs _ Hne. apply get2_set2_ne. by right.
    + intros s Hs _. apply get2_set2_eq.
      * destruct Hs as [-> _]. done.
      * by rewrite (shape2_row _ _ _ _ Hs).
Qed.

(** ** [FilterAndDownsample] and the decimation *)

Lemma zip_with_Rplus_zeros (es : list R) :
  zip_with Rplus (replicate (length es) 0) es = es.
Proof.
  induction es as [|e es IH]; simpl; [done|]. rewrite IH. f_equal. lra.
Qed.

Lemma length_accumulate N (samples : list R) :
  ∀ st sums, length sums = N →
  length (accumulate N st samples sums).2 = N.
Proof.
  induction samples as [|x samples IH]; intros st sums Hlen; simpl; [done|].
  apply IH. rewrite length_zip_with, length_energies. lia.
Qed.

Lemma to_size_t_small (z : Z) : (0 <= z < 2 ^ 64)%Z → to_size_t z = z.
Proof. intros Hz. unfold to_size_t. by apply Z.mod_small. Qed.

Lemma scaling_for_downsampling_INR d :
  scaling_for_downsampling (Z.of_nat d) = 1 / INR d.
Proof.
  unfold scaling_for_downsampling. rewrite <- INR_IZR_INZ. f_equal. lra.
Qed.

Section Decimation.
Variables (N F d : nat).
Variable fresh : nat → pass → nat → option R.
Variable und : nat → nat → R.
Variable signal : list R.
Hypothesis fresh_up :
  ∀ o k, k ≠ 0%nat → (k < N)%nat → fresh o Up k = Some (und o k).
Hypothesis d_pos : (0 < d)%nat.
Hypothesis no_overflow :
  (Z.of_nat (length signal) + Z.of_nat d < 2 ^ 63)%Z.
Hypothesis F_small : (Z.of_nat F < 2 ^ 64)%Z.

Lemma inner_loop_accumulate i0 o (n : nat) :
  ∀ (z : nat) st (channels : array2) (sums xs : list R),
  shape2 F N channels → (o < F)%nat → length sums = N →
  (i0 < length signal)%nat → (z + n <= d)%nat →
  xs = drop (i0 + z) signal →
  (z = 0%nat → sums = replicate N 0 ∧ xs ≠ [] ∧ n ≠ 0%nat) →
  (z ≠ 0%nat → channels !!! o = sums) →
  inner_loop N fresh signal (Z.of_nat d) (Z.of_nat i0) o n (Z.of_nat z)
             st channels
  = let '(st', sums') := accumulate N st (take n xs) sums in
    if (n <=? length xs)%nat then Next st' (<[o := sums']> channels)
    else Exit (cut_short N F und d o st' sums' channels).
Proof.
  induction n as [|n IH];
    intros z st channels sums xs Hch Ho Hsums Hi0 Hzn Hxs Hz0 Hz.
  - simpl. destruct (decide (z = 0%nat)) as [Hz'|Hz'];
      [by destruct (Hz0 Hz') as (_ & _ & ?)|].
    rewrite <- (Hz Hz'), insert_row_id; [done|].
    destruct Hch as [-> _]. done.
  - cbn [inner_loop].
    assert (length channels = F) as HF by apply Hch.
    rewrite to_size_t_small by lia.
    destruct xs as [|x xs'].
    + (* the input has run out *)
      assert (length signal <= i0 + z)%nat as Hout.
      { apply (f_equal length) in Hxs. rewrite length_drop in Hxs.
        simpl in Hxs. lia. }
      assert (z ≠ 0%nat) as Hz'.
      { intros Hz'. by destruct (Hz0 Hz') as (_ & ? & _). }
      destruct (Z.leb_spec (Z.of_nat (length signal))
                           (Z.of_nat i0 + Z.of_nat z)) as [_|?]; [|lia].
      rewrite HF. destruct (Nat.ltb_spec o F) as [_|?]; [|lia].
      rewrite (FinalizeDb_masked_frame N (fresh o) (und o));
        [|by apply fresh_up|lia|by rewrite (Hz Hz')].
      rewrite length_insert, HF, (Hz Hz'), scaling_for_downsampling_INR.
      rewrite to_size_t_small by lia.
      simpl. unfold cut_short.
      destruct (Z.eqb_spec (Z.of_nat o) (Z.of_nat F - 1)),
               (Nat.eqb_spec (S o) F); (done || lia).
    + (* one more sample *)
      assert (i0 + z < length signal)%nat as Hin.
      { apply (f_equal length) in Hxs. rewrite length_drop in Hxs.
        simpl in Hxs. lia. }
      destruct (Z.leb_spec (Z.of_nat (length signal))
                           (Z.of_nat i0 + Z.of_nat z)) as [?|_]; [lia|].
      replace (Z.to_nat (Z.of_nat i0 + Z.of_nat z)) with (i0 + z)%nat by lia.
      assert (signal !!! (i0 + z)%nat = x) as ->.
      { rewrite <- (Nat.add_0_r (i0 + z)), <- lookup_total_drop, <- Hxs.
        done. }
      set (st1 := IncrementAll N st x).
      set (sums1 := zip_with Rplus sums (energies N st1)).
      assert ((if (Z.of_nat z =? 0)%Z then store_energy N st1 o channels
               else add_energy N st1 o channels)
              = <[o := sums1]> channels) as ->.
      { destruct (Z.eqb_spec (Z.of_nat z) 0) as [Hz'|Hz'].
        - rewrite (store_energy_row F N) by done.
          destruct Hz0 as (-> & _); [lia|]. subst sums1.
          rewrite <- (length_energies N st1) at 2.
          by rewrite zip_with_Rplus_zeros.
        - rewrite (add_energy_row F N) by done.
          by rewrite Hz by lia. }
      replace (Z.of_nat z + 1)%Z with (Z.of_nat (S z)) by lia.
      rewrite (IH (S z) st1 (<[o := sums1]> channels) sums1 xs').
      * cbn [take accumulate length]. fold st1. fold sums1.
        destruct (accumulate N st1 (take n xs') sums1) as [st' sums'].
        replace (S n <=? S (length xs'))%nat with (n <=? length xs')%nat
          by done.
        unfold cut_short. rewrite !insert_insert_row. done.
      * apply shape2_insert; [done|].
        subst sums1. rewrite length_zip_with, length_energies. lia.
      * done.
      * subst sums1. rewrite length_zip_with, length_energies. lia.
      * done.
      * lia.
      * change xs' with (drop 1 (x :: xs')).
        rewrite Hxs, drop_drop. f_equal. lia.
      * lia.
      * intros _. rewrite list_lookup_total_insert_eq; [done|lia].
Qed.

(** The loops of [FilterAndDownsample] decimate the input that is
    left. *)
Lemma outer_loop_decimate (left : nat) :
  ∀ (fuel o i0 : nat) st (channels : array2),
  shape2 F N channels → (o + left = F)%nat → (0 < left)%nat →
  (left <= fuel)%nat → (i0 < length signal + d)%nat →
  outer_loop N fresh signal (Z.of_nat d) fuel (Z.of_nat i0) o st channels
  = decimate N und d left o st (drop i0 signal) channels.
Proof.
  induction left as [|left IH];
    intros fuel o i0 st channels Hch HoF Hleft Hfuel Hi0; [lia|].
  destruct fuel as [|fuel]; [lia|].
  assert (length channels = F) as HF by apply Hch.
  cbn [outer_loop]. rewrite to_size_t_small by lia.
  destruct (drop i0 signal) as [|x rest] eqn:Hdrop.
  - assert (length signal <= i0)%nat as Hout.
    { apply (f_equal length) in Hdrop. rewrite length_drop in Hdrop.
      simpl in Hdrop. lia. }
    destruct (Z.ltb_spec (Z.of_nat i0) (Z.of_nat (length signal))); [lia|].
    done.
  - assert (i0 < length signal)%nat as Hin.
    { apply (f_equal length) in Hdrop. rewrite length_drop in Hdrop.
      simpl in Hdrop. lia. }
    destruct (Z.ltb_spec (Z.of_nat i0) (Z.of_nat (length signal))); [|lia].
    rewrite Nat2Z.id.
    rewrite (inner_loop_accumulate i0 o d 0 _ channels (replicate N 0)
               (x :: rest));
      [|done|lia|by rewrite length_replicate|done|lia
       |by rewrite Nat.add_0_r|intros _; repeat split; (done || lia)|done].
    cbn [decimate]. unfold frame_sums.
    destruct (accumulate N (OccasionallyRenormalize N st)
                         (take d (x :: rest)) (replicate N 0))
      as [st' sums'] eqn:Hacc.
    assert (length sums' = N) as Hsums.
    { change sums' with (st', sums').2. rewrite <- Hacc.
      apply length_accumulate. by rewrite length_replicate. }
    destruct (Nat.leb_spec d (length (x :: rest))) as [Hfull|Hcut];
      destruct (Nat.ltb_spec (length (x :: rest)) d) as [?|?]; try lia.
    + rewrite (FinalizeDb_masked_frame N (fresh o) (und o));
        [|by apply fresh_up|rewrite length_insert; lia
         |rewrite list_lookup_total_insert_eq by lia; done].
      rewrite list_lookup_total_insert_eq by lia.
      rewrite insert_insert_row, length_insert, HF.
      rewrite scaling_for_downsampling_INR.
      destruct (Nat.leb_spec F (S o)), (Nat.eqb_spec left 0);
        try lia; [done|].
      replace (Z.of_nat i0 + Z.of_nat d)%Z with (Z.of_nat (i0 + d)) by lia.
      rewrite IH; [|by apply shape2_insert; [|rewrite length_masked_frame]
                   |lia..].
      rewrite <- Hdrop, drop_drop. done.
    + unfold cut_short.
      destruct (Nat.eqb_spec (S o) F), (Nat.eqb_spec left 0);
        (done || lia).
Qed.

Lemma FilterAndDownsample_decimate st (channels : array2) :
  shape2 F N channels → (0 < F)%nat →
  FilterAndDownsample N fresh signal (Z.of_nat d) st channels
  = decimate N und d F 0 st signal channels.
Proof.
  intros Hch HF. unfold FilterAndDownsample.
  destruct Hch as [Hlen Hrows]. rewrite Hlen.
  rewrite (outer_loop_decimate F (S F) 0 0); (done || lia).
Qed.
End Decimation.

Lemma energy_sum_S N d st signal from count k :
  energy_sum N d st signal from (S count) k
  = energy (state_after N d st signal (S from)) k
    + energy_sum N d st signal (S from) count k.
Proof. done. Qed.

Section Windows.
Variables (N d : nat).
Variable st0 : Rotators.
Variable signal : list R.
Hypothesis d_pos : (0 < d)%nat.

(** Inside a frame, [accumulate] follows [state_after]. *)
Lemma accumulate_state_after (c m : nat) :
  ∀ (t : nat) (sums : list R),
  (1 <= t)%nat → (t + m <= d)%nat → (c * d + t + m <= length signal)%nat →
  length sums = N →
  let r := accumulate N (state_after N d st0 signal (c * d + t))
                      (take m (drop (c * d + t) signal)) sums in
  r.1 = state_after N d st0 signal (c * d + t + m)
  ∧ length r.2 = N
  ∧ ∀ k, (k < N)%nat →
      r.2 !!! k = sums !!! k + energy_sum N d st0 signal (c * d + t) m k.
Proof.
  induction m as [|m IH]; intros t sums Ht Htm Hlen Hsums.
  - simpl. rewrite Nat.add_0_r. repeat split; [done|].
    intros k Hk. unfold energy_sum. simpl. lra.
  - assert (is_Some (signal !! (c * d + t)%nat)) as [x Hx].
    { apply lookup_lt_is_Some. lia. }
    rewrite (drop_S _ _ _ Hx). cbn [take accumulate].
    assert (IncrementAll N (state_after N d st0 signal (c * d + t)) x
            = state_after N d st0 signal (c * d + S t)) as ->.
    { replace (c * d + S t)%nat with (S (c * d + t)) by lia.
      cbn [state_after].
      replace ((c * d + t) `mod` d)%nat with t.
      - destruct (Nat.eqb_spec t 0) as [?|_]; [lia|].
        by rewrite (list_lookup_total_correct _ _ _ Hx).
      - rewrite Nat.add_comm, Nat.Div0.mod_add. symmetry.
        apply Nat.mod_small. lia. }
    replace (S (c * d + t)) with (c * d + S t)%nat by lia.
    destruct (IH (S t) (zip_with Rplus sums
                          (energies N (state_after N d st0 signal
                                         (c * d + S t)))))
      as (Hst & Hlen' & Hsum); [lia|lia|lia| |].
    { rewrite length_zip_with, length_energies. lia. }
    split; [rewrite Hst; f_equal; lia|]. split; [done|].
    intros k Hk. rewrite (Hsum k Hk).
    rewrite lookup_total_zip_with_Rplus
      by (rewrite ?length_energies; lia).
    rewrite lookup_total_energies by done.
    rewrite energy_sum_S.
    replace (S (c * d + t)) with (c * d + S t)%nat by lia. lra.
Qed.

(** The sums of the window that starts at the sample [c * d]. *)
Lemma frame_sums_state_after (c : nat) :
  (c * d < length signal)%nat →
  let m := (d `min` (length signal - c * d))%nat in
  frame_sums N (state_after N d st0 signal (c * d))
             (take d (drop (c * d) signal))
  = (state_after N d st0 signal (c * d + m),
     energy_sum N d st0 signal (c * d) m <$> seq 0 N).
Proof.
  intros Hc m.
  assert (take d (drop (c * d) signal) = take m (drop (c * d) signal))
    as ->.
  { subst m. destruct (Nat.min_spec d (length signal - c * d))
      as [[_ ->]|[? ->]]; [done|].
    rewrite !take_ge; [done|rewrite length_drop; lia..]. }
  assert (∃ m', m = S m') as [m' Hm].
  { exists (m - 1)%nat. subst m. lia. }
  rewrite Hm. assert (is_Some (signal !! (c * d)%nat)) as [x Hx].
  { by apply lookup_lt_is_Some. }
  unfold frame_sums. rewrite (drop_S _ _ _ Hx). cbn [take accumulate].
  assert (IncrementAll N (OccasionallyRenormalize N
                            (state_after N d st0 signal (c * d))) x
          = state_after N d st0 signal (c * d + 1)) as ->.
  { replace (c * d + 1)%nat with (S (c * d)) by lia. cbn [state_after].
    rewrite Nat.Div0.mod_mul. simpl.
    by rewrite (list_lookup_total_correct _ _ _ Hx). }
  replace (S (c * d)) with (c * d + 1)%nat by lia.
  pose proof (accumulate_state_after c m' 1
                (zip_with Rplus (replicate N 0)
                   (energies N (state_after N d st0 signal (c * d + 1)))))
    as Hacc.
  destruct Hacc as (Hst & Hlen & Hsum); [lia|subst m; lia|subst m; lia| |].
  { rewrite length_zip_with, length_energies, length_replicate. lia. }
  destruct (accumulate _ _ _ _) as [st' sums']. simpl in Hst, Hlen, Hsum.
  f_equal; [rewrite Hst; f_equal; lia|].
  apply (list_eq_same_length _ _ N);
    [by rewrite length_fmap, length_seq|done|].
  intros k y1 y2 Hk Hy1 Hy2.
  apply list_lookup_total_correct in Hy1. subst y1.
  rewrite list_lookup_fmap, lookup_seq_lt in Hy2 by done.
  injection Hy2 as <-. rewrite (Hsum k Hk).
  rewrite lookup_total_zip_with_Rplus
    by (rewrite ?length_energies, ?length_replicate; lia).
  rewrite lookup_total_replicate_2 by done.
  rewrite lookup_total_energies by done.
  rewrite energy_sum_S.
  replace (S (c * d)) with (c * d + 1)%nat by lia. simpl. lra.
Qed.
End Windows.

Lemma decimate_nil N und d left o st (channels : array2) :
  decimate N und d left o st [] channels = Returned st channels.
Proof. by destruct left. Qed.

Lemma decimate_more N und d left o st (rest : list R) (channels : array2) :
  rest ≠ [] →
  decimate N und d (S left) o st rest channels
  = let '(st', sums) := frame_sums N st (take d rest) in
    let channels' :=
      <[o := masked_frame N (und o) (1 / INR d) sums]> channels in
    if (length rest <? d)%nat then
      if (left =? 0)%nat then Returned st' channels'
      else Aborted st' channels'
    else
      if (left =? 0)%nat then Returned st' channels'
      else decimate N und d left (S o) st' (drop d rest) channels'.
Proof. by destruct rest. Qed.

Section Frames.
Variables (N F d q r : nat).
Variable und : nat → nat → R.
Variable st0 : Rotators.
Variable signal : list R.
Hypothesis d_pos : (0 < d)%nat.
Hypothesis windows : length signal = (q * d + r)%nat.
Hypothesis r_lt_d : (r < d)%nat.

(** The frames that the decimation writes from the frame [o] on. *)
Lemma decimate_frames (left : nat) :
  ∀ (o : nat) (channels : array2),
  shape2 F N channels → (o + left = F)%nat →
  ∃ st' (channels' : array2),
    decimate N und d left o (state_after N d st0 signal (o * d))
             (drop (o * d) signal) channels
    = (if bool_decide (o <= q ∧ S q < F ∧ r ≠ 0)%nat
       then Aborted st' channels' else Returned st' channels')
    ∧ shape2 F N channels'
    ∧ ∀ j, (j < F)%nat →
        channels' !!! j
        = if bool_decide (o <= j ∧ j * d < length signal)%nat
          then window_frame N und d st0 signal j
          else channels !!! j.
Proof.
  induction left as [|left IH]; intros o channels Hch HoF.
  - exists (state_after N d st0 signal (o * d)), channels.
    replace (decimate _ _ _ 0 _ _ _ _)
      with (Returned (state_after N d st0 signal (o * d)) channels)
      by (by destruct (drop _ _)).
    rewrite bool_decide_eq_false_2 by lia.
    repeat split; [apply Hch..|].
    intros j Hj. by rewrite bool_decide_eq_false_2 by lia.
  - destruct (decide (length signal <= o * d)%nat) as [Hout|Hin].
    + exists (state_after N d st0 signal (o * d)), channels.
      rewrite drop_ge, decimate_nil by done.
      rewrite bool_decide_eq_false_2 by nia.
      repeat split; [apply Hch..|].
      intros j Hj. by rewrite bool_decide_eq_false_2 by nia.
    + rewrite decimate_more.
      2:{ intros Hnil. apply (f_equal length) in Hnil.
          rewrite length_drop in Hnil. simpl in Hnil. lia. }
      rewrite (frame_sums_state_after N d st0 signal d_pos o) by lia.
      fold (window_frame N und d st0 signal o).
      set (m := (d `min` (length signal - o * d))%nat).
      set (st1 := state_after N d st0 signal (o * d + m)).
      set (channels1 := <[o := window_frame N und d st0 signal o]> channels).
      assert (shape2 F N channels1) as Hch1.
      { apply shape2_insert; [done|]. unfold window_frame.
        by rewrite length_masked_frame, length_fmap, length_seq. }
      assert (∀ j, channels1 !!! j
                   = if bool_decide (j = o) then
                       window_frame N und d st0 signal o
                     else channels !!! j) as Hrows1.
      { intros j. subst channels1. case_bool_decide as Hj.
        - subst j. rewrite list_lookup_total_insert_eq; [done|].
          destruct Hch as [-> _]. lia.
        - by rewrite list_lookup_total_insert_ne. }
      rewrite length_drop.
      destruct (Nat.ltb_spec (length signal - o * d) d) as [Hcut|Hfull].
      * (* the input ends inside the window of the frame [o] *)
        assert (o = q) as Hoq by nia.
        assert (r ≠ 0%nat) as Hr by nia.
        exists st1, channels1.
        split.
        { destruct (Nat.eqb_spec left 0).
          - by rewrite bool_decide_eq_false_2 by lia.
          - by rewrite bool_decide_eq_true_2 by lia. }
        split; [done|]. intros j Hj. rewrite Hrows1.
        repeat case_bool_decide; subst; (done || nia).
      * destruct (Nat.eqb_spec left 0) as [Hlast|Hmore].
        { exists st1, channels1.
          rewrite bool_decide_eq_false_2 by nia.
          split; [done|]. split; [done|]. intros j Hj. rewrite Hrows1.
          repeat case_bool_decide; subst; (done || nia). }
        assert (m = d) as Hm by (subst m; lia).
        assert (st1 = state_after N d st0 signal (S o * d)) as ->.
        { subst st1. f_equal. lia. }
        rewrite drop_drop.
        replace (o * d + d)%nat with (S o * d)%nat by lia.
        destruct (IH (S o) channels1 Hch1) as (st' & channels' & Hrun & Hch' & Hrows);
          [lia|].
        exists st', channels'. cbv zeta. rewrite Hrun.
        split.
        { repeat case_bool_decide; (done || nia). }
        split; [done|]. intros j Hj. rewrite (Hrows j Hj), Hrows1.
        clear Hm.
        repeat case_bool_decide; try subst j; (done || nia).
Qed.
End Frames.

(** ** [FilterAndDownsample] ends *)

Lemma for_each_invariant {St : Type} (body : St → nat → option St)
    (P : St → Prop) (ks : list nat) :
  (∀ s k s', P s → body s k = Some s' → P s') →
  ∀ s s', P s → for_each body ks s = Some s' → P s'.
Proof.
  intros Hbody. induction ks as [|k ks IH]; intros s s' Hs Hrun; simpl in Hrun.
  - by injection Hrun as <-.
  - destruct (body s k) as [s1|] eqn:Hk; [|done]. simpl in Hrun.
    by apply (IH s1), Hrun; eapply Hbody.
Qed.

Lemma FinalizeDb_length N fresh (channels channels' : array2) mul out_ix :
  FinalizeDb N fresh channels mul out_ix = Some channels' →
  length channels' = length channels.
Proof.
  unfold FinalizeDb. intros Hrun.
  destruct (for_each (up_body N fresh mul out_ix) _ _) as [[ch1 m1]|] eqn:Hup;
    [|done].
  simpl in Hrun.
  destruct (for_each (down_body N fresh out_ix) _ _) as [[ch2 m2]|] eqn:Hdown;
    [|done].
  injection Hrun as <-.
  apply (for_each_invariant _ (λ s, length s.1 = length channels))
    in Hup; [| |done].
  - apply (for_each_invariant _ (λ s, length s.1 = length channels))
      in Hdown; [done| |done].
    intros [ch m] k [ch' m'] Hlen Hbody. unfold down_body in Hbody.
    injection Hbody as <- _. simpl in *. by rewrite length_set2.
  - intros [ch m] k [ch' m'] Hlen Hbody. unfold up_body in Hbody.
    destruct (up_v2 _ _ _); [|done]. injection Hbody as <- _.
    simpl in *. by rewrite length_set2.
Qed.

Lemma length_store_energy N st o (channels : array2) :
  length (store_energy N st o channels) = length channels.
Proof.
  unfold store_energy.
  apply (fold_left_ok _ (λ a : array2, length a = length channels)); [|done].
  intros s j Hs. by rewrite length_set2.
Qed.

Lemma length_add_energy N st o (channels : array2) :
  length (add_energy N st o channels) = length channels.
Proof.
  unfold add_energy.
  apply (fold_left_ok _ (λ a : array2, length a = length channels)); [|done].
  intros s j Hs. by rewrite length_set2.
Qed.

Lemma inner_loop_ends N fresh signal ds ii o (n : nat) :
  ∀ zz st (channels : array2),
  match inner_loop N fresh signal ds ii o n zz st channels with
  | Next _ channels' => length channels' = length channels
  | Exit out => out ≠ OutOfFuel
  end.
Proof.
  induction n as [|n IH]; intros zz st channels; cbn [inner_loop]; [done|].
  destruct (_ <=? _)%Z.
  - destruct (if (o <? length channels)%nat then _ else _); [|done].
    by destruct (_ =? _)%Z.
  - set (channels1 := if (zz =? 0)%Z then _ else _).
    assert (length channels1 = length channels) as Hlen.
    { subst channels1.
      destruct (zz =? 0)%Z;
        [apply length_store_energy|apply length_add_energy]. }
    specialize (IH (zz + 1)%Z
                  (IncrementAll N st (signal !!! Z.to_nat (ii + zz))) channels1).
    destruct (inner_loop _ _ _ _ _ _ _ _ _ _); [congruence|done].
Qed.

Lemma outer_loop_ends N fresh signal ds (fuel : nat) :
  ∀ ii o st (channels : array2),
  (o <= length channels)%nat → (length channels < fuel + o)%nat →
  outer_loop N fresh signal ds fuel ii o st channels ≠ OutOfFuel.
Proof.
  induction fuel as [|fuel IH]; intros ii o st channels Ho Hfuel; [lia|].
  cbn [outer_loop]. destruct (_ <? _)%Z; [|done].
  pose proof (inner_loop_ends N fresh signal ds ii o (Z.to_nat ds) 0%Z
                (OccasionallyRenormalize N st) channels) as Hinner.
  destruct (inner_loop _ _ _ _ _ _ _ _ _ _) as [st1 channels1|out]; [|done].
  destruct (FinalizeDb _ _ _ _ _) as [channels2|] eqn:Hfin; [|done].
  apply FinalizeDb_length in Hfin.
  destruct (Nat.leb_spec (length channels2) (S o)); [done|].
  apply IH; lia.
Qed.

(** Whatever its arguments, the embedding of [FilterAndDownsample] does
    not run out of fuel: the loops of the source end. *)
Lemma FilterAndDownsample_ends N fresh signal ds st (channels : array2) :
  FilterAndDownsample N fresh signal ds st channels ≠ OutOfFuel.
Proof. unfold FilterAndDownsample. apply outer_loop_ends; lia. Qed.

(** ** The resonators *)

Lemma Rotators_shape_set_window N st i v :
  Rotators_shape N st → Rotators_shape N (set_window st i v).
Proof.
  intros (Hrot & Hw & Hg & Hlen & Hch). unfold set_window.
  split; [done|]. split; [simpl; by rewrite length_insert|done].
Qed.

Lemma Rotators_shape_set_gain N st i v :
  Rotators_shape N st → Rotators_shape N (set_gain st i v).
Proof.
  intros (Hrot & Hw & Hg & Hlen & Hch). unfold set_gain.
  split; [done|]. split; [done|].
  split; [simpl; by rewrite length_insert|done].
Qed.

(** The rows [0] to [3] of [rot] after the four writes at the column
    [i]. *)
Lemma get2_rot_column N (a : array2) i v0 v1 v2 v3 r j :
  shape2 4 N a → (i < N)%nat → (r < 4)%nat →
  get2 (set2 (set2 (set2 (set2 a 0 i v0) 1 i v1) 2 i v2) 3 i v3) r j
  = if decide (j = i) then [v0; v1; v2; v3] !!! r else get2 a r j.
Proof.
  intros Ha Hi Hr.
  assert (∀ a' r', shape2 4 N a' → (r' < 4)%nat →
            (r' < length a')%nat ∧ (i < length (a' !!! r'))%nat) as Hin.
  { intros a' r' Ha' Hr'. split; [destruct Ha' as [-> _]; done|].
    by rewrite (shape2_row _ _ _ _ Ha'). }
  pose proof (shape2_set2 _ _ a 0 i v0 Ha) as Ha0.
  pose proof (shape2_set2 _ _ _ 1 i v1 Ha0) as Ha1.
  pose proof (shape2_set2 _ _ _ 2 i v2 Ha1) as Ha2.
  case_decide as Hj.
  - subst j. destruct r as [|[|[|[|r]]]]; try lia;
      cbn [lookup_total list_lookup_total].
    + rewrite !get2_set2_ne by (left; lia). apply get2_set2_eq; by apply Hin.
    + rewrite !get2_set2_ne by (left; lia). apply get2_set2_eq; by apply Hin.
    + rewrite !get2_set2_ne by (left; lia). apply get2_set2_eq; by apply Hin.
    + apply get2_set2_eq; by apply Hin.
  - by rewrite !get2_set2_ne by (right; done).
Qed.

Lemma Rotators_body_resonator N frequency filter_gains sample_rate st i :
  Rotators_shape N st → (i < N)%nat →
  Rotators_shape N (Rotators_body N frequency filter_gains sample_rate st i)
  ∧ resonator_of (Rotators_body N frequency filter_gains sample_rate st i) i
    = new_resonator N frequency filter_gains sample_rate i
                    (stages (resonator_of st i))
  ∧ ∀ j, j ≠ i →
      resonator_of (Rotators_body N frequency filter_gains sample_rate st i) j
      = resonator_of st j.
Proof.
  intros Hst Hi. unfold Rotators_body.
  set (bw := CalculateBandwidth _ _ _).
  set (w := Rpower kWindow (bw * kBandwidthMagic)).
  set (f := frequency !!! i * 2.0 * PI / sample_rate).
  assert (window (set_window st i w) !!! i = w) as Hw.
  { simpl. apply list_lookup_total_insert_eq.
    destruct Hst as (_ & -> & _). done. }
  rewrite Hw.
  set (g := 2.0 * sqrt (exp 75.27901963526045) * filter_gains !!! i
            * (1.0 - w) ^ 3).
  assert (gain (set_rot (set_rot (set_gain (set_window st i w) i g) 0 i (cos f))
                        1 i (- sin f)) !!! i = g) as Hg.
  { simpl. apply list_lookup_total_insert_eq.
    destruct Hst as (_ & _ & -> & _). done. }
  rewrite Hg.
  split.
  { by do 4 apply Rotators_shape_set_rot;
      apply Rotators_shape_set_gain, Rotators_shape_set_window. }
  assert (shape2 4 N (rot st)) as Hrot by apply Hst.
  split.
  - unfold resonator_of, new_resonator.
    cbn [rot window set_rot set_gain set_window accu channel].
    rewrite !(get2_rot_column N) by (done || lia).
    rewrite !decide_True by done. rewrite list_lookup_total_insert_eq
      by (destruct Hst as (_ & -> & _); done).
    cbn [lookup_total list_lookup_total].
    fold bw. fold w. subst f g.
    replace 2.0 with 2 by lra. replace 1.0 with 1 by lra.
    replace 0.0 with 0 by lra. reflexivity.
  - intros j Hj. unfold resonator_of.
    cbn [rot window set_rot set_gain set_window accu channel].
    rewrite !(get2_rot_column N) by (done || lia).
    rewrite !decide_False by done.
    by rewrite list_lookup_total_insert_ne.
Qed.

Lemma Rotators_shape_zeros N num_channels :
  (0 < num_channels)%nat →
  let zeros := replicate N 0 in
  Rotators_shape N
    (mkRotators (replicate 4 zeros) zeros zeros
                (replicate num_channels (replicate 6 zeros)) []).
Proof.
  intros Hnc. cbv zeta.
  assert (∀ n, shape2 n N (replicate n (replicate N 0))) as Hshape.
  { intros n. split; [by rewrite length_replicate|].
    intros r row [-> _]%lookup_replicate. by rewrite length_replicate. }
  split; [apply Hshape|].
  split; [simpl; by rewrite length_replicate|].
  split; [simpl; by rewrite length_replicate|].
  split; [simpl; by rewrite length_replicate|].
  simpl. intros c a [-> _]%lookup_replicate. apply Hshape.
Qed.

(** The constructor leaves, at every channel, the increment
    [(cos f, - sin f)], the pair [(gain, 0)] and a cascade of zeros. *)
Lemma Rotators_new_resonator N num_channels frequency filter_gains
    sample_rate i :
  (0 < num_channels)%nat → (i < N)%nat →
  let st := Rotators_new N num_channels frequency filter_gains sample_rate in
  Rotators_shape N st
  ∧ resonator_of st i
    = new_resonator N frequency filter_gains sample_rate i (replicate 6 0).
Proof.
  intros Hnc Hi st. subst st. unfold Rotators_new. cbv zeta.
  set (st0 := mkRotators (replicate 4 _) _ _ _ []).
  pose proof (Rotators_shape_zeros N num_channels Hnc) as Hst0.
  cbv zeta in Hst0. fold st0 in Hst0.
  destruct (fold_left_column
              (Rotators_body N frequency filter_gains sample_rate)
              (Rotators_shape N) (λ s, resonator_of s i)
              (λ r, new_resonator N frequency filter_gains sample_rate i
                                  (stages r)) N i) with (s := st0)
    as [Hok Hview]; [| | |exact Hst0|exact Hi|].
  - intros s j Hs Hj.
    by destruct (Rotators_body_resonator N frequency filter_gains
                   sample_rate s j Hs Hj) as (? & _).
  - intros s j Hs Hj Hne.
    destruct (Rotators_body_resonator N frequency filter_gains
                sample_rate s j Hs Hj) as (_ & _ & Hframe).
    by apply Hframe.
  - intros s Hs _.
    by destruct (Rotators_body_resonator N frequency filter_gains
                   sample_rate s i Hs Hi) as (_ & ? & _).
  - split; [exact Hok|].
    change (resonator_of
              (fold_left (Rotators_body N frequency filter_gains sample_rate)
                         (seq 0 N) st0) i
            = new_resonator N frequency filter_gains sample_rate i
                            (replicate 6 0)).
    rewrite Hview. f_equal.
    subst st0. unfold resonator_of, accu, get2. cbn [channel stages].
    cbn [fmap list_fmap seq].
    rewrite !(lookup_total_replicate_2 num_channels) by done.
    rewrite !(lookup_total_replicate_2 6) by lia.
    by rewrite !(lookup_total_replicate_2 N) by done.
Qed.

Lemma OccasionallyRenormalize_body_resonator N st i :
  Rotators_shape N st → (i < N)%nat →
  Rotators_shape N (OccasionallyRenormalize_body st i)
  ∧ gain (OccasionallyRenormalize_body st i) = gain st
  ∧ resonator_of (OccasionallyRenormalize_body st i) i
    = renormalize (gain st !!! i) (resonator_of st i)
  ∧ ∀ j, j ≠ i →
      resonator_of (OccasionallyRenormalize_body st i) j = resonator_of st j.
Proof.
  intros Hst Hi. unfold OccasionallyRenormalize_body.
  set (norm := _ / _).
  split; [by do 2 apply Rotators_shape_set_rot|]. split; [done|].
  assert (shape2 4 N (rot st)) as Hrot by apply Hst.
  assert (∀ r j, get2 (rot (set_rot st 2 i (get2 (rot st) 2 i * norm))) r j
                 = if decide (r = 2%nat ∧ j = i)
                   then get2 (rot st) 2 i * norm else get2 (rot st) r j)
    as Hrot1.
  { intros r j. case_decide as Hrj.
    - destruct Hrj as [-> ->].
      by rewrite (get2_rot_set_rot_eq N) by (done || lia).
    - rewrite get2_rot_set_rot_ne; [done|].
      destruct (decide (2%nat = r)); [right; naive_solver|by left]. }
  assert (Rotators_shape N (set_rot st 2 i (get2 (rot st) 2 i * norm)))
    as Hst1 by by apply Rotators_shape_set_rot.
  split.
  - unfold resonator_of, renormalize.
    cbn [increment phasor coefficient stages fst snd].
    fold norm.
    rewrite (get2_rot_set_rot_eq N) by (done || lia).
    rewrite !get2_rot_set_rot_ne by (left; lia).
    rewrite !Hrot1.
    rewrite decide_True by done. rewrite !decide_False by lia.
    reflexivity.
  - intros j Hj. unfold resonator_of.
    rewrite !get2_rot_set_rot_ne by (right; done).
    reflexivity.
Qed.

Lemma OccasionallyRenormalize_resonator N st i :
  Rotators_shape N st → (i < N)%nat →
  Rotators_shape N (OccasionallyRenormalize N st)
  ∧ resonator_of (OccasionallyRenormalize N st) i
    = renormalize (gain st !!! i) (resonator_of st i).
Proof.
  intros Hst Hi. unfold OccasionallyRenormalize.
  destruct (fold_left_column OccasionallyRenormalize_body
              (λ s, Rotators_shape N s ∧ gain s = gain st)
              (λ s, resonator_of s i)
              (renormalize (gain st !!! i)) N i) with (s := st)
    as [[Hok _] Hview]; [| | |done|done|done].
  - intros s j [Hs Hg] Hj.
    destruct (OccasionallyRenormalize_body_resonator N s j Hs Hj)
      as (? & Hg' & _). split; [done|]. by rewrite Hg'.
  - intros s j [Hs Hg] Hj Hne.
    destruct (OccasionallyRenormalize_body_resonator N s j Hs Hj)
      as (_ & _ & _ & Hframe). by apply Hframe.
  - intros s [Hs Hg] _.
    destruct (OccasionallyRenormalize_body_resonator N s i Hs Hi)
      as (_ & _ & Heq & _). by rewrite Heq, Hg.
Qed.

Lemma get2_store_energy F N st (channels : array2) o k :
  shape2 F N channels → (o < F)%nat → (k < N)%nat →
  get2 (store_energy N st o channels) o k = energy st k.
Proof.
  intros Hch Ho Hk. rewrite (store_energy_row F N) by done.
  unfold get2. rewrite list_lookup_total_insert_eq
    by (destruct Hch as [-> _]; done).
  by apply lookup_total_energies.
Qed.

(** C8.  One input sample takes every resonator of the bank one step
    further: its pair is multiplied, as a complex number, by its increment,
    which the constructor has set to [(cos f, - sin f)] and which neither
    [IncrementAll] nor [OccasionallyRenormalize] changes; every stage of
    the cascade is multiplied by the window coefficient, the stages [2] to
    [5] receive the stage two below them, and the stages [0] and [1] the
    sample times the rotated pair.  The energy of a channel, which
    [FilterAndDownsample] stores for the first sample of a frame, is
    [accu[4]² + accu[5]²]. *)
Theorem IncrementAll_steps_resonators N st x :
  Rotators_shape N st →
  Rotators_shape N (IncrementAll N st x)
  ∧ (∀ i, (i < N)%nat →
       resonator_of (IncrementAll N st x) i
       = resonator_step x (resonator_of st i)
       ∧ increment (resonator_of (IncrementAll N st x) i)
         = increment (resonator_of st i)
       ∧ increment (resonator_of (OccasionallyRenormalize N st) i)
         = increment (resonator_of st i)
       ∧ energy (IncrementAll N st x) i
         = accu (IncrementAll N st x) 0 4 i * accu (IncrementAll N st x) 0 4 i
           + accu (IncrementAll N st x) 0 5 i * accu (IncrementAll N st x) 0 5 i
       ∧ energy (IncrementAll N st x) i
         = resonator_energy (resonator_step x (resonator_of st i)))
  ∧ (∀ r,
       let p := cmul (increment r) (phasor r) in
       let w := coefficient r in
       let a := λ k : nat, stages r !!! k * w in
       phasor (resonator_step x r) = p
       ∧ stages (resonator_step x r)
         = [a 0%nat + p.1 * x; a 1%nat + p.2 * x;
            a 2%nat + a 0%nat; a 3%nat + a 1%nat;
            a 4%nat + (a 2%nat + a 0%nat); a 5%nat + (a 3%nat + a 1%nat)])
  ∧ (∀ num_channels frequency filter_gains sample_rate i,
       (0 < num_channels)%nat → (i < N)%nat →
       increment (resonator_of (Rotators_new N num_channels frequency
                                             filter_gains sample_rate) i)
       = (cos (frequency !!! i * 2 * PI / sample_rate),
          - sin (frequency !!! i * 2 * PI / sample_rate)))
  ∧ (∀ F (channels : array2) o k,
       shape2 F N channels → (o < F)%nat → (k < N)%nat →
       get2 (store_energy N st o channels) o k = energy st k).
Proof.
  intros Hst.
  split; [destruct N as [|N']|].
  { unfold IncrementAll. done. }
  { by destruct (IncrementAll_resonator (S N') st x 0%nat Hst) as [? _]; [lia|]. }
  split.
  { intros i Hi.
    destruct (IncrementAll_resonator N st x i Hst Hi) as [_ Hstep].
    destruct (OccasionallyRenormalize_resonator N st i Hst Hi) as [_ Hnorm].
    split; [done|]. split; [by rewrite Hstep|].
    split; [by rewrite Hnorm|]. split; [done|].
    by rewrite energy_resonator, Hstep. }
  split; [done|].
  split.
  { intros num_channels frequency filter_gains sample_rate i Hnc Hi.
    destruct (Rotators_new_resonator N num_channels frequency filter_gains
                sample_rate i Hnc Hi) as [_ Hnew].
    by rewrite Hnew. }
  intros F channels o k. apply get2_store_energy.
Qed.

Lemma IncrementAll_steps_resonators_witness :
  let st :=
    mkRotators [[0; 1]; [1; 0]; [3; 0]; [4; 2]] [0.5; 0.25] [5; 2]
               [[[1; 1]; [2; 1]; [3; 1]; [4; 1]; [5; 1]; [6; 1]]] [] in
  resonator_of (IncrementAll 2 st 3) 0 = resonator_step 3 (resonator_of st 0)
  ∧ resonator_of (IncrementAll 2 st 3) 1
    = resonator_step 3 (resonator_of st 1)
  ∧ energy (IncrementAll 2 st 3) 0
    = resonator_energy (resonator_step 3 (resonator_of st 0)).
Proof.
  intros st.
  destruct (IncrementAll_steps_resonators 2 st 3) as (_ & Hstep & _).
  - apply Rotators_shape_Forall;
      [by apply shape2_Forall; repeat constructor|done|done|simpl; lia|].
    constructor; [|constructor].
    by apply shape2_Forall; repeat constructor.
  - destruct (Hstep 0%nat ltac:(lia)) as (H0 & _ & _ & _ & He).
    destruct (Hstep 1%nat ltac:(lia)) as (H1 & _).
    split; [exact H0|]. split; [exact H1|exact He].
Defined.


(** ** The frames of [FilterAndDownsample] *)

(** [FilterAndDownsample] on an image of [F] frames: how it ends and what
    it leaves in every frame. *)
Lemma FilterAndDownsample_frames N F d q r fresh und signal st
    (channels : array2) :
  (∀ o k, k ≠ 0%nat → (k < N)%nat → fresh o Up k = Some (und o k)) →
  (0 < d)%nat →
  (Z.of_nat (length signal) + Z.of_nat d < 2 ^ 63)%Z →
  (Z.of_nat F < 2 ^ 64)%Z →
  shape2 F N channels → (0 < F)%nat →
  length signal = (q * d + r)%nat → (r < d)%nat →
  ∃ st' (channels' : array2),
    FilterAndDownsample N fresh signal (Z.of_nat d) st channels
    = (if bool_decide (S q < F ∧ r ≠ 0)%nat
       then Aborted st' channels' else Returned st' channels')
    ∧ shape2 F N channels'
    ∧ ∀ j, (j < F)%nat →
        channels' !!! j
        = if bool_decide (j * d < length signal)%nat
          then window_frame N und d st signal j
          else channels !!! j.
Proof.
  intros Hfresh Hd Hsize HF Hch HF0 Hwin Hr.
  rewrite (FilterAndDownsample_decimate N F d fresh und signal) by done.
  destruct (decimate_frames N F d q r und st signal Hd Hwin Hr F 0 channels
              Hch eq_refl) as (st' & channels' & Hrun & Hch' & Hrows).
  exists st', channels'.
  change (drop (0 * d) signal) with signal in Hrun.
  change (state_after N d st signal (0 * d)) with st in Hrun.
  rewrite Hrun.
  split; [|split; [done|]].
  - repeat case_bool_decide; (done || lia).
  - intros j Hj. rewrite (Hrows j Hj).
    repeat case_bool_decide; (done || lia).
Qed.

(** C7.  Every frame that [FilterAndDownsample] writes is the masked
    loudness, at the scale [1 / downsampling], of the per-channel sums of
    the energies after each sample of its window: of all [downsampling]
    samples when the window lies within the input, and of the samples that
    are left when the input ends inside it.  [FinalizeDb] is what turns the
    sums into the frame. *)
Theorem FilterAndDownsample_sums_energies N F d fresh und signal st
    (channels : array2) :
  (∀ o k, k ≠ 0%nat → (k < N)%nat → fresh o Up k = Some (und o k)) →
  (0 < d)%nat →
  (Z.of_nat (length signal) + Z.of_nat d < 2 ^ 63)%Z →
  (Z.of_nat F < 2 ^ 64)%Z →
  shape2 F N channels → (0 < F)%nat →
  ∃ st' (channels' : array2),
    (FilterAndDownsample N fresh signal (Z.of_nat d) st channels
     = Returned st' channels'
     ∨ FilterAndDownsample N fresh signal (Z.of_nat d) st channels
       = Aborted st' channels')
    ∧ (∀ j, (j < F)%nat → ((j + 1) * d <= length signal)%nat →
         channels' !!! j
         = masked_frame N (und j) (1 / INR d)
             ((λ k, foldr Rplus 0
                      ((λ n, energy (state_after N d st signal (S n)) k)
                       <$> seq (j * d) d))
              <$> seq 0 N))
    ∧ (∀ j, (j < F)%nat → (j * d < length signal)%nat →
         channels' !!! j
         = masked_frame N (und j) (1 / INR d)
             (energy_sum N d st signal (j * d)
                         (d `min` (length signal - j * d))
              <$> seq 0 N))
    ∧ (∀ j (sums : list R), (j < F)%nat → length sums = N →
         FinalizeDb N (fresh j) (<[j := sums]> channels)
                    (scaling_for_downsampling (Z.of_nat d)) j
         = Some (<[j := masked_frame N (und j) (1 / INR d) sums]> channels)).
Proof.
  intros Hfresh Hd Hsize HF Hch HF0.
  destruct (FilterAndDownsample_frames N F d (length signal / d)
              (length signal `mod` d) fresh und signal st channels)
    as (st' & channels' & Hrun & _ & Hrows); try done.
  { rewrite Nat.mul_comm. apply Nat.div_mod_eq. }
  { apply Nat.mod_upper_bound. lia. }
  exists st', channels'. split; [|split; [|split]].
  - rewrite Hrun. case_bool_decide; [by right|by left].
  - intros j Hj Hfull. rewrite (Hrows j Hj).
    rewrite bool_decide_eq_true_2 by lia. unfold window_frame.
    by replace (d `min` (length signal - j * d))%nat with d by lia.
  - intros j Hj Hin. rewrite (Hrows j Hj).
    by rewrite bool_decide_eq_true_2 by lia.
  - intros j sums Hj Hsums.
    assert (length channels = F) as Hlen by apply Hch.
    rewrite (FinalizeDb_masked_frame N (fresh j) (und j));
      [|by apply Hfresh|rewrite length_insert; lia
       |rewrite list_lookup_total_insert_eq by lia; done].
    rewrite list_lookup_total_insert_eq by lia.
    by rewrite insert_insert_row, scaling_for_downsampling_INR.
Qed.

Lemma shape2_1_1 : shape2 1 1 [[0]].
Proof.
  split; [done|]. intros [|r] row Hrow; [|done]. by injection Hrow as <-.
Qed.

Lemma FilterAndDownsample_sums_energies_witness :
  let st :=
    mkRotators [[0; 1]; [1; 0]; [3; 0]; [4; 2]] [0.5; 0.25] [5; 2]
               [[[1; 1]; [2; 1]; [3; 1]; [4; 1]; [5; 1]; [6; 1]]] [] in
  let signal := [1; 2; 3; 4] in
  ∃ st' (channels' : array2),
    (FilterAndDownsample 2 (λ _ _ _, Some 0) signal 2 st [[0; 0]; [0; 0]]
     = Returned st' channels'
     ∨ FilterAndDownsample 2 (λ _ _ _, Some 0) signal 2 st [[0; 0]; [0; 0]]
       = Aborted st' channels')
    ∧ channels' !!! 0%nat
      = masked_frame 2 (λ _, 0) (1 / INR 2)
          ((λ k, foldr Rplus 0
                   ((λ n, energy (state_after 2 2 st signal (S n)) k)
                    <$> seq 0 2))
           <$> seq 0 2)
    ∧ channels' !!! 1%nat
      = masked_frame 2 (λ _, 0) (1 / INR 2)
          ((λ k, foldr Rplus 0
                   ((λ n, energy (state_after 2 2 st signal (S n)) k)
                    <$> seq 2 2))
           <$> seq 0 2).
Proof.
  intros st signal.
  destruct (FilterAndDownsample_sums_energies 2 2 2 (λ _ _ _, Some 0)
              (λ _ _, 0) signal st [[0; 0]; [0; 0]])
    as (st' & channels' & Hrun & Hfull & _);
    [done|lia|reflexivity|reflexivity
    |by apply shape2_Forall; repeat constructor|lia|].
  exists st', channels'. split; [exact Hrun|].
  split; [apply (Hfull 0%nat); simpl; lia|apply (Hfull 1%nat); simpl; lia].
Defined.


(** When the input ends inside the window of the frame [q], after [r] of
    its samples, that frame is finalized from the sums over these [r]
    samples; and the call aborts exactly when the [q] frames completed
    before fall short of the expected [F] by more than one. *)
Lemma FilterAndDownsample_input_runs_out N F d q r fresh und signal st
    (channels : array2) :
  (∀ o k, k ≠ 0%nat → (k < N)%nat → fresh o Up k = Some (und o k)) →
  (0 < d)%nat →
  (Z.of_nat (length signal) + Z.of_nat d < 2 ^ 63)%Z →
  (Z.of_nat F < 2 ^ 64)%Z →
  shape2 F N channels →
  length signal = (q * d + r)%nat → (0 < r)%nat → (r < d)%nat →
  (q < F)%nat →
  ∃ st' (channels' : array2),
    FilterAndDownsample N fresh signal (Z.of_nat d) st channels
    = (if bool_decide (1 < F - q)%nat
       then Aborted st' channels' else Returned st' channels')
    ∧ channels' !!! q
      = masked_frame N (und q) (1 / INR d)
          ((λ k, foldr Rplus 0
                   ((λ n, energy (state_after N d st signal (S n)) k)
                    <$> seq (q * d) r))
           <$> seq 0 N).
Proof.
  intros Hfresh Hd Hsize HF Hch Hwin Hr0 Hr Hq.
  destruct (FilterAndDownsample_frames N F d q r fresh und signal st channels)
    as (st' & channels' & Hrun & _ & Hrows); try done; [lia|].
  exists st', channels'. split.
  - rewrite Hrun. repeat case_bool_decide; (done || lia).
  - rewrite (Hrows q Hq). rewrite bool_decide_eq_true_2 by lia.
    unfold window_frame.
    by replace (d `min` (length signal - q * d))%nat with r by lia.
Qed.

(** C4.  The check of the number of frames is made where the input ends
    inside a window, and there only.  On an input of one whole window of
    two samples and an image of three frames, the loop over the input
    ends after the frame [0] and the call returns: the frames [1] and [2]
    keep what they held and nothing aborts.  With one sample more, the
    input ends inside the window of the frame [1], the same two frames
    against three are found, and the call aborts. *)
Theorem FilterAndDownsample_frame_boundary_returns :
  let st :=
    mkRotators [[0]; [1]; [3]; [4]] [0.5] [5]
               [[[1]; [2]; [3]; [4]; [5]; [6]]] [] in
  (∃ st' (channels' : array2),
     FilterAndDownsample 1 (λ _ _ _, Some 0) [1; 2] 2 st [[7]; [8]; [9]]
     = Returned st' channels'
     ∧ length channels' = 3%nat
     ∧ channels' !!! 1%nat = [8] ∧ channels' !!! 2%nat = [9])
  ∧ (∃ st' (channels' : array2),
       FilterAndDownsample 1 (λ _ _ _, Some 0) [1; 2; 3] 2 st [[7]; [8]; [9]]
       = Aborted st' channels').
Proof.
  intros st. split.
  - destruct (FilterAndDownsample_frames 1 3 2 1 0 (λ _ _ _, Some 0)
                (λ _ _, 0) [1; 2] st [[7]; [8]; [9]])
      as (st' & channels' & Hrun & Hch & Hrows);
      [done|lia|reflexivity|reflexivity
      |by apply shape2_Forall; repeat constructor|lia|reflexivity|lia|].
    exists st', channels'.
    rewrite bool_decide_eq_false_2 in Hrun by lia.
    split; [exact Hrun|]. split; [apply Hch|].
    rewrite (Hrows 1%nat), (Hrows 2%nat) by lia.
    by rewrite !bool_decide_eq_false_2 by (simpl; lia).
  - destruct (FilterAndDownsample_frames 1 3 2 1 1 (λ _ _ _, Some 0)
                (λ _ _, 0) [1; 2; 3] st [[7]; [8]; [9]])
      as (st' & channels' & Hrun & _ & _);
      [done|lia|reflexivity|reflexivity
      |by apply shape2_Forall; repeat constructor|lia|reflexivity|lia|].
    exists st', channels'.
    by rewrite bool_decide_eq_true_2 in Hrun by lia.
Qed.


(** ** The [compare] tool *)

Section CompareProperties.
Variable lib_error : Type.
Variable Load : string → Audio + lib_error.
Variable Measure : list R → EnergyAndMaxAbsAmplitude.
Variable NormalizeAmplitude : R → list R → list R.
Variable Distance : Goohrli → list R → list R → R.
Variable NormalizedAudioDistance : Goohrli → Audio → Audio → R + lib_error.
Variable MOSFromZimtohrli : R → R.

Local Abbreviation body :=
  (per_channel_body Measure NormalizeAmplitude Distance MOSFromZimtohrli).
Local Abbreviation normalizedB := (normalized Measure NormalizeAmplitude).
Local Abbreviation calls_of := (channel_calls Measure NormalizeAmplitude).

Lemma per_channel_loop fl g (restA : list (list R)) :
  ∀ (doneA doneB restB : list (list R)) calls printed,
  length doneA = length doneB → length restA = length restB →
  fold_left (body fl g (doneA ++ restA))
            (seq (length doneA) (length restA))
            (doneB ++ restB, calls, printed)
  = (doneB ++ zip_with normalizedB restA restB,
     calls ++ mjoin (zip_with calls_of restA restB),
     printed
     ++ zip_with (λ a b, getMetric MOSFromZimtohrli fl
                           (Distance g a (normalizedB a b)))
                 restA restB).
Proof.
  induction restA as [|a restA IH];
    intros doneA doneB restB calls printed Hdone Hrest.
  - destruct restB; [|done]. simpl. by rewrite !app_nil_r.
  - destruct restB as [|b restB]; [done|].
    cbn [length seq fold_left]. unfold per_channel_body at 2.
    rewrite list_lookup_total_middle by done.
    rewrite Hdone. rewrite list_lookup_total_middle by done.
    rewrite insert_app_r_alt by lia.
    replace (length doneB - length doneB)%nat with 0%nat by lia.
    cbn [insert list_insert].
    rewrite list_lookup_total_middle by done.
    fold (normalizedB a b).
    replace (doneA ++ a :: restA) with ((doneA ++ [a]) ++ restA)
      by by rewrite <- app_assoc.
    replace (doneB ++ normalizedB a b :: restB)
      with ((doneB ++ [normalizedB a b]) ++ restB)
      by by rewrite <- app_assoc.
    replace (S (length doneB)) with (length (doneA ++ [a]))
      by (rewrite length_app; simpl; lia).
    rewrite IH; [|rewrite !length_app; simpl; lia|simpl in Hrest; lia].
    cbn [zip_with mjoin list_join]. unfold channel_calls at 2.
    rewrite <- !app_assoc. reflexivity.
Qed.

(** C5.  Signals that differ in sample rate or in the number of audio
    channels make [main] end in [log.Panic] before it calls anything of
    [goohrli]: nothing is measured, normalized, compared or printed, and
    the signals are as loaded. *)
Theorem main_rejects_mismatch fl signalA signalB :
  path_a fl ≠ ""%string → path_b fl ≠ ""%string →
  Load (path_a fl) = inl signalA → Load (path_b fl) = inl signalB →
  Rate signalA ≠ Rate signalB
  ∨ length (Samples signalA) ≠ length (Samples signalB) →
  ∃ err,
    main lib_error Load Measure NormalizeAmplitude Distance
         NormalizedAudioDistance MOSFromZimtohrli fl
    = mkRun lib_error (Panicked lib_error err) [] []
            (Some signalA) (Some signalB)
    ∧ (err = RateError lib_error (path_a fl) (Rate signalA)
                       (path_b fl) (Rate signalB)
       ∨ err = ChannelsError lib_error
                 (path_a fl) (length (Samples signalA))
                 (path_b fl) (length (Samples signalB))).
Proof.
  intros Ha Hb HA HB Hmismatch. unfold main.
  apply String.eqb_neq in Ha, Hb. rewrite Ha, Hb, HA, HB. simpl.
  destruct (decide (Rate signalA = Rate signalB)) as [Hrate|Hrate].
  - rewrite bool_decide_eq_true_2 by done. simpl.
    destruct Hmismatch as [?|Hlen]; [done|].
    apply Nat.eqb_neq in Hlen. rewrite Hlen. simpl.
    eexists. split; [done|by right].
  - rewrite bool_decide_eq_false_2 by done. simpl.
    eexists. split; [done|by left].
Qed.

End CompareProperties.

Lemma main_rejects_mismatch_witness :
  let Load := λ path : string,
    if String.eqb path "a" then inl (mkAudio 48000 [[2]])
    else inl (mkAudio 44100 [[1]]) : Audio + unit in
  ∃ err,
    main unit Load (λ _, mkMeasurement 0 0) (λ _ b, b)
         (λ _ _ _, 0) (λ _ _ _, inl 0) (λ d, d)
         (mkFlags "a" "b" true true 5)
    = mkRun unit (Panicked unit err) [] []
            (Some (mkAudio 48000 [[2]])) (Some (mkAudio 44100 [[1]])).
Proof.
  intros Load.
  destruct (main_rejects_mismatch unit Load
              (λ _, mkMeasurement 0 0) (λ _ b, b)
              (λ _ _ _, 0) (λ _ _ _, inl 0) (λ d, d)
              (mkFlags "a" "b" true true 5)
              (mkAudio 48000 [[2]]) (mkAudio 44100 [[1]]))
    as (err & Hrun & _); [done|done|reflexivity|reflexivity|left; simpl; lra|].
  by exists err.
Defined.


(** * Further properties of the code *)

(** ** [SimpleDb] on its own *)

Lemma SimpleDb_mono (e1 e2 : R) :
  - epsilon < e1 → e1 <= e2 → SimpleDb e1 <= SimpleDb e2.
Proof.
  intros He1 [Hlt| ->]; [|lra]. left. unfold SimpleDb.
  apply Rmult_lt_compat_l; [apply kMul_pos|].
  apply ln_increasing; lra.
Qed.

(** X1.  [SimpleDb] is monotone wherever its logarithm is defined, that
    is, above [- epsilon], and so on the energies, which are not
    negative: more energy is never less loudness. *)
Theorem SimpleDb_monotone (e1 e2 : R) :
  - epsilon < e1 → e1 <= e2 → SimpleDb e1 <= SimpleDb e2.
Proof. apply SimpleDb_mono. Qed.

Lemma SimpleDb_monotone_witness : SimpleDb 0 <= SimpleDb 1.
Proof. apply SimpleDb_monotone; pose proof epsilon_pos; lra. Defined.

Lemma kMul_ln_10 : kMul * ln 10 = 10.
Proof.
  unfold kMul, Rdiv. pose proof ln_10_pos.
  rewrite Rmult_assoc, Rinv_l by lra. lra.
Qed.

(** X2.  [SimpleDb] is a decibel scale of [energy + epsilon]: ten times
    as much of it is [10] more. *)
Theorem SimpleDb_decade (e : R) :
  - epsilon < e → SimpleDb (10 * (e + epsilon) - epsilon) = SimpleDb e + 10.
Proof.
  intros He. unfold SimpleDb.
  replace (10 * (e + epsilon) - epsilon + epsilon) with (10 * (e + epsilon))
    by lra.
  rewrite ln_mult by lra. rewrite Rmult_plus_distr_l, kMul_ln_10. lra.
Qed.

Lemma SimpleDb_decade_witness :
  SimpleDb (10 * (0 + epsilon) - epsilon) = SimpleDb 0 + 10.
Proof. apply SimpleDb_decade. pose proof epsilon_pos; lra. Defined.

Lemma exp_INR (n : nat) : exp (INR n) = exp 1 ^ n.
Proof.
  induction n as [|n IH]; [simpl; apply exp_0|].
  rewrite S_INR, exp_plus, IH. simpl. ring.
Qed.

Lemma exp_1_ge_2 : 2 <= exp 1.
Proof. pose proof (exp_ineq1 1). lra. Qed.

(** [epsilon] is [1.0033294789821357e-09 * exp 75.27901963526045], which
    is above [1]. *)
Lemma epsilon_ge_1 : 1 <= epsilon.
Proof.
  unfold epsilon, exp_full_scale_sine_db, full_scale_sine_db.
  assert (2 ^ 30 <= exp 75.27901963526045) as Hexp.
  { apply Rle_trans with (exp (INR 30)).
    - rewrite exp_INR. apply pow_incr. pose proof exp_1_ge_2. lra.
    - left. apply exp_increasing. simpl. lra. }
  assert (2 ^ 30 = 1073741824) as H30 by (simpl; lra).
  rewrite H30 in Hexp. nra.
Qed.

Lemma SimpleDb_energy_nonneg (mul e : R) :
  0 <= mul → 0 <= e →
  0 <= SimpleDb (mul * e) ∧ clamp (SimpleDb (mul * e)) = SimpleDb (mul * e).
Proof.
  intros Hmul He.
  assert (0 <= SimpleDb (mul * e)) as Hpos.
  { unfold SimpleDb. apply Rmult_le_pos; [left; apply kMul_pos|].
    rewrite <- ln_1. pose proof epsilon_ge_1.
    assert (0 <= mul * e) by nra.
    destruct (Req_dec (mul * e + epsilon) 1) as [->|Hne]; [lra|].
    left. apply ln_increasing; lra. }
  split; [done|]. unfold clamp, min_limit. apply Rmax_right. lra.
Qed.

(** X3.  On an energy, which is not negative, at a scale that is not
    negative, [SimpleDb] is not negative, because [epsilon] is above [1]:
    the test [v < min_limit] of [FinalizeDb] is then false, and the clamp
    to [min_limit] leaves the value as it is. *)
Theorem SimpleDb_nonneg_on_energies (mul e : R) :
  0 <= mul → 0 <= e →
  0 <= SimpleDb (mul * e)
  ∧ ¬ SimpleDb (mul * e) < min_limit
  ∧ (if Rlt_dec (SimpleDb (mul * e)) min_limit then min_limit
     else SimpleDb (mul * e)) = SimpleDb (mul * e).
Proof.
  intros Hmul He.
  destruct (SimpleDb_energy_nonneg mul e Hmul He) as [Hpos _].
  assert (min_limit < 0) as Hmin by (unfold min_limit; lra).
  split; [done|]. split; [lra|].
  destruct (Rlt_dec _ _); [lra|done].
Qed.

Lemma SimpleDb_nonneg_on_energies_witness : 0 <= SimpleDb (1 * 0).
Proof. apply SimpleDb_nonneg_on_energies; lra. Defined.

(** ** [FinalizeDb] on its own *)

Lemma for_each_ext {St : Type} (body body' : St → nat → option St)
    (ks : list nat) :
  (∀ s k, k ∈ ks → body s k = body' s k) →
  ∀ s, for_each body ks s = for_each body' ks s.
Proof.
  induction ks as [|k ks IH]; intros Hext s; [done|]. simpl.
  rewrite (Hext s k) by left.
  destruct (body' s k) as [s'|]; [|done]. simpl.
  apply IH. intros s0 k0 Hk0. apply Hext. by right.
Qed.

(** X4.  Of the storage of the uninitialized [v2], [FinalizeDb] uses only
    what the first loop finds at the channels [1] to [kNumRotators - 1]:
    at the channel [0] the value is assigned before its use, and the [v2]
    of the second loop is never used.  Two contents of the storage that
    agree there give the same result, defined or not. *)
Theorem FinalizeDb_storage_read N fresh fresh' (channels : array2) mul out_ix :
  (∀ k, k ≠ 0%nat → (k < N)%nat → fresh Up k = fresh' Up k) →
  FinalizeDb N fresh channels mul out_ix
  = FinalizeDb N fresh' channels mul out_ix.
Proof.
  intros Hfresh. unfold FinalizeDb.
  rewrite (for_each_ext (up_body N fresh mul out_ix)
                        (up_body N fresh' mul out_ix)).
  - destruct (for_each (up_body N fresh' mul out_ix) _ _) as [[ch m]|];
      [|done].
    simpl. rewrite (for_each_ext (down_body N fresh out_ix)
                                 (down_body N fresh' out_ix)); [done|].
    by intros [ch' m'] k _.
  - intros [ch m] k Hk. apply elem_of_seq in Hk.
    destruct k as [|k]; [done|].
    unfold up_body. rewrite (Hfresh (S k)) by lia. done.
Qed.

Lemma FinalizeDb_storage_read_witness :
  FinalizeDb 2 (λ p k, match p with Up => Some 1 | Down => None end)
             [[4; 5]] 1 0
  = FinalizeDb 2 (λ p k, match p, k with Up, S _ => Some 1 | _, _ => Some 7 end)
               [[4; 5]] 1 0.
Proof. apply FinalizeDb_storage_read. intros [|k] Hk _; [done|done]. Defined.

Lemma Forall2_Rle_trans (xs ys zs : list R) :
  Forall2 Rle xs ys → Forall2 Rle ys zs → Forall2 Rle xs zs.
Proof.
  intros Hxy. revert zs.
  induction Hxy as [|x y xs ys Hx _ IH]; intros zs Hyz;
    inversion Hyz; subst; constructor; [lra|by apply IH].
Qed.

Lemma masked_frame_ge_loudness N und mul (es : list R) :
  Forall2 Rle (loudness mul es) (masked_frame N und mul es).
Proof.
  eapply Forall2_Rle_trans; [apply spread_up_ge|apply masked_frame_above_up].
Qed.



Lemma Rmax_mono (a a' b b' : R) : a <= a' → b <= b' → Rmax a b <= Rmax a' b'.
Proof. intros Ha Hb. unfold Rmax. repeat destruct (Rle_dec _ _); lra. Qed.

Lemma blend_mono (s m m' v v' : R) :
  0 <= s <= 1 → m <= m' → v <= v' → blend s m v <= blend s m' v'.
Proof.
  intros Hs Hm Hv. unfold blend.
  destruct (Rlt_dec v m), (Rlt_dec v' m'); nra.
Qed.

Lemma spread_up_mono N und (vs vs' : list R) :
  Forall2 Rle vs vs' →
  ∀ k m m', m <= m' →
  Forall2 Rle (spread_up N und k m vs) (spread_up N und k m' vs').
Proof.
  induction 1 as [|v v' vs vs' Hv _ IH]; intros k m m' Hm; [constructor|].
  simpl.
  assert ((if (k =? 0)%nat then v else (1 - up_blur) * und k + up_blur * v)
          <= (if (k =? 0)%nat then v'
              else (1 - up_blur) * und k + up_blur * v')) as Hv2.
  { destruct (k =? 0)%nat; [done|]. unfold up_blur. lra. }
  pose proof (Rmax_mono _ _ _ _ Hm Hv2) as Hmax.
  constructor.
  - apply blend_mono; [apply maskingStrengthUp_range| |done].
    unfold fraction_up. lra.
  - apply IH. lra.
Qed.

Lemma spread_down_mono N (vs vs' : list R) :
  Forall2 Rle vs vs' →
  ∀ m m', m <= m' →
  Forall2 Rle (spread_down N m vs) (spread_down N m' vs').
Proof.
  induction 1 as [|v v' vs vs' Hv _ IH]; intros m m' Hm; [constructor|].
  simpl. pose proof (Rmax_mono _ _ _ _ Hm Hv) as Hmax.
  constructor.
  - apply blend_mono; [apply maskingStrengthDown_range| |done].
    unfold fraction_down. lra.
  - apply IH. lra.
Qed.

Lemma loudness_mono mul (es es' : list R) :
  0 <= mul → Forall (Rle 0) es → Forall2 Rle es es' →
  Forall2 Rle (loudness mul es) (loudness mul es').
Proof.
  intros Hmul Hpos Hle. unfold loudness.
  induction Hle as [|e e' es es' He _ IH]; [constructor|].
  apply Forall_cons in Hpos as [Hpe Hpos]. simpl.
  constructor; [|by apply IH].
  apply Rmax_mono; [lra|]. pose proof epsilon_pos.
  apply SimpleDb_mono; nra.
Qed.

Lemma masked_frame_mono N und mul (es es' : list R) :
  0 <= mul → Forall (Rle 0) es → Forall2 Rle es es' →
  Forall2 Rle (masked_frame N und mul es) (masked_frame N und mul es').
Proof.
  intros Hmul Hpos Hle. unfold masked_frame.
  apply Forall2_reverse, spread_down_mono; [|lra].
  apply Forall2_reverse, spread_up_mono; [|lra].
  by apply loudness_mono.
Qed.

(** X6.  [FinalizeDb] is monotone in the energies: of two frames of
    energies, the second of them at least the first in every channel,
    the second is at least the first in every channel after [FinalizeDb]
    too (same scale, same content of the storage of [v2]). *)
Theorem FinalizeDb_monotone N fresh und (channels channels' : array2)
    mul out_ix :
  (∀ k, k ≠ 0%nat → (k < N)%nat → fresh Up k = Some (und k)) →
  (out_ix < length channels)%nat →
  (out_ix < length channels')%nat →
  length (channels !!! out_ix) = N →
  0 <= mul →
  Forall (Rle 0) (channels !!! out_ix) →
  Forall2 Rle (channels !!! out_ix) (channels' !!! out_ix) →
  ∃ out out' : array2,
    FinalizeDb N fresh channels mul out_ix = Some out
    ∧ FinalizeDb N fresh channels' mul out_ix = Some out'
    ∧ Forall2 Rle (out !!! out_ix) (out' !!! out_ix).
Proof.
  intros Hfresh Ho Ho' Hrow Hmul Hpos Hle.
  assert (length (channels' !!! out_ix) = N) as Hrow'.
  { by rewrite <- (Forall2_length _ _ _ Hle). }
  eexists _, _.
  split; [by apply (FinalizeDb_masked_frame N fresh und)|].
  split; [by apply (FinalizeDb_masked_frame N fresh und)|].
  rewrite !list_lookup_total_insert_eq by done.
  by apply masked_frame_mono.
Qed.

Lemma FinalizeDb_monotone_witness :
  ∃ out out' : array2,
    FinalizeDb 2 (λ _ _, Some 0) [[4; 5]] 1 0 = Some out
    ∧ FinalizeDb 2 (λ _ _, Some 0) [[4; 6]] 1 0 = Some out'
    ∧ Forall2 Rle (out !!! 0%nat) (out' !!! 0%nat).
Proof.
  apply (FinalizeDb_monotone 2 _ (λ _, 0)); simpl;
    [done|lia|lia|done|lra|..].
  - repeat constructor; lra.
  - repeat constructor; lra.
Defined.

(** ** [CalculateBandwidth] and the constructor *)

Lemma CalculateBandwidth_nonneg (low mid high : R) :
  0 <= CalculateBandwidth low mid high.
Proof.
  unfold CalculateBandwidth. cbv zeta.
  pose proof (Rabs_pos (sqrt (mid * high) - mid)).
  pose proof (Rabs_pos (mid - sqrt (low * mid))). lra.
Qed.

(** X7.  For frequencies in ascending order, [CalculateBandwidth] is the
    distance between the geometric means of [mid] with its two
    neighbours, and it does not depend on the order of [low] and [high].
    With the same neighbour on both sides, as the constructor calls it
    for the first and for the last rotator, it is twice the distance from
    [mid] to the geometric mean: [2 * (sqrt (mid * high) - mid)] with
    the neighbour [high] above (the first rotator) and
    [2 * (mid - sqrt (low * mid))] with the neighbour [low] below (the
    last). *)
Theorem CalculateBandwidth_geometric (low mid high : R) :
  0 <= low → low <= mid → mid <= high →
  CalculateBandwidth low mid high = sqrt (mid * high) - sqrt (low * mid)
  ∧ CalculateBandwidth high mid low = CalculateBandwidth low mid high
  ∧ CalculateBandwidth high mid high = 2 * (sqrt (mid * high) - mid)
  ∧ CalculateBandwidth low mid low = 2 * (mid - sqrt (low * mid)).
Proof.
  intros Hlow Hmid Hhigh.
  assert (sqrt (low * mid) <= mid) as Hl.
  { rewrite <- (sqrt_square mid) at 2 by lra. apply sqrt_le_1; nra. }
  assert (mid <= sqrt (mid * high)) as Hh.
  { rewrite <- (sqrt_square mid) at 1 by lra. apply sqrt_le_1; nra. }
  unfold CalculateBandwidth. cbv zeta.
  rewrite (Rmult_comm high mid), (Rmult_comm mid low).
  rewrite (Rabs_minus_sym mid (sqrt (mid * high))).
  rewrite (Rabs_minus_sym mid (sqrt (low * mid))).
  rewrite (Rabs_right (sqrt (mid * high) - mid)) by lra.
  rewrite (Rabs_left1 (sqrt (low * mid) - mid)) by lra.
  lra.
Qed.

Lemma CalculateBandwidth_geometric_witness :
  CalculateBandwidth 1 4 9 = sqrt (4 * 9) - sqrt (1 * 4)
  ∧ CalculateBandwidth 9 4 1 = CalculateBandwidth 1 4 9
  ∧ CalculateBandwidth 9 4 9 = 2 * (sqrt (4 * 9) - 4)
  ∧ CalculateBandwidth 1 4 1 = 2 * (4 - sqrt (1 * 4)).
Proof. apply CalculateBandwidth_geometric; lra. Defined.

Lemma ln_kWindow_neg : ln kWindow < 0.
Proof. rewrite <- ln_1. apply ln_increasing; unfold kWindow; lra. Qed.

Lemma Rpower_kWindow_range (x : R) : 0 <= x → 0 < Rpower kWindow x <= 1.
Proof.
  intros Hx. unfold Rpower. split; [apply exp_pos|].
  pose proof ln_kWindow_neg as Hln.
  destruct (Req_dec x 0) as [->|Hne].
  - rewrite Rmult_0_l, exp_0. lra.
  - rewrite <- exp_0. left. apply exp_increasing. nra.
Qed.

(** X8.  For two rotators or more and frequencies that are not negative,
    one per rotator, the window coefficient that the constructor gives a
    rotator is [kWindow] to the power of its bandwidth times
    [kBandwidthMagic], where the bandwidth is not negative: a decay
    factor between [0] and [1]. *)
Theorem Rotators_new_window N num_channels frequency filter_gains
    sample_rate i :
  (0 < num_channels)%nat → (i < N)%nat →
  (2 <= N)%nat → length frequency = N → Forall (Rle 0) frequency →
  let st := Rotators_new N num_channels frequency filter_gains sample_rate in
  let bw :=
    CalculateBandwidth
      (if (i =? 0)%nat then frequency !!! 1%nat else frequency !!! (i - 1)%nat)
      (frequency !!! i)
      (if (i + 1 =? N)%nat then frequency !!! (i - 1)%nat
       else frequency !!! (i + 1)%nat) in
  length (window st) = N
  ∧ 0 <= bw
  ∧ window st !!! i = Rpower kWindow (bw * kBandwidthMagic)
  ∧ 0 <= window st !!! i <= 1.
Proof.
  intros Hnc Hi _ _ _ st bw.
  destruct (Rotators_new_resonator N num_channels frequency filter_gains
              sample_rate i Hnc Hi) as [Hshape Hres].
  fold st in Hshape, Hres. clearbody st.
  apply (f_equal coefficient) in Hres.
  unfold resonator_of, new_resonator in Hres. cbn [coefficient] in Hres.
  fold bw in Hres.
  assert (0 <= bw) as Hbw by apply CalculateBandwidth_nonneg.
  assert (0 <= bw * kBandwidthMagic) as Hpos
    by (unfold kBandwidthMagic; nra).
  split; [apply Hshape|]. split; [done|]. split; [done|]. rewrite Hres.
  destruct (Rpower_kWindow_range _ Hpos). lra.
Qed.

Lemma Rotators_new_window_witness :
  let st := Rotators_new 3 1 [100; 200; 400] [1; 1; 1] 48000 in
  length (window st) = 3%nat
  ∧ 0 <= CalculateBandwidth 100 200 400
  ∧ window st !!! 1%nat
    = Rpower kWindow (CalculateBandwidth 100 200 400 * kBandwidthMagic)
  ∧ 0 <= window st !!! 1%nat <= 1.
Proof.
  apply (Rotators_new_window 3 1 [100; 200; 400] [1; 1; 1] 48000 1);
    [lia|lia|lia|done|repeat constructor; lra].
Defined.

Lemma Rotators_body_gain N frequency filter_gains sample_rate st i :
  Rotators_shape N st → (i < N)%nat →
  gain (Rotators_body N frequency filter_gains sample_rate st i) !!! i
  = get2 (rot (Rotators_body N frequency filter_gains sample_rate st i)) 2 i
  ∧ ∀ j, j ≠ i →
      gain (Rotators_body N frequency filter_gains sample_rate st i) !!! j
      = gain st !!! j.
Proof.
  intros Hst Hi.
  destruct (Rotators_body_resonator N frequency filter_gains sample_rate st i
              Hst Hi) as (_ & Hres & _).
  apply (f_equal (λ r, (phasor r).1)) in Hres.
  unfold resonator_of, new_resonator in Hres. cbn [phasor fst] in Hres.
  rewrite Hres. clear Hres.
  unfold Rotators_body. cbn [gain set_rot set_gain set_window window].
  assert (i < length (window st))%nat as Hw
    by (destruct Hst as (_ & -> & _); done).
  assert (i < length (gain st))%nat as Hg
    by (destruct Hst as (_ & _ & -> & _); done).
  split.
  - rewrite !list_lookup_total_insert_eq by done.
    replace 2.0 with 2 by lra. replace 1.0 with 1 by lra. reflexivity.
  - intros j Hj. by rewrite list_lookup_total_insert_ne.
Qed.

Lemma Rotators_new_gain N num_channels frequency filter_gains sample_rate i :
  (0 < num_channels)%nat → (i < N)%nat →
  let st := Rotators_new N num_channels frequency filter_gains sample_rate in
  gain st !!! i = get2 (rot st) 2 i.
Proof.
  intros Hnc Hi. cbv zeta. unfold Rotators_new. cbv zeta.
  set (st0 := mkRotators (replicate 4 _) _ _ _ []).
  pose proof (Rotators_shape_zeros N num_channels Hnc) as Hst0.
  cbv zeta in Hst0. fold st0 in Hst0.
  cbn [gain rot].
  destruct (fold_left_column
              (Rotators_body N frequency filter_gains sample_rate)
              (Rotators_shape N)
              (λ s, gain s !!! i - get2 (rot s) 2 i)
              (λ _, 0) N i) with (s := st0)
    as [_ Hview]; [| | |exact Hst0|exact Hi|].
  - intros s j Hs Hj.
    by destruct (Rotators_body_resonator N frequency filter_gains
                   sample_rate s j Hs Hj) as (? & _).
  - intros s j Hs Hj Hne.
    destruct (Rotators_body_resonator N frequency filter_gains
                sample_rate s j Hs Hj) as (_ & _ & Hframe).
    destruct (Rotators_body_gain N frequency filter_gains sample_rate s j
                Hs Hj) as [_ Hg].
    rewrite (Hg i) by done.
    pose proof (f_equal (λ r, (phasor r).1) (Hframe i ltac:(done))) as Hph.
    unfold resonator_of in Hph. cbn [phasor fst] in Hph.
    by rewrite Hph.
  - intros s Hs _.
    destruct (Rotators_body_gain N frequency filter_gains sample_rate s i
                Hs Hi) as [-> _]. lra.
  - cbv beta in Hview. lra.
Qed.

(** X9.  The bank that the constructor makes: its arrays have their
    declared sizes, it keeps the frequencies, every rotator has an
    increment [(cos f, - sin f)] on the unit circle and starts at
    [(gain[i], 0)], where the gain is [2 * sqrt (exp 75.27901963526045)]
    times the filter gain times the cube of [1 - window[i]]; and the
    cascade of the first audio channel is at rest, so that its energy is
    [0]. *)
Theorem Rotators_new_rotators N num_channels frequency filter_gains
    sample_rate i :
  (0 < num_channels)%nat → (i < N)%nat →
  let st := Rotators_new N num_channels frequency filter_gains sample_rate in
  let f := frequency !!! i * 2 * PI / sample_rate in
  Rotators_shape N st
  ∧ rotator_frequency st = frequency
  ∧ length (channel st) = num_channels
  ∧ get2 (rot st) 0 i = cos f
  ∧ get2 (rot st) 1 i = - sin f
  ∧ get2 (rot st) 0 i * get2 (rot st) 0 i
    + get2 (rot st) 1 i * get2 (rot st) 1 i = 1
  ∧ get2 (rot st) 2 i = gain st !!! i
  ∧ gain st !!! i
    = 2 * sqrt (exp 75.27901963526045) * filter_gains !!! i
      * (1 - window st !!! i) ^ 3
  ∧ get2 (rot st) 3 i = 0
  ∧ (∀ r, (r < 6)%nat → accu st 0 r i = 0)
  ∧ energy st i = 0.
Proof.
  intros Hnc Hi st f.
  destruct (Rotators_new_resonator N num_channels frequency filter_gains
              sample_rate i Hnc Hi) as [Hshape Hres].
  pose proof (Rotators_new_gain N num_channels frequency filter_gains
                sample_rate i Hnc Hi) as Hgain.
  cbv zeta in Hgain. fold st in Hshape, Hres, Hgain.
  assert (rotator_frequency st = frequency) as Hfreq by done.
  assert (length (channel st) = num_channels) as Hchan.
  { subst st. unfold Rotators_new. cbn [channel].
    rewrite (fold_left_preserved _ (λ s, length (channel s))); [|done].
    cbn [channel]. by rewrite length_replicate. }
  clearbody st.
  pose proof (f_equal increment Hres) as Hinc.
  pose proof (f_equal phasor Hres) as Hph.
  pose proof (f_equal coefficient Hres) as Hw.
  pose proof (f_equal stages Hres) as Hst.
  unfold resonator_of, new_resonator in Hinc, Hph, Hw, Hst.
  cbn [increment phasor coefficient stages] in Hinc, Hph, Hw, Hst.
  fold f in Hinc.
  injection Hinc as H0 H1. injection Hph as H2 H3.
  assert (∀ r, (r < 6)%nat → accu st 0 r i = 0) as Hacc.
  { intros r Hr.
    pose proof (f_equal (λ l, l !!! r) Hst) as Hr'. cbv beta in Hr'.
    rewrite lookup_total_replicate_2 in Hr' by done. rewrite <- Hr'.
    symmetry. apply list_lookup_total_correct.
    by rewrite list_lookup_fmap, lookup_seq_lt. }
  split; [done|]. split; [done|]. split; [done|].
  split; [done|]. split; [done|].
  split. { rewrite H0, H1. pose proof (sin2_cos2 f) as Hsc.
           unfold Rsqr in Hsc. lra. }
  split; [done|].
  split. { rewrite Hgain, H2, Hw. done. }
  split; [done|]. split; [done|].
  unfold energy. rewrite !Hacc by lia. lra.
Qed.

Lemma Rotators_new_rotators_witness :
  let st := Rotators_new 2 1 [1; 2] [1; 1] 48000 in
  get2 (rot st) 0 0 * get2 (rot st) 0 0
  + get2 (rot st) 1 0 * get2 (rot st) 1 0 = 1.
Proof. apply (Rotators_new_rotators 2 1 [1; 2] [1; 1] 48000 0); lia. Defined.


(** ** What the rotators keep *)

Lemma IncrementAll_body_gain x st i :
  gain (IncrementAll_body x st i) = gain st
  ∧ window (IncrementAll_body x st i) = window st.
Proof. done. Qed.

Lemma IncrementAll_gain N st x :
  gain (IncrementAll N st x) = gain st
  ∧ window (IncrementAll N st x) = window st.
Proof.
  unfold IncrementAll. split.
  - by apply (fold_left_preserved _ gain).
  - by apply (fold_left_preserved _ window).
Qed.

Lemma OccasionallyRenormalize_gain N st :
  gain (OccasionallyRenormalize N st) = gain st
  ∧ window (OccasionallyRenormalize N st) = window st
  ∧ channel (OccasionallyRenormalize N st) = channel st.
Proof.
  unfold OccasionallyRenormalize. split; [|split].
  - by apply (fold_left_preserved _ gain).
  - by apply (fold_left_preserved _ window).
  - by apply (fold_left_preserved _ channel).
Qed.

Lemma cmul_magnitude (a b : R * R) :
  (cmul a b).1 * (cmul a b).1 + (cmul a b).2 * (cmul a b).2
  = (a.1 * a.1 + a.2 * a.2) * (b.1 * b.1 + b.2 * b.2).
Proof. destruct a, b. unfold cmul. simpl. ring. Qed.

Lemma renormalize_magnitude (g : R) (r : resonator) :
  (phasor r).1 * (phasor r).1 + (phasor r).2 * (phasor r).2 ≠ 0 →
  let p := phasor (renormalize g r) in
  p.1 * p.1 + p.2 * p.2 = g * g.
Proof.
  intros Hne. unfold renormalize. cbn [phasor fst snd].
  set (n := (phasor r).1 * (phasor r).1 + (phasor r).2 * (phasor r).2) in *.
  assert (0 < n) as Hn by (subst n; nra).
  pose proof (sqrt_lt_R0 n Hn) as Hpos.
  pose proof (sqrt_sqrt n ltac:(lra)) as Hsq.
  transitivity (n * (g / sqrt n) * (g / sqrt n)); [subst n; ring|].
  rewrite <- Hsq at 1. field. lra.
Qed.

Lemma renormalize_fixed (g : R) (r : resonator) :
  0 < g →
  (phasor r).1 * (phasor r).1 + (phasor r).2 * (phasor r).2 = g * g →
  renormalize g r = r.
Proof.
  intros Hg Hmag. unfold renormalize. rewrite Hmag, sqrt_square by lra.
  destruct r as [inc [p1 p2] w ss]. cbn [phasor increment coefficient stages
    fst snd].
  f_equal. f_equal; field; lra.
Qed.

Lemma IncrementAll_rotator N st x i :
  Rotators_shape N st → (i < N)%nat →
  get2 (rot st) 0 i * get2 (rot st) 0 i
  + get2 (rot st) 1 i * get2 (rot st) 1 i = 1 →
  let st' := IncrementAll N st x in
  get2 (rot st') 2 i * get2 (rot st') 2 i
  + get2 (rot st') 3 i * get2 (rot st') 3 i
  = get2 (rot st) 2 i * get2 (rot st) 2 i
    + get2 (rot st) 3 i * get2 (rot st) 3 i
  ∧ get2 (rot st') 0 i = get2 (rot st) 0 i
  ∧ get2 (rot st') 1 i = get2 (rot st) 1 i
  ∧ gain st' = gain st
  ∧ window st' = window st.
Proof.
  intros Hst Hi Hunit st'.
  destruct (IncrementAll_resonator N st x i Hst Hi) as [_ Hres].
  fold st' in Hres.
  pose proof (f_equal phasor Hres) as Hph.
  pose proof (f_equal increment Hres) as Hinc.
  unfold resonator_of, resonator_step in Hph, Hinc.
  cbn [phasor increment] in Hph, Hinc.
  pose proof (cmul_magnitude (get2 (rot st) 0 i, get2 (rot st) 1 i)
                (get2 (rot st) 2 i, get2 (rot st) 3 i)) as Hmag.
  rewrite <- Hph in Hmag. cbn [fst snd] in Hmag.
  injection Hinc as H0 H1.
  destruct (IncrementAll_gain N st x) as [Hg Hw]. fold st' in Hg, Hw.
  split; [rewrite Hmag, Hunit; lra|done].
Qed.

(** A bank of one rotator and one audio channel, at rest. *)
Lemma Rotators_shape_1 (c s r2 r3 w g : R) :
  Rotators_shape 1
    (mkRotators [[c]; [s]; [r2]; [r3]] [w] [g] [replicate 6 [0]] []).
Proof.
  split; [by apply shape2_Forall; repeat constructor|].
  split; [done|]. split; [done|]. split; [simpl; lia|].
  intros [|k] a Ha; [|done]. injection Ha as <-.
  by apply shape2_Forall; repeat constructor.
Qed.

(** X10.  [IncrementAll] turns every rotator by its increment: when the
    increment lies on the unit circle, the squared magnitude
    [rot[2][i]^2 + rot[3][i]^2] of the rotator is what it was.  The
    increments, the gains and the window coefficients are not written. *)
Theorem IncrementAll_keeps_magnitude N st x i :
  Rotators_shape N st → (i < N)%nat →
  get2 (rot st) 0 i * get2 (rot st) 0 i
  + get2 (rot st) 1 i * get2 (rot st) 1 i = 1 →
  let st' := IncrementAll N st x in
  get2 (rot st') 2 i * get2 (rot st') 2 i
  + get2 (rot st') 3 i * get2 (rot st') 3 i
  = get2 (rot st) 2 i * get2 (rot st) 2 i
    + get2 (rot st) 3 i * get2 (rot st) 3 i
  ∧ get2 (rot st') 0 i = get2 (rot st) 0 i
  ∧ get2 (rot st') 1 i = get2 (rot st) 1 i
  ∧ gain st' = gain st
  ∧ window st' = window st.
Proof. apply IncrementAll_rotator. Qed.

Lemma IncrementAll_keeps_magnitude_witness :
  let st := mkRotators [[0]; [1]; [3]; [4]] [0.5] [5] [replicate 6 [0]] [] in
  let st' := IncrementAll 1 st 2 in
  get2 (rot st') 2 0 * get2 (rot st') 2 0
  + get2 (rot st') 3 0 * get2 (rot st') 3 0
  = get2 (rot st) 2 0 * get2 (rot st) 2 0
    + get2 (rot st) 3 0 * get2 (rot st) 3 0.
Proof.
  intros st.
  apply (IncrementAll_keeps_magnitude 1 st 2 0);
    [apply Rotators_shape_1|lia|].
  unfold st, get2. simpl. lra.
Defined.

Lemma OccasionallyRenormalize_rotator N st i :
  Rotators_shape N st → (i < N)%nat →
  get2 (rot st) 2 i * get2 (rot st) 2 i
  + get2 (rot st) 3 i * get2 (rot st) 3 i ≠ 0 →
  let st' := OccasionallyRenormalize N st in
  get2 (rot st') 2 i * get2 (rot st') 2 i
  + get2 (rot st') 3 i * get2 (rot st') 3 i
  = gain st !!! i * gain st !!! i
  ∧ get2 (rot st') 0 i = get2 (rot st) 0 i
  ∧ get2 (rot st') 1 i = get2 (rot st) 1 i
  ∧ gain st' = gain st
  ∧ window st' = window st
  ∧ channel st' = channel st.
Proof.
  intros Hst Hi Hne st'.
  destruct (OccasionallyRenormalize_resonator N st i Hst Hi) as [_ Hres].
  fold st' in Hres.
  pose proof (renormalize_magnitude (gain st !!! i) (resonator_of st i) Hne)
    as Hmag.
  cbv zeta in Hmag. rewrite <- Hres in Hmag.
  pose proof (f_equal increment Hres) as Hinc.
  unfold resonator_of, renormalize in Hinc. cbn [increment] in Hinc.
  injection Hinc as H0 H1.
  destruct (OccasionallyRenormalize_gain N st) as (Hg & Hw & Hc).
  by repeat split.
Qed.

(** X11.  [OccasionallyRenormalize] brings a rotator that is not [(0, 0)]
    to the magnitude of its gain: afterwards
    [rot[2][i]^2 + rot[3][i]^2 = gain[i]^2].  It writes nothing but the
    rows [2] and [3] of [rot]: increments, gains, window coefficients and
    accumulators are as before. *)
Theorem OccasionallyRenormalize_magnitude N st i :
  Rotators_shape N st → (i < N)%nat →
  get2 (rot st) 2 i * get2 (rot st) 2 i
  + get2 (rot st) 3 i * get2 (rot st) 3 i ≠ 0 →
  let st' := OccasionallyRenormalize N st in
  get2 (rot st') 2 i * get2 (rot st') 2 i
  + get2 (rot st') 3 i * get2 (rot st') 3 i
  = gain st !!! i * gain st !!! i
  ∧ get2 (rot st') 0 i = get2 (rot st) 0 i
  ∧ get2 (rot st') 1 i = get2 (rot st) 1 i
  ∧ gain st' = gain st
  ∧ window st' = window st
  ∧ channel st' = channel st.
Proof. apply OccasionallyRenormalize_rotator. Qed.

Lemma OccasionallyRenormalize_magnitude_witness :
  let st := mkRotators [[0]; [1]; [3]; [4]] [0.5] [7] [replicate 6 [0]] [] in
  let st' := OccasionallyRenormalize 1 st in
  get2 (rot st') 2 0 * get2 (rot st') 2 0
  + get2 (rot st') 3 0 * get2 (rot st') 3 0
  = gain st !!! 0%nat * gain st !!! 0%nat.
Proof.
  intros st.
  apply (OccasionallyRenormalize_magnitude 1 st 0);
    [apply Rotators_shape_1|lia|].
  unfold st, get2. simpl. lra.
Defined.

(** X12.  On a rotator that already has the magnitude of its gain, a
    positive one, [OccasionallyRenormalize] changes nothing: in exact
    arithmetic it only removes what rounding has added. *)
Theorem OccasionallyRenormalize_fixed N st i :
  Rotators_shape N st → (i < N)%nat →
  0 < gain st !!! i →
  get2 (rot st) 2 i * get2 (rot st) 2 i
  + get2 (rot st) 3 i * get2 (rot st) 3 i
  = gain st !!! i * gain st !!! i →
  let st' := OccasionallyRenormalize N st in
  get2 (rot st') 2 i = get2 (rot st) 2 i
  ∧ get2 (rot st') 3 i = get2 (rot st) 3 i.
Proof.
  intros Hst Hi Hg Hmag st'.
  destruct (OccasionallyRenormalize_resonator N st i Hst Hi) as [_ Hres].
  fold st' in Hres.
  rewrite renormalize_fixed in Hres by done.
  apply (f_equal phasor) in Hres.
  unfold resonator_of in Hres. cbn [phasor] in Hres.
  by injection Hres as H2 H3.
Qed.

Lemma OccasionallyRenormalize_fixed_witness :
  let st := mkRotators [[0]; [1]; [3]; [4]] [0.5] [5] [replicate 6 [0]] [] in
  let st' := OccasionallyRenormalize 1 st in
  get2 (rot st') 2 0 = get2 (rot st) 2 0
  ∧ get2 (rot st') 3 0 = get2 (rot st) 3 0.
Proof.
  intros st.
  apply (OccasionallyRenormalize_fixed 1 st 0);
    [apply Rotators_shape_1|lia|unfold st; simpl; lra|].
  unfold st, get2. simpl. lra.
Defined.

(** The invariant of a running bank, for the rotator [i]. *)
Lemma state_after_invariant N d st0 signal i :
  Rotators_shape N st0 → (i < N)%nat →
  get2 (rot st0) 0 i * get2 (rot st0) 0 i
  + get2 (rot st0) 1 i * get2 (rot st0) 1 i = 1 →
  get2 (rot st0) 2 i * get2 (rot st0) 2 i
  + get2 (rot st0) 3 i * get2 (rot st0) 3 i ≠ 0 →
  gain st0 !!! i ≠ 0 →
  ∀ n, let st := state_after N d st0 signal n in
  Rotators_shape N st
  ∧ gain st = gain st0
  ∧ window st = window st0
  ∧ get2 (rot st) 0 i = get2 (rot st0) 0 i
  ∧ get2 (rot st) 1 i = get2 (rot st0) 1 i
  ∧ get2 (rot st) 2 i * get2 (rot st) 2 i
    + get2 (rot st) 3 i * get2 (rot st) 3 i ≠ 0
  ∧ ((1 <= n)%nat →
     get2 (rot st) 2 i * get2 (rot st) 2 i
     + get2 (rot st) 3 i * get2 (rot st) 3 i
     = gain st0 !!! i * gain st0 !!! i).
Proof.
  intros Hst0 Hi Hunit Hne Hg n. cbv zeta.
  induction n as [|n IH].
  - simpl. do 5 (split; [done|]). split; [done|lia].
  - destruct IH as (Hst & Hgain & Hwin & H0 & H1 & Hnz & Hmag).
    cbn [state_after].
    set (st := state_after N d st0 signal n) in *.
    set (st1 := if (n mod d =? 0)%nat then OccasionallyRenormalize N st
                else st).
    assert (Rotators_shape N st1
            ∧ gain st1 = gain st0 ∧ window st1 = window st0
            ∧ get2 (rot st1) 0 i = get2 (rot st0) 0 i
            ∧ get2 (rot st1) 1 i = get2 (rot st0) 1 i
            ∧ get2 (rot st1) 2 i * get2 (rot st1) 2 i
              + get2 (rot st1) 3 i * get2 (rot st1) 3 i
              = gain st0 !!! i * gain st0 !!! i)
      as (Hst1 & Hgain1 & Hwin1 & H01 & H11 & Hmag1).
    { subst st1. destruct (Nat.eqb_spec (n mod d) 0) as [Hz|Hnz'].
      - destruct (OccasionallyRenormalize_rotator N st i Hst Hi Hnz)
          as (Hm & Ha & Hb & Hc & Hd & _).
        destruct (OccasionallyRenormalize_resonator N st i Hst Hi)
          as [Hs _].
        rewrite Hgain in Hm.
        do 5 (split; [congruence|]). exact Hm.
      - assert (1 <= n)%nat as Hn.
        { destruct n; [|lia]. by rewrite Nat.Div0.mod_0_l in Hnz'. }
        do 5 (split; [done|]). by apply Hmag. }
    clearbody st1.
    assert (get2 (rot st1) 0 i * get2 (rot st1) 0 i
            + get2 (rot st1) 1 i * get2 (rot st1) 1 i = 1) as Hunit1
      by (by rewrite H01, H11).
    destruct (IncrementAll_rotator N st1 (signal !!! n) i Hst1 Hi
                Hunit1) as (Hm & Ha & Hb & Hc & Hd).
    destruct (IncrementAll_resonator N st1 (signal !!! n) i Hst1 Hi)
      as [Hs _].
    assert (gain st0 !!! i * gain st0 !!! i ≠ 0) as Hgg.
    { intros Hz. apply Rmult_integral in Hz. tauto. }
    do 5 (split; [congruence|]). split; [congruence|].
    intros _. congruence.
Qed.

(** ** The bank after [FilterAndDownsample] *)

Lemma decimate_state N F d und st0 (signal : list R) (left : nat) :
  (0 < d)%nat →
  ∀ (o : nat) (channels : array2),
  (o + left = F)%nat →
  let n := ((o * d) `max` ((F * d) `min` length signal))%nat in
  ∃ channels' : array2,
    decimate N und d left o (state_after N d st0 signal (o * d))
             (drop (o * d) signal) channels
    = Returned (state_after N d st0 signal n) channels'
    ∨ decimate N und d left o (state_after N d st0 signal (o * d))
               (drop (o * d) signal) channels
      = Aborted (state_after N d st0 signal n) channels'.
Proof.
  intros d_pos.
  induction left as [|left IH]; intros o channels HoF n.
  - exists channels. left.
    replace n with (o * d)%nat by (subst n; nia).
    by destruct (drop _ _).
  - destruct (decide (length signal <= o * d)%nat) as [Hout|Hin].
    + exists channels. left.
      replace n with (o * d)%nat by (subst n; nia).
      by rewrite drop_ge, decimate_nil.
    + rewrite decimate_more.
      2:{ intros Hnil. apply (f_equal length) in Hnil.
          rewrite length_drop in Hnil. simpl in Hnil. lia. }
      rewrite (frame_sums_state_after N d st0 signal d_pos o) by lia.
      set (m := (d `min` (length signal - o * d))%nat).
      set (channels1 := <[o := _]> channels).
      rewrite length_drop.
      destruct (Nat.ltb_spec (length signal - o * d) d) as [Hcut|Hfull].
      * exists channels1.
        replace n with (o * d + m)%nat by (subst n m; nia).
        destruct (Nat.eqb_spec left 0); [by left|by right].
      * assert (m = d) as Hm by (subst m; lia).
        destruct (Nat.eqb_spec left 0) as [Hlast|Hmore].
        { exists channels1. left.
          replace n with (o * d + m)%nat by (subst n; nia). done. }
        rewrite Hm, drop_drop.
        replace (o * d + d)%nat with (S o * d)%nat by lia.
        destruct (IH (S o) channels1) as (channels' & Hrun); [lia|].
        exists channels'.
        replace n with ((S o * d) `max` ((F * d) `min` length signal))%nat
          by (subst n; nia).
        exact Hrun.
Qed.

(** X13.  The bank after [FilterAndDownsample] is the bank after the
    first [min (F * d) (length signal)] samples, [F] the number of
    frames and [d] the downsampling, renormalized at the start of every
    frame: input beyond the last frame is not consumed, and whether the
    call returns or aborts the bank holds every sample that was read. *)
Theorem FilterAndDownsample_final_state N F d fresh und signal st
    (channels : array2) :
  (∀ o k, k ≠ 0%nat → (k < N)%nat → fresh o Up k = Some (und o k)) →
  (0 < d)%nat →
  (Z.of_nat (length signal) + Z.of_nat d < 2 ^ 63)%Z →
  (Z.of_nat F < 2 ^ 64)%Z →
  shape2 F N channels → (0 < F)%nat →
  let n := ((F * d) `min` length signal)%nat in
  ∃ channels' : array2,
    FilterAndDownsample N fresh signal (Z.of_nat d) st channels
    = Returned (state_after N d st signal n) channels'
    ∨ FilterAndDownsample N fresh signal (Z.of_nat d) st channels
      = Aborted (state_after N d st signal n) channels'.
Proof.
  intros Hfresh Hd Hsize HF Hch HF0 n.
  rewrite (FilterAndDownsample_decimate N F d fresh und signal) by done.
  destruct (decimate_state N F d und st signal F Hd 0 channels eq_refl)
    as (channels' & Hrun).
  exists channels'. exact Hrun.
Qed.

Lemma FilterAndDownsample_final_state_witness :
  let st :=
    mkRotators [[0]; [1]; [3]; [4]] [0.5] [5]
               [[[1]; [2]; [3]; [4]; [5]; [6]]] [] in
  let signal := [1; 2; 3; 4; 5] in
  ∃ channels' : array2,
    FilterAndDownsample 1 (λ _ _ _, Some 0) signal 2 st [[0]; [0]]
    = Returned (state_after 1 2 st signal 4) channels'
    ∨ FilterAndDownsample 1 (λ _ _ _, Some 0) signal 2 st [[0]; [0]]
      = Aborted (state_after 1 2 st signal 4) channels'.
Proof.
  intros st signal.
  apply (FilterAndDownsample_final_state 1 2 2 (λ _ _ _, Some 0) (λ _ _, 0)
           signal st [[0]; [0]]);
    [done|lia|reflexivity|reflexivity
    |by apply shape2_Forall; repeat constructor|lia].
Defined.

(** X14.  An input that ends on a frame boundary, after [q] whole
    windows, makes [FilterAndDownsample] return, never abort, however
    many frames the image expects: the frames below [q] are written as
    for any full window, and the frames from [q] on keep what they
    held. *)
Theorem FilterAndDownsample_whole_frames N F d q fresh und signal st
    (channels : array2) :
  (∀ o k, k ≠ 0%nat → (k < N)%nat → fresh o Up k = Some (und o k)) →
  (0 < d)%nat →
  (Z.of_nat (length signal) + Z.of_nat d < 2 ^ 63)%Z →
  (Z.of_nat F < 2 ^ 64)%Z →
  shape2 F N channels → (0 < F)%nat →
  length signal = (q * d)%nat →
  ∃ st' (channels' : array2),
    FilterAndDownsample N fresh signal (Z.of_nat d) st channels
    = Returned st' channels'
    ∧ shape2 F N channels'
    ∧ (∀ j, (j < F)%nat → (j < q)%nat →
         channels' !!! j = window_frame N und d st signal j)
    ∧ (∀ j, (j < F)%nat → (q <= j)%nat → channels' !!! j = channels !!! j).
Proof.
  intros Hfresh Hd Hsize HF Hch HF0 Hlen.
  destruct (FilterAndDownsample_frames N F d q 0 fresh und signal st channels)
    as (st' & channels' & Hrun & Hch' & Hrows); [done..|lia|done|].
  exists st', channels'.
  rewrite bool_decide_eq_false_2 in Hrun by lia.
  split; [done|]. split; [done|]. split.
  - intros j Hj Hjq. rewrite (Hrows j Hj).
    by rewrite bool_decide_eq_true_2 by nia.
  - intros j Hj Hjq. rewrite (Hrows j Hj).
    by rewrite bool_decide_eq_false_2 by nia.
Qed.

Lemma FilterAndDownsample_whole_frames_witness :
  let st :=
    mkRotators [[0]; [1]; [3]; [4]] [0.5] [5]
               [[[1]; [2]; [3]; [4]; [5]; [6]]] [] in
  ∃ st' (channels' : array2),
    FilterAndDownsample 1 (λ _ _ _, Some 0) [1; 2] 2 st [[7]; [8]; [9]]
    = Returned st' channels'
    ∧ shape2 3 1 channels'
    ∧ (∀ j, (j < 3)%nat → (j < 1)%nat →
         channels' !!! j = window_frame 1 (λ _ _, 0) 2 st [1; 2] j)
    ∧ (∀ j, (j < 3)%nat → (1 <= j)%nat →
         channels' !!! j = [[7]; [8]; [9]] !!! j).
Proof.
  intros st.
  apply (FilterAndDownsample_whole_frames 1 3 2 1 (λ _ _ _, Some 0)
           (λ _ _, 0) [1; 2] st [[7]; [8]; [9]]);
    [done|lia|reflexivity|reflexivity
    |by apply shape2_Forall; repeat constructor|lia|reflexivity].
Defined.

(** X15.  [FilterAndDownsample] ends, whatever its arguments: the outer
    loop runs at most once per frame of [channels], also when
    [downsampling] is zero or negative and [ii] does not advance. *)
Theorem FilterAndDownsample_terminates N fresh signal downsampling st
    (channels : array2) :
  FilterAndDownsample N fresh signal downsampling st channels ≠ OutOfFuel.
Proof. apply FilterAndDownsample_ends. Qed.

(** ** The values of the frames *)

Lemma energy_nonneg st k : 0 <= energy st k.
Proof. unfold energy. nra. Qed.

Lemma energy_sum_nonneg N d st signal from count k :
  0 <= energy_sum N d st signal from count k.
Proof.
  unfold energy_sum. revert from.
  induction count as [|count IH]; intros from;
    cbn [seq fmap list_fmap foldr]; [lra|].
  pose proof (energy_nonneg (state_after N d st signal (S from)) k).
  specialize (IH (S from)). lra.
Qed.

Lemma loudness_nonneg mul (es : list R) :
  0 <= mul → Forall (Rle 0) es → Forall (Rle 0) (loudness mul es).
Proof.
  intros Hmul Hes. unfold loudness. apply Forall_fmap.
  eapply Forall_impl; [exact Hes|]. intros e He. simpl.
  by destruct (SimpleDb_energy_nonneg mul e Hmul He) as [Hpos ->].
Qed.

Lemma window_frame_nonneg N und d st signal j :
  Forall (Rle 0) (window_frame N und d st signal j).
Proof.
  unfold window_frame.
  eapply Forall2_Rle_floor; [apply masked_frame_ge_loudness|].
  apply loudness_nonneg.
  - unfold Rdiv. rewrite Rmult_1_l.
    destruct d as [|d]; [simpl; rewrite Rinv_0; lra|].
    left. apply Rinv_0_lt_compat, lt_0_INR. lia.
  - apply Forall_fmap, Forall_forall. intros k _. apply energy_sum_nonneg.
Qed.

Lemma length_window_frame N und d st signal j :
  length (window_frame N und d st signal j) = N.
Proof.
  unfold window_frame. by rewrite length_masked_frame, length_fmap, length_seq.
Qed.

(** X16.  On a bank whose increments lie on the unit circle and whose
    rotators and gains are not zero, so that every renormalization
    divides by a number that is not zero, every value that
    [FilterAndDownsample] writes into a frame is at least [0], and thus
    above the floor [min_limit]: the energies are sums of squares,
    [epsilon] is above [1], and masking only raises. *)
Theorem FilterAndDownsample_frames_nonneg N F d fresh und signal st
    (channels : array2) :
  (∀ o k, k ≠ 0%nat → (k < N)%nat → fresh o Up k = Some (und o k)) →
  (0 < d)%nat →
  (Z.of_nat (length signal) + Z.of_nat d < 2 ^ 63)%Z →
  (Z.of_nat F < 2 ^ 64)%Z →
  shape2 F N channels → (0 < F)%nat →
  Rotators_shape N st →
  (∀ i, (i < N)%nat →
     get2 (rot st) 0 i * get2 (rot st) 0 i
     + get2 (rot st) 1 i * get2 (rot st) 1 i = 1
     ∧ get2 (rot st) 2 i * get2 (rot st) 2 i
       + get2 (rot st) 3 i * get2 (rot st) 3 i ≠ 0
     ∧ gain st !!! i ≠ 0) →
  ∃ st' (channels' : array2),
    (FilterAndDownsample N fresh signal (Z.of_nat d) st channels
     = Returned st' channels'
     ∨ FilterAndDownsample N fresh signal (Z.of_nat d) st channels
       = Aborted st' channels')
    ∧ ∀ j k, (j < F)%nat → (j * d < length signal)%nat → (k < N)%nat →
        0 <= get2 channels' j k ∧ min_limit < get2 channels' j k.
Proof.
  intros Hfresh Hd Hsize HF Hch HF0 _ _.
  pose proof (Nat.div_mod_eq (length signal) d) as Hdiv.
  pose proof (Nat.mod_upper_bound (length signal) d ltac:(lia)) as Hmod.
  destruct (FilterAndDownsample_frames N F d (length signal / d)
              (length signal mod d) fresh und signal st channels)
    as (st' & channels' & Hrun & Hch' & Hrows); [done..|lia|done|].
  exists st', channels'. split.
  { case_bool_decide; [by right|by left]. }
  intros j k Hj Hjd Hk. unfold get2. rewrite (Hrows j Hj).
  rewrite bool_decide_eq_true_2 by done.
  pose proof (window_frame_nonneg N und d st signal j) as Hpos.
  assert (is_Some (window_frame N und d st signal j !! k)) as [v Hv].
  { apply lookup_lt_is_Some. by rewrite length_window_frame. }
  rewrite (list_lookup_total_correct _ _ _ Hv).
  pose proof (Forall_lookup_1 _ _ _ _ Hpos Hv) as Hv0. simpl in Hv0.
  unfold min_limit. split; lra.
Qed.

Lemma FilterAndDownsample_frames_nonneg_witness :
  let st :=
    mkRotators [[0; 1]; [1; 0]; [3; 0]; [4; 2]] [0.5; 0.25] [5; 2]
               [[[1; 1]; [2; 1]; [3; 1]; [4; 1]; [5; 1]; [6; 1]]] [] in
  let signal := [1; 2; 3] in
  ∃ st' (channels' : array2),
    (FilterAndDownsample 2 (λ _ _ _, Some 0) signal 2 st [[0; 0]; [0; 0]]
     = Returned st' channels'
     ∨ FilterAndDownsample 2 (λ _ _ _, Some 0) signal 2 st [[0; 0]; [0; 0]]
       = Aborted st' channels')
    ∧ ∀ j k, (j < 2)%nat → (j * 2 < length signal)%nat → (k < 2)%nat →
        0 <= get2 channels' j k ∧ min_limit < get2 channels' j k.
Proof.
  intros st signal.
  apply (FilterAndDownsample_frames_nonneg 2 2 2 (λ _ _ _, Some 0)
           (λ _ _, 0) signal st [[0; 0]; [0; 0]]);
    [done|lia|reflexivity|reflexivity
    |by apply shape2_Forall; repeat constructor|lia|..].
  - apply Rotators_shape_Forall;
      [by apply shape2_Forall; repeat constructor|done|done|simpl; lia|].
    constructor; [|constructor].
    by apply shape2_Forall; repeat constructor.
  - intros i Hi. destruct i as [|[|i]]; [| |lia];
      unfold st, get2; simpl; repeat split; lra.
Defined.

(** X17.  [FilterAndDownsample] keeps the rotators in shape.  Started on
    a bank whose increments lie on the unit circle and whose rotator [i]
    and gain [i] are not zero, it leaves, on an input that is not empty,
    a bank with the same increments, gains and window coefficients and
    with [rot[2][i]^2 + rot[3][i]^2 = gain[i]^2]. *)
Theorem FilterAndDownsample_keeps_rotators N F d fresh und signal st
    (channels : array2) i :
  (∀ o k, k ≠ 0%nat → (k < N)%nat → fresh o Up k = Some (und o k)) →
  (0 < d)%nat →
  (Z.of_nat (length signal) + Z.of_nat d < 2 ^ 63)%Z →
  (Z.of_nat F < 2 ^ 64)%Z →
  shape2 F N channels → (0 < F)%nat →
  Rotators_shape N st → (i < N)%nat →
  get2 (rot st) 0 i * get2 (rot st) 0 i
  + get2 (rot st) 1 i * get2 (rot st) 1 i = 1 →
  get2 (rot st) 2 i * get2 (rot st) 2 i
  + get2 (rot st) 3 i * get2 (rot st) 3 i ≠ 0 →
  gain st !!! i ≠ 0 →
  signal ≠ [] →
  ∃ st' (channels' : array2),
    (FilterAndDownsample N fresh signal (Z.of_nat d) st channels
     = Returned st' channels'
     ∨ FilterAndDownsample N fresh signal (Z.of_nat d) st channels
       = Aborted st' channels')
    ∧ Rotators_shape N st'
    ∧ gain st' = gain st
    ∧ window st' = window st
    ∧ get2 (rot st') 0 i = get2 (rot st) 0 i
    ∧ get2 (rot st') 1 i = get2 (rot st) 1 i
    ∧ get2 (rot st') 2 i * get2 (rot st') 2 i
      + get2 (rot st') 3 i * get2 (rot st') 3 i
      = gain st !!! i * gain st !!! i.
Proof.
  intros Hfresh Hd Hsize HF Hch HF0 Hst Hi Hunit Hne Hg Hsig.
  set (n := ((0 * d) `max` ((F * d) `min` length signal))%nat).
  destruct (state_after_invariant N d st signal i Hst Hi Hunit Hne Hg n)
    as (Hst' & Hgain & Hwin & H0 & H1 & _ & Hmag).
  assert (1 <= n)%nat as Hn.
  { subst n. destruct signal; [done|]. simpl length. nia. }
  specialize (Hmag Hn).
  destruct (decimate_state N F d und st signal F Hd 0 channels eq_refl)
    as (channels' & Hrun).
  fold n in Hrun.
  rewrite <- (FilterAndDownsample_decimate N F d fresh und signal) in Hrun
    by done.
  exists (state_after N d st signal n), channels'.
  split; [exact Hrun|]. done.
Qed.

Lemma FilterAndDownsample_keeps_rotators_witness :
  let st := mkRotators [[0]; [1]; [3]; [4]] [0.5] [7] [replicate 6 [0]] [] in
  ∃ st' (channels' : array2),
    (FilterAndDownsample 1 (λ _ _ _, Some 0) [1] 1 st [[0]]
     = Returned st' channels'
     ∨ FilterAndDownsample 1 (λ _ _ _, Some 0) [1] 1 st [[0]]
       = Aborted st' channels')
    ∧ Rotators_shape 1 st'
    ∧ gain st' = gain st
    ∧ window st' = window st
    ∧ get2 (rot st') 0 0 = get2 (rot st) 0 0
    ∧ get2 (rot st') 1 0 = get2 (rot st) 1 0
    ∧ get2 (rot st') 2 0 * get2 (rot st') 2 0
      + get2 (rot st') 3 0 * get2 (rot st') 3 0
      = gain st !!! 0%nat * gain st !!! 0%nat.
Proof.
  intros st.
  apply (FilterAndDownsample_keeps_rotators 1 1 1 (λ _ _ _, Some 0)
           (λ _ _, 0) [1] st [[0]] 0);
    [done|lia|reflexivity|reflexivity|apply shape2_1_1|lia
    |apply Rotators_shape_1|lia|..].
  - unfold st, get2. simpl. lra.
  - unfold st, get2. simpl. lra.
  - unfold st. simpl. lra.
  - done.
Defined.

(** ** Scaling the input *)

Lemma lookup_total_scale (c : R) (l : list R) (k : nat) :
  (Rmult c <$> l) !!! k = c * l !!! k.
Proof.
  destruct (decide (k < length l)%nat) as [Hk|Hk].
  - destruct (lookup_lt_is_Some_2 l k Hk) as [x Hx].
    rewrite (list_lookup_total_correct _ _ _ Hx).
    apply list_lookup_total_correct. by rewrite list_lookup_fmap, Hx.
  - rewrite !list_lookup_total_alt.
    rewrite list_lookup_fmap, lookup_ge_None_2 by lia. simpl. lra.
Qed.

Lemma resonator_step_scale (c x : R) (r : resonator) :
  resonator_step (c * x) (scale_stages c r)
  = scale_stages c (resonator_step x r).
Proof.
  unfold resonator_step, scale_stages.
  cbn [increment phasor coefficient stages fmap list_fmap].
  rewrite !lookup_total_scale. f_equal.
  repeat (apply (f_equal2 cons); [ring|]). reflexivity.
Qed.

Lemma renormalize_scale (c g : R) (r : resonator) :
  renormalize g (scale_stages c r) = scale_stages c (renormalize g r).
Proof. done. Qed.

Lemma resonator_energy_scale (c : R) (r : resonator) :
  resonator_energy (scale_stages c r) = c * c * resonator_energy r.
Proof.
  unfold resonator_energy, scale_stages. cbn [stages].
  rewrite !lookup_total_scale. ring.
Qed.

Lemma state_after_scale N d st0 (signal : list R) (c : R) i :
  Rotators_shape N st0 → (i < N)%nat →
  (∀ r, (r < 6)%nat → accu st0 0 r i = 0) →
  ∀ n,
  Rotators_shape N (state_after N d st0 signal n)
  ∧ Rotators_shape N (state_after N d st0 (Rmult c <$> signal) n)
  ∧ gain (state_after N d st0 (Rmult c <$> signal) n)
    = gain (state_after N d st0 signal n)
  ∧ resonator_of (state_after N d st0 (Rmult c <$> signal) n) i
    = scale_stages c (resonator_of (state_after N d st0 signal n) i).
Proof.
  intros Hst0 Hi Hrest n. induction n as [|n IH].
  - cbn [state_after]. split; [done|]. split; [done|]. split; [done|].
    unfold scale_stages, resonator_of.
    cbn [increment phasor coefficient stages]. f_equal.
    cbn [fmap list_fmap seq]. rewrite !Hrest by lia.
    repeat (apply (f_equal2 cons); [lra|]). reflexivity.
  - destruct IH as (Hs & Hsc & Hg & Hres). cbn [state_after].
    set (s := state_after N d st0 signal n) in *.
    set (sc := state_after N d st0 (Rmult c <$> signal) n) in *.
    set (s1 := if (n mod d =? 0)%nat then OccasionallyRenormalize N s else s).
    set (sc1 := if (n mod d =? 0)%nat then OccasionallyRenormalize N sc
                else sc).
    assert (Rotators_shape N s1 ∧ Rotators_shape N sc1
            ∧ gain sc1 = gain s1
            ∧ resonator_of sc1 i = scale_stages c (resonator_of s1 i))
      as (Hs1 & Hsc1 & Hg1 & Hres1).
    { subst s1 sc1. destruct (n mod d =? 0)%nat; [|done].
      destruct (OccasionallyRenormalize_resonator N s i Hs Hi) as [? Hr].
      destruct (OccasionallyRenormalize_resonator N sc i Hsc Hi) as [? Hrc].
      destruct (OccasionallyRenormalize_gain N s) as (Hgs & _).
      destruct (OccasionallyRenormalize_gain N sc) as (Hgsc & _).
      split; [done|]. split; [done|]. split; [congruence|].
      by rewrite Hrc, Hr, Hres, Hg, renormalize_scale. }
    clearbody s1 sc1.
    rewrite lookup_total_scale.
    destruct (IncrementAll_resonator N s1 (signal !!! n) i Hs1 Hi) as [? Hr].
    destruct (IncrementAll_resonator N sc1 (c * signal !!! n) i Hsc1 Hi)
      as [? Hrc].
    destruct (IncrementAll_gain N s1 (signal !!! n)) as (Hgs & _).
    destruct (IncrementAll_gain N sc1 (c * signal !!! n)) as (Hgsc & _).
    split; [done|]. split; [done|]. split; [congruence|].
    by rewrite Hrc, Hr, Hres1, resonator_step_scale.
Qed.

Lemma energy_sum_scale N d st0 (signal : list R) (c : R) i from count :
  Rotators_shape N st0 → (i < N)%nat →
  (∀ r, (r < 6)%nat → accu st0 0 r i = 0) →
  energy_sum N d st0 (Rmult c <$> signal) from count i
  = c * c * energy_sum N d st0 signal from count i.
Proof.
  intros Hst0 Hi Hrest. unfold energy_sum. revert from.
  induction count as [|count IH]; intros from;
    cbn [seq fmap list_fmap foldr]; [lra|].
  rewrite (IH (S from)).
  destruct (state_after_scale N d st0 signal c i Hst0 Hi Hrest (S from))
    as (_ & _ & _ & Hres).
  rewrite !energy_resonator, Hres, resonator_energy_scale. ring.
Qed.

Lemma loudness_scale (mul c : R) (es : list R) :
  loudness mul (Rmult c <$> es) = loudness (c * mul) es.
Proof.
  unfold loudness. rewrite <- list_fmap_compose. apply list_fmap_ext.
  intros _ e _. simpl. do 2 f_equal. ring.
Qed.

(** X18.  The filterbank is linear and its energies quadratic: on the
    input scaled by [c], a bank whose accumulators are at rest yields
    the frames of the unscaled input at the scale [c * c / downsampling]
    in place of [1 / downsampling]. *)
Theorem FilterAndDownsample_scaled_input N F d fresh und signal st
    (channels : array2) (c : R) :
  (∀ o k, k ≠ 0%nat → (k < N)%nat → fresh o Up k = Some (und o k)) →
  (0 < d)%nat →
  (Z.of_nat (length signal) + Z.of_nat d < 2 ^ 63)%Z →
  (Z.of_nat F < 2 ^ 64)%Z →
  shape2 F N channels → (0 < F)%nat →
  Rotators_shape N st →
  (∀ r i, (r < 6)%nat → (i < N)%nat → accu st 0 r i = 0) →
  ∃ st' (channels' : array2),
    (FilterAndDownsample N fresh (Rmult c <$> signal) (Z.of_nat d) st channels
     = Returned st' channels'
     ∨ FilterAndDownsample N fresh (Rmult c <$> signal) (Z.of_nat d) st
                           channels
       = Aborted st' channels')
    ∧ ∀ j, (j < F)%nat → (j * d < length signal)%nat →
        channels' !!! j
        = masked_frame N (und j) (c * c * (1 / INR d))
            (energy_sum N d st signal (j * d)
                        (d `min` (length signal - j * d))
             <$> seq 0 N).
Proof.
  intros Hfresh Hd Hsize HF Hch HF0 Hst Hrest.
  pose proof (Nat.div_mod_eq (length signal) d) as Hdiv.
  pose proof (Nat.mod_upper_bound (length signal) d ltac:(lia)) as Hmod.
  destruct (FilterAndDownsample_frames N F d (length signal / d)
              (length signal mod d) fresh und (Rmult c <$> signal) st channels)
    as (st' & channels' & Hrun & Hch' & Hrows);
    [done|done|by rewrite length_fmap|done|done|done
    |rewrite length_fmap; lia|done|].
  exists st', channels'. split.
  { case_bool_decide; [by right|by left]. }
  intros j Hj Hjd. rewrite (Hrows j Hj).
  rewrite length_fmap, bool_decide_eq_true_2 by done.
  unfold window_frame, masked_frame. rewrite length_fmap.
  rewrite <- loudness_scale.
  assert (energy_sum N d st (Rmult c <$> signal) (j * d)
            (d `min` (length signal - j * d)) <$> seq 0 N
          = Rmult (c * c)
            <$> (energy_sum N d st signal (j * d)
                   (d `min` (length signal - j * d)) <$> seq 0 N)) as ->;
    [|done].
  rewrite <- list_fmap_compose. apply list_fmap_ext.
  intros i k Hk. apply lookup_seq in Hk as [-> Hk]. simpl.
  apply energy_sum_scale; [done|lia|]. intros r Hr. apply Hrest; [done|lia].
Qed.

Lemma FilterAndDownsample_scaled_input_witness :
  let st := mkRotators [[0]; [1]; [3]; [4]] [0.5] [5] [replicate 6 [0]] [] in
  let signal := [1; 2; 3; 4] in
  ∃ st' (channels' : array2),
    (FilterAndDownsample 1 (λ _ _ _, Some 0) (Rmult 3 <$> signal) 2 st
                         [[0]; [0]]
     = Returned st' channels'
     ∨ FilterAndDownsample 1 (λ _ _ _, Some 0) (Rmult 3 <$> signal) 2 st
                           [[0]; [0]]
       = Aborted st' channels')
    ∧ ∀ j, (j < 2)%nat → (j * 2 < length signal)%nat →
        channels' !!! j
        = masked_frame 1 (λ _, 0) (3 * 3 * (1 / INR 2))
            (energy_sum 1 2 st signal (j * 2)
                        (2 `min` (length signal - j * 2))
             <$> seq 0 1).
Proof.
  intros st signal.
  apply (FilterAndDownsample_scaled_input 1 2 2 (λ _ _ _, Some 0)
           (λ _ _, 0) signal st [[0]; [0]] 3);
    [done|lia|reflexivity|reflexivity
    |by apply shape2_Forall; repeat constructor|lia
    |apply Rotators_shape_1|].
  intros r i Hr Hi. assert (i = 0%nat) as -> by lia.
  do 6 (destruct r as [|r]; [reflexivity|]). lia.
Defined.

(** ** The search for the best threshold *)

Lemma int_small (z : Z) : (- 2 ^ 63 <= z < 2 ^ 63)%Z → int z = z.
Proof. intros Hz. unfold int. rewrite Z.mod_small; lia. Qed.

Lemma int_range (z : Z) : (- 2 ^ 63 <= int z < 2 ^ 63)%Z.
Proof.
  unfold int. pose proof (Z.mod_pos_bound (z + 2 ^ 63) (2 ^ 64)). lia.
Qed.

Lemma int_unique (z y k : Z) :
  (- 2 ^ 63 <= y < 2 ^ 63)%Z → (z = y + k * 2 ^ 64)%Z → int z = y.
Proof.
  intros Hy ->. unfold int.
  replace (y + k * 2 ^ 64 + 2 ^ 63)%Z with (y + 2 ^ 63 + k * 2 ^ 64)%Z by lia.
  rewrite Z_mod_plus_full, Z.mod_small; lia.
Qed.

Lemma int_wraps (z : Z) : ∃ k, (z = int z + k * 2 ^ 64)%Z.
Proof.
  exists ((z + 2 ^ 63) / 2 ^ 64)%Z. unfold int.
  pose proof (Z.div_mod (z + 2 ^ 63) (2 ^ 64)). lia.
Qed.

Lemma abs_gt_2 (i : Z) : (2 <? abs i)%Z = (2 <? i)%Z.
Proof. unfold abs. destruct (Z.ltb_spec i 0); [|done]. symmetry.
  apply Z.ltb_ge. lia. Qed.

Lemma quot_3_bounds (w : Z) :
  (2 < w)%Z → (1 <= w ÷ 3)%Z ∧ (3 * (w ÷ 3) <= w)%Z ∧ (w < 3 * (w ÷ 3) + 3)%Z.
Proof.
  intros Hw. rewrite Z.quot_div_nonneg by lia.
  pose proof (Z.div_mod w 3). pose proof (Z.mod_pos_bound w 3). lia.
Qed.

(** The width as the loop sees it after a turn that moves [left]; all
    of it in wrapping arithmetic. *)
Lemma width_left (left right : Z) :
  let w := int (right - left) in
  (2 < w)%Z →
  int (right - int (left + int (w ÷ 3))) = (w - w ÷ 3)%Z.
Proof.
  intros w Hw. pose proof (int_range (right - left)) as Hr. fold w in Hr.
  destruct (quot_3_bounds w Hw) as (H1 & H2 & H3).
  rewrite (int_small (w ÷ 3)) by lia.
  destruct (int_wraps (right - left)) as [k1 Hk1]. fold w in Hk1.
  destruct (int_wraps (left + w ÷ 3)) as [k2 Hk2].
  apply (int_unique _ _ (k1 + k2)); lia.
Qed.

Lemma width_right (left right : Z) :
  let w := int (right - left) in
  (2 < w)%Z →
  int (int (right - int (w ÷ 3)) - left) = (w - w ÷ 3)%Z.
Proof.
  intros w Hw. pose proof (int_range (right - left)) as Hr. fold w in Hr.
  destruct (quot_3_bounds w Hw) as (H1 & H2 & H3).
  rewrite (int_small (w ÷ 3)) by lia.
  destruct (int_wraps (right - left)) as [k1 Hk1]. fold w in Hk1.
  destruct (int_wraps (right - w ÷ 3)) as [k2 Hk2].
  apply (int_unique _ _ (k1 - k2)); lia.
Qed.

(** The width [right - left], as the loop sees it, shrinks in every turn. *)
Lemma ternarySearch_loop_ends (f : Z → option R) (fuel : nat) :
  ∀ left right,
  (int (right - left) <= Z.of_nat fuel)%Z →
  ternarySearch_loop (S fuel) f left right ≠ NoFuel.
Proof.
  induction fuel as [|fuel IH]; intros left right Hw;
    cbn [ternarySearch_loop]; rewrite abs_gt_2;
    destruct (Z.ltb_spec 2 (int (right - left))) as [Hlt|Hge]; try done;
    [lia|].
  destruct (quot_3_bounds _ Hlt) as (H1 & H2 & H3).
  destruct (f _) as [fl|]; [|done]. destruct (f _) as [fr|]; [|done].
  destruct (Rlt_dec fl fr).
  - apply IH. rewrite width_left by done. lia.
  - apply IH. rewrite width_right by done. lia.
Qed.

(** X19.  [ternarySearch] ends, whatever its arguments and also in
    wrapping arithmetic: the width that the loop tests shrinks in every
    turn.  And when that width is at most [2], as it is for
    [right < left], where [abs] returns [-1], the loop is not entered:
    the result is [(left + right) / 2] and [f] is not called. *)
Theorem ternarySearch_terminates (f : Z → option R) (left right : Z) :
  ternarySearch f left right ≠ NoFuel
  ∧ ((int (right - left) <= 2)%Z →
     ternarySearch f left right = Ok (int (int (left + right) ÷ 2))).
Proof.
  unfold ternarySearch. split.
  - apply ternarySearch_loop_ends. lia.
  - intros Hw. cbn [ternarySearch_loop]. rewrite abs_gt_2.
    by rewrite (proj2 (Z.ltb_ge 2 _)) by lia.
Qed.

(** ** The search within the range of [int] *)

Lemma midpoint_range (left right : Z) :
  (left <= right)%Z → (left <= (left + right) ÷ 2 <= right)%Z.
Proof. intros H. Z.quot_rem_to_equations. lia. Qed.

(** One turn of the loop when nothing wraps. *)
Lemma ternarySearch_loop_step (fuel : nat) (f : Z → option R) (left right : Z) :
  (- 2 ^ 62 <= left)%Z → (right < 2 ^ 62)%Z → (left <= right)%Z →
  ternarySearch_loop (S fuel) f left right
  = if (2 <? right - left)%Z then
      let third := ((right - left) / 3)%Z in
      match f (left + third)%Z with
      | None => Panic
      | Some fl =>
          match f (right - third)%Z with
          | None => Panic
          | Some fr =>
              if Rlt_dec fl fr
              then ternarySearch_loop fuel f (left + third)%Z right
              else ternarySearch_loop fuel f left (right - third)%Z
          end
      end
    else Ok ((left + right) ÷ 2)%Z.
Proof.
  intros Hl Hr Hlr. cbn [ternarySearch_loop]. rewrite abs_gt_2.
  rewrite (int_small (right - left)) by lia.
  destruct (Z.ltb_spec 2 (right - left)) as [Hw|Hw].
  - destruct (quot_3_bounds _ Hw) as (H1 & H2 & H3).
    rewrite <- (Z.quot_div_nonneg (right - left) 3) by lia.
    rewrite (int_small ((right - left) ÷ 3)) by lia.
    by rewrite !int_small by lia.
  - pose proof (midpoint_range left right Hlr).
    rewrite (int_small (left + right)) by lia.
    by rewrite int_small by lia.
Qed.

(** The induction that the properties of the search share: [P left right]
    is kept by every turn, whichever side [f] sends the search to. *)
Lemma ternarySearch_loop_invariant (f : Z → option R) (v : Z → R)
    (P : Z → Z → Prop) (fuel : nat) :
  (∀ left right,
     P left right → (2 < right - left)%Z →
     let third := ((right - left) / 3)%Z in
     (- 2 ^ 62 <= left)%Z ∧ (right < 2 ^ 62)%Z
     ∧ f (left + third)%Z = Some (v (left + third)%Z)
     ∧ f (right - third)%Z = Some (v (right - third)%Z)
     ∧ (v (left + third)%Z < v (right - third)%Z → P (left + third)%Z right)
     ∧ (¬ v (left + third)%Z < v (right - third)%Z →
        P left (right - third)%Z)) →
  ∀ left right,
  (- 2 ^ 62 <= left)%Z → (right < 2 ^ 62)%Z → (left <= right)%Z →
  P left right → (right - left <= Z.of_nat fuel)%Z →
  ∃ l r, P l r ∧ (left <= l)%Z ∧ (l <= r)%Z ∧ (r <= right)%Z
         ∧ (r - l <= 2)%Z
         ∧ ternarySearch_loop (S fuel) f left right = Ok ((l + r) ÷ 2)%Z.
Proof.
  intros Hstep.
  induction fuel as [|fuel IH]; intros left right Hl Hr Hlr HP Hw;
    rewrite ternarySearch_loop_step by done;
    destruct (Z.ltb_spec 2 (right - left)) as [Hlt|Hge]; [lia| | |].
  - exists left, right. repeat split; (done || lia).
  - destruct (Hstep left right HP Hlt) as (_ & _ & Hfl & Hfr & Hup & Hdown).
    destruct (quot_3_bounds _ Hlt) as (H1 & H2 & H3).
    rewrite Z.quot_div_nonneg in H1, H2, H3 by lia.
    cbv zeta. rewrite Hfl, Hfr.
    destruct (Rlt_dec _ _) as [Hcmp|Hcmp].
    + destruct (IH (left + (right - left) / 3)%Z right)
        as (l & r & HPlr & ? & ? & ? & ? & Hrun); [lia..|by apply Hup|lia|].
      exists l, r. repeat split; (done || lia).
    + destruct (IH left (right - (right - left) / 3)%Z)
        as (l & r & HPlr & ? & ? & ? & ? & Hrun); [lia..|by apply Hdown|lia|].
      exists l, r. repeat split; (done || lia).
  - exists left, right. repeat split; (done || lia).
Qed.

(** X20.  On bounds in ascending order, and an [f] that does not panic
    between them, [ternarySearch] returns an index between the bounds
    (which are taken within [-2^62] and [2^62], where nothing wraps). *)
Theorem ternarySearch_in_range (f : Z → option R) (left right : Z) :
  (- 2 ^ 62 <= left)%Z → (right < 2 ^ 62)%Z → (left <= right)%Z →
  (∀ z, (left <= z <= right)%Z → is_Some (f z)) →
  ∃ m, ternarySearch f left right = Ok m ∧ (left <= m <= right)%Z.
Proof.
  intros Hl Hr Hlr Hf. unfold ternarySearch.
  rewrite (int_small (right - left)) by lia.
  set (v := λ z, default 0 (f z)).
  destruct (ternarySearch_loop_invariant f v
              (λ l r, (left <= l)%Z ∧ (r <= right)%Z)
              (Z.to_nat (right - left))) with (left := left) (right := right)
    as (l & r & [Hl' Hr'] & ? & ? & ? & ? & Hrun); [|done..|lia|lia|].
  - intros l r [Hl' Hr'] Hw third.
    assert (1 <= third ∧ 3 * third <= r - l)%Z as [H1 H2].
    { destruct (quot_3_bounds _ Hw) as (H1 & H2 & H3).
      rewrite Z.quot_div_nonneg in H1, H2 by lia. done. }
    assert (∀ z, (left <= z <= right)%Z → f z = Some (v z)) as Hv.
    { intros z Hz. subst v. cbv beta. by destruct (Hf z Hz) as [x ->]. }
    split; [lia|]. split; [lia|].
    split; [apply Hv; lia|]. split; [apply Hv; lia|]. lia.
  - exists ((l + r) ÷ 2)%Z. split; [done|].
    pose proof (midpoint_range l r). lia.
Qed.

Lemma ternarySearch_in_range_witness :
  ∃ m, ternarySearch (λ z, Some (IZR z)) 0 9 = Ok m ∧ (0 <= m <= 9)%Z.
Proof. apply ternarySearch_in_range; [lia|lia|lia|]. intros z _. by eexists. Defined.

(** X21.  When [f] rises strictly up to an index [p] between the bounds
    and falls strictly after it, [ternarySearch] returns [p] or one of
    its two neighbours: the maximum stays between [left] and [right] in
    every turn, and the loop stops at a width of at most [2]. *)
Theorem ternarySearch_unimodal (f : Z → option R) (v : Z → R)
    (left right p : Z) :
  (- 2 ^ 62 <= left)%Z → (right < 2 ^ 62)%Z →
  (left <= p <= right)%Z →
  (∀ z, (left <= z <= right)%Z → f z = Some (v z)) →
  (∀ a b, (left <= a)%Z → (a < b)%Z → (b <= p)%Z → v a < v b) →
  (∀ a b, (p <= a)%Z → (a < b)%Z → (b <= right)%Z → v b < v a) →
  ∃ m, ternarySearch f left right = Ok m
       ∧ (left <= m <= right)%Z ∧ (p - 1 <= m <= p + 1)%Z.
Proof.
  intros Hl Hr Hp Hf Hup Hdown. unfold ternarySearch.
  rewrite (int_small (right - left)) by lia.
  destruct (ternarySearch_loop_invariant f v
              (λ l r, (left <= l)%Z ∧ (l <= p <= r)%Z ∧ (r <= right)%Z)
              (Z.to_nat (right - left))) with (left := left) (right := right)
    as (l & r & (Hl' & Hp' & Hr') & ? & ? & ? & ? & Hrun);
    [|done|done|lia|lia|lia|].
  - intros l r (Hl' & Hp' & Hr') Hw third.
    assert (1 <= third ∧ 3 * third <= r - l)%Z as [H1 H2].
    { destruct (quot_3_bounds _ Hw) as (H1 & H2 & H3).
      rewrite Z.quot_div_nonneg in H1, H2 by lia. done. }
    split; [lia|]. split; [lia|].
    split; [apply Hf; lia|]. split; [apply Hf; lia|].
    split.
    + intros Hcmp.
      destruct (Z.le_gt_cases p (l + third)) as [Hle|Hgt]; [|lia].
      pose proof (Hdown (l + third)%Z (r - third)%Z Hle ltac:(lia) ltac:(lia)).
      lra.
    + intros Hcmp.
      destruct (Z.le_gt_cases (r - third) p) as [Hle|Hgt]; [|lia].
      pose proof (Hup (l + third)%Z (r - third)%Z ltac:(lia) ltac:(lia) Hle).
      lra.
  - exists ((l + r) ÷ 2)%Z. split; [done|].
    clear Hrun Hf Hup Hdown. Z.quot_rem_to_equations. lia.
Qed.

Lemma ternarySearch_unimodal_witness :
  ∃ m, ternarySearch (λ z, Some (- Rabs (IZR z - 4))) 0 9 = Ok m
       ∧ (0 <= m <= 9)%Z ∧ (4 - 1 <= m <= 4 + 1)%Z.
Proof.
  apply (ternarySearch_unimodal _ (λ z, - Rabs (IZR z - 4)));
    [lia|lia|lia|done|..].
  - intros a b Ha Hab Hb. apply IZR_lt in Hab. apply IZR_le in Hb.
    rewrite !Rabs_left1 by lra. lra.
  - intros a b Ha Hab Hb. apply IZR_lt in Hab. apply IZR_le in Ha.
    rewrite !Rabs_right by lra. lra.
Defined.

(** X22.  [ternarySearch] calls [f] between its bounds only: two
    functions that agree there, whatever they do elsewhere, give the
    same result. *)
Theorem ternarySearch_local (f g : Z → option R) (left right : Z) :
  (- 2 ^ 62 <= left)%Z → (right < 2 ^ 62)%Z → (left <= right)%Z →
  (∀ z, (left <= z <= right)%Z → f z = g z) →
  ternarySearch f left right = ternarySearch g left right.
Proof.
  intros Hl Hr Hlr Hfg. unfold ternarySearch.
  rewrite (int_small (right - left)) by lia.
  assert (∀ fuel l r, (left <= l)%Z → (l <= r)%Z → (r <= right)%Z →
            ternarySearch_loop fuel f l r = ternarySearch_loop fuel g l r)
    as Hloop; [|by apply Hloop].
  induction fuel as [|fuel IH]; intros l r Hl' Hlr' Hr'; [done|].
  rewrite !ternarySearch_loop_step by lia.
  destruct (Z.ltb_spec 2 (r - l)) as [Hw|Hw]; [|done].
  destruct (quot_3_bounds _ Hw) as (H1 & H2 & H3).
  rewrite Z.quot_div_nonneg in H1, H2, H3 by lia.
  cbv zeta. rewrite !Hfg by lia.
  destruct (g _) as [fl|]; [|done]. destruct (g _) as [fr|]; [|done].
  destruct (Rlt_dec fl fr); apply IH; lia.
Qed.

Lemma ternarySearch_local_witness :
  ternarySearch (λ z, if (z <? 10)%Z then Some 0 else None) 0 9
  = ternarySearch (λ _, Some 0) 0 9.
Proof.
  apply ternarySearch_local; [lia|lia|lia|].
  intros z Hz. by rewrite (proj2 (Z.ltb_lt z 10)) by lia.
Defined.

(** ** The accuracy of a score type *)

Lemma at_index_Some {A : Type} (s : list A) (i : Z) (a : A) :
  at_index s i = Some a ↔ (0 <= i < len s)%Z ∧ s !! Z.to_nat i = Some a.
Proof.
  unfold at_index, len. destruct (Z.ltb_spec i 0) as [Hi|Hi].
  - split; [done|]. intros [? _]. lia.
  - split; [|by intros [_ ?]]. intros Ha. split; [|done].
    apply lookup_lt_Some in Ha. lia.
Qed.

Lemma at_index_None {A : Type} (s : list A) (i : Z) :
  at_index s i = None ↔ (i < 0 ∨ len s <= i)%Z.
Proof.
  unfold at_index, len. destruct (Z.ltb_spec i 0) as [Hi|Hi].
  - split; [by left|done].
  - rewrite lookup_ge_None. lia.
Qed.

Lemma at_index_is_Some {A : Type} (s : list A) (i : Z) :
  (0 <= i < len s)%Z → is_Some (at_index s i).
Proof.
  intros Hi. destruct (at_index s i) eqn:Ha; [done|].
  apply at_index_None in Ha. lia.
Qed.

Section AccuracyProperties.
Variable SearchFloat64s : list R → R → Z.
Hypothesis SearchFloat64s_range :
  ∀ a x, (0 <= SearchFloat64s a x <= len a)%Z.

Lemma accuracy_value scoreType (all audible inaudible : list R) index :
  (len audible < 2 ^ 62)%Z → (len inaudible < 2 ^ 62)%Z →
  (0 < len audible + len inaudible)%Z →
  (0 <= index < len all)%Z →
  ∃ threshold correct,
    at_index all index = Some threshold
    ∧ (0 <= correct <= len audible + len inaudible)%Z
    ∧ correct
      = (if (0 <? Better scoreType)%Z
         then SearchFloat64s audible threshold
              + (len inaudible - SearchFloat64s inaudible threshold)
         else len audible - SearchFloat64s audible threshold
              + SearchFloat64s inaudible threshold)%Z
    ∧ accuracy SearchFloat64s scoreType all audible inaudible index
      = Some (IZR correct / IZR (len audible + len inaudible)).
Proof.
  intros Ha Hi Hne Hidx.
  destruct (at_index_is_Some all index Hidx) as [threshold Ht].
  pose proof (SearchFloat64s_range audible threshold) as Hsa.
  pose proof (SearchFloat64s_range inaudible threshold) as Hsi.
  assert (0 <= len audible)%Z by (unfold len; lia).
  assert (0 <= len inaudible)%Z by (unfold len; lia).
  unfold accuracy. rewrite Ht. cbn [mbind option_bind].
  destruct (0 <? Better scoreType)%Z.
  - exists threshold,
      (SearchFloat64s audible threshold
       + (len inaudible - SearchFloat64s inaudible threshold))%Z.
    split; [done|]. split; [lia|]. split; [done|].
    rewrite (int_small (len inaudible - _)) by lia.
    by rewrite !int_small by lia.
  - exists threshold,
      (len audible - SearchFloat64s audible threshold
       + SearchFloat64s inaudible threshold)%Z.
    split; [done|]. split; [lia|]. split; [done|].
    rewrite (int_small (len audible - _)) by lia.
    by rewrite !int_small by lia.
Qed.

End AccuracyProperties.

(** X23.  The closure [accuracy] of [Study.Accuracy] panics on an index
    outside [all] and nowhere else; on an index within it, it is a
    fraction between [0] and [1], given that there is a score at all and
    that [sort.SearchFloat64s] returns a position within the slice it
    searches. *)
Theorem accuracy_range (SearchFloat64s : list R → R → Z) scoreType
    (all audible inaudible : list R) index :
  (∀ a x, (0 <= SearchFloat64s a x <= len a)%Z) →
  (len audible < 2 ^ 62)%Z → (len inaudible < 2 ^ 62)%Z →
  (0 < len audible + len inaudible)%Z →
  if bool_decide (0 <= index < len all)%Z
  then ∃ a, accuracy SearchFloat64s scoreType all audible inaudible index
            = Some a ∧ 0 <= a <= 1
  else accuracy SearchFloat64s scoreType all audible inaudible index = None.
Proof.
  intros Hsearch Ha Hi Hne. case_bool_decide as Hidx.
  - destruct (accuracy_value SearchFloat64s Hsearch scoreType all audible
                inaudible index Ha Hi Hne Hidx) as (t & c & _ & Hc & _ & ->).
    eexists. split; [done|].
    assert (0 < IZR (len audible + len inaudible)) as Hpos
      by (by apply IZR_lt).
    destruct Hc as [Hc0 Hc1]. apply IZR_le in Hc0, Hc1.
    split.
    + apply Rmult_le_pos; [done|]. left. by apply Rinv_0_lt_compat.
    + apply (Rmult_le_reg_r (IZR (len audible + len inaudible))); [done|].
      unfold Rdiv. rewrite Rmult_assoc, Rinv_l by lra. lra.
  - unfold accuracy.
    assert (at_index all index = None) as -> by (apply at_index_None; lia).
    done.
Qed.

Lemma accuracy_range_witness :
  ∃ a, accuracy (λ _ _, 0%Z) MOS [1] [1] [] 0 = Some a ∧ 0 <= a <= 1.
Proof.
  apply (accuracy_range (λ _ _, 0%Z) MOS [1] [1] [] 0);
    [intros a x; unfold len; lia|reflexivity|reflexivity|reflexivity].
Defined.

(** X24.  The direction of a score type turns the accuracy around: at
    one threshold, a type for which [Better] is positive has the
    accuracy [a] exactly when a type for which it is not (lower is
    better, or a type that [Better] does not know) has [1 - a]. *)
Theorem accuracy_direction (SearchFloat64s : list R → R → Z) up down
    (all audible inaudible : list R) index a :
  (∀ a x, (0 <= SearchFloat64s a x <= len a)%Z) →
  (len audible < 2 ^ 62)%Z → (len inaudible < 2 ^ 62)%Z →
  (0 < len audible + len inaudible)%Z →
  (0 < Better up)%Z → (Better down <= 0)%Z →
  accuracy SearchFloat64s up all audible inaudible index = Some a →
  accuracy SearchFloat64s down all audible inaudible index = Some (1 - a).
Proof.
  intros Hsearch Ha Hi Hne Hup Hdown Hacc.
  assert (0 <= index < len all)%Z as Hidx.
  { unfold accuracy in Hacc.
    destruct (at_index all index) as [t|] eqn:Ht; [|done].
    by apply at_index_Some in Ht as [? _]. }
  destruct (accuracy_value SearchFloat64s Hsearch up all audible inaudible
              index Ha Hi Hne Hidx)
    as (t & c & Ht & _ & Hc & Hacc').
  destruct (accuracy_value SearchFloat64s Hsearch down all audible inaudible
              index Ha Hi Hne Hidx)
    as (t' & c' & Ht' & _ & Hc' & ->).
  rewrite Hacc in Hacc'. injection Hacc' as ->.
  rewrite Ht in Ht'. injection Ht' as <-.
  rewrite (proj2 (Z.ltb_lt 0 _)) in Hc by done.
  rewrite (proj2 (Z.ltb_ge 0 _)) in Hc' by done.
  f_equal.
  assert (0 < IZR (len audible + len inaudible)) as Hpos by (by apply IZR_lt).
  replace c' with (len audible + len inaudible - c)%Z by lia.
  rewrite minus_IZR. field. lra.
Qed.

Lemma accuracy_direction_witness :
  accuracy (λ _ _, 0%Z) JND [1] [1] [] 0
  = Some (1 - IZR (int (0 + int (len (@nil R) - 0)))
              / IZR (int (len [1] + len (@nil R)))).
Proof.
  apply (accuracy_direction (λ _ _, 0%Z) MOS JND [1] [1] [] 0);
    [intros a x; unfold len; lia|reflexivity|reflexivity|reflexivity
    |reflexivity|discriminate|reflexivity].
Defined.

(** X25.  A turn of the loop over the score types of [Study.Accuracy]
    does not panic when there is a score: the index that the search
    returns lies within [all], the threshold reported is the element of
    [all] there, and the accuracy reported is the accuracy at that index,
    between [0] and [1]. *)
Theorem Accuracy_body_safe (SearchFloat64s : list R → R → Z) scoreType
    (all audible inaudible : list R) :
  (∀ a x, (0 <= SearchFloat64s a x <= len a)%Z) →
  (0 < len all < 2 ^ 62)%Z →
  (len audible < 2 ^ 62)%Z → (len inaudible < 2 ^ 62)%Z →
  (0 < len audible + len inaudible)%Z →
  ∃ index threshold acc,
    Accuracy_body SearchFloat64s scoreType all audible inaudible
    = Ok (mkAccuracyScore scoreType threshold acc)
    ∧ (0 <= index < len all)%Z
    ∧ all !! Z.to_nat index = Some threshold
    ∧ accuracy SearchFloat64s scoreType all audible inaudible index = Some acc
    ∧ 0 <= acc <= 1.
Proof.
  intros Hsearch Hall Ha Hi Hne. unfold Accuracy_body.
  rewrite (int_small (len all - 1)) by lia.
  assert (∀ z, (0 <= z <= len all - 1)%Z →
            ∃ a, accuracy SearchFloat64s scoreType all audible inaudible z
                 = Some a ∧ 0 <= a <= 1) as Hacc.
  { intros z Hz.
    destruct (accuracy_value SearchFloat64s Hsearch scoreType all audible
                inaudible z Ha Hi Hne)
      as (t & c & _ & Hc & _ & ->); [lia|].
    eexists. split; [done|].
    assert (0 < IZR (len audible + len inaudible)) as Hpos
      by (by apply IZR_lt).
    destruct Hc as [Hc0 Hc1]. apply IZR_le in Hc0, Hc1.
    split.
    + apply Rmult_le_pos; [done|]. left. by apply Rinv_0_lt_compat.
    + apply (Rmult_le_reg_r (IZR (len audible + len inaudible))); [done|].
      unfold Rdiv. rewrite Rmult_assoc, Rinv_l by lra. lra. }
  destruct (ternarySearch_loop_invariant
              (accuracy SearchFloat64s scoreType all audible inaudible)
              (λ z, default 0
                      (accuracy SearchFloat64s scoreType all audible
                                inaudible z))
              (λ l r, (0 <= l)%Z ∧ (r <= len all - 1)%Z)
              (Z.to_nat (len all - 1 - 0)) ) with (left := 0%Z)
                                                  (right := (len all - 1)%Z)
    as (l & r & [Hl' Hr'] & ? & ? & ? & ? & Hrun); [|lia..|].
  { intros l r [Hl' Hr'] Hw third.
    assert (1 <= third ∧ 3 * third <= r - l)%Z as [H1 H2].
    { destruct (quot_3_bounds _ Hw) as (H1 & H2 & H3).
      rewrite Z.quot_div_nonneg in H1, H2 by lia. done. }
    split; [lia|]. split; [lia|].
    split; [by destruct (Hacc (l + third)%Z) as (? & -> & _); [lia|]|].
    split; [by destruct (Hacc (r - third)%Z) as (? & -> & _); [lia|]|].
    lia. }
  unfold ternarySearch. rewrite (int_small (len all - 1 - 0)) by lia.
  rewrite Hrun.
  pose proof (midpoint_range l r ltac:(lia)) as Hm.
  set (m := ((l + r) ÷ 2)%Z) in *.
  destruct (at_index_is_Some all m) as [t Ht]; [lia|].
  destruct (Hacc m) as (acc & Hacc' & Hrange); [lia|].
  exists m, t, acc. rewrite Ht, Hacc'.
  apply at_index_Some in Ht as [? Ht]. done.
Qed.

Lemma Accuracy_body_safe_witness :
  ∃ index threshold acc,
    Accuracy_body (λ _ _, 0%Z) MOS [1; 2] [1] [2]
    = Ok (mkAccuracyScore MOS threshold acc)
    ∧ (0 <= index < len [1; 2])%Z
    ∧ [1; 2] !! Z.to_nat index = Some threshold
    ∧ accuracy (λ _ _, 0%Z) MOS [1; 2] [1] [2] index = Some acc
    ∧ 0 <= acc <= 1.
Proof.
  apply (Accuracy_body_safe (λ _ _, 0%Z) MOS [1; 2] [1] [2]);
    [intros a x; unfold len; lia|done|reflexivity|reflexivity|reflexivity].
Defined.

(** ** [ScoreTypes] as a [sort.Interface] *)

Lemma ltb_lt (a b : string) : String.ltb a b = true ↔ OrderedTypeEx.String_as_OT.lt a b.
Proof.
  rewrite <- OrderedTypeEx.String_as_OT.cmp_lt. unfold String.ltb, OrderedTypeEx.String_as_OT.cmp.
  destruct (String.compare a b); split; (done || discriminate).
Qed.

Lemma ltb_irrefl (a : string) : String.ltb a a = false.
Proof.
  unfold String.ltb.
  assert (String.compare a a = Eq) as -> by (by apply OrderedTypeEx.String_as_OT.cmp_eq).
  done.
Qed.

Lemma ltb_trans (a b c : string) :
  String.ltb a b = true → String.ltb b c = true → String.ltb a c = true.
Proof.
  rewrite !ltb_lt. apply OrderedTypeEx.String_as_OT.lt_trans.
Qed.

Lemma ltb_total (a b : string) :
  String.ltb a b = false → String.ltb b a = false → a = b.
Proof.
  unfold String.ltb. rewrite (String.compare_antisym b a).
  destruct (String.compare a b) eqn:Hc; simpl; try done.
  intros _ _. by apply String.compare_eq_iff.
Qed.

(** X26.  [Less] is a strict order on the strings at the indices within
    the slice, as [sort.Sort] needs it: irreflexive, asymmetric,
    transitive, and two entries neither of which is less than the other
    are the same string. *)
Theorem ScoreTypes_Less_order (s : list string) (i j k : Z) :
  (0 <= i < ScoreTypes_Len s)%Z → (0 <= j < ScoreTypes_Len s)%Z →
  (0 <= k < ScoreTypes_Len s)%Z →
  ∃ a b c,
    s !! Z.to_nat i = Some a ∧ s !! Z.to_nat j = Some b
    ∧ s !! Z.to_nat k = Some c
    ∧ ScoreTypes_Less s i i = Some false
    ∧ (ScoreTypes_Less s i j = Some true → ScoreTypes_Less s j i = Some false)
    ∧ (ScoreTypes_Less s i j = Some true → ScoreTypes_Less s j k = Some true →
       ScoreTypes_Less s i k = Some true)
    ∧ (ScoreTypes_Less s i j = Some false → ScoreTypes_Less s j i = Some false →
       a = b).
Proof.
  intros Hi Hj Hk. unfold ScoreTypes_Len in *.
  destruct (at_index_is_Some s i Hi) as [a Ha].
  destruct (at_index_is_Some s j Hj) as [b Hb].
  destruct (at_index_is_Some s k Hk) as [c Hc].
  exists a, b, c. unfold ScoreTypes_Less. rewrite Ha, Hb, Hc.
  cbn [mbind option_bind].
  apply at_index_Some in Ha as [_ Ha], Hb as [_ Hb], Hc as [_ Hc].
  split; [done|]. split; [done|]. split; [done|].
  split; [by rewrite ltb_irrefl|].
  split.
  { intros [=Hab]. f_equal. destruct (String.ltb b a) eqn:Hba; [|done].
    pose proof (ltb_trans a b a Hab Hba) as Haa.
    by rewrite ltb_irrefl in Haa. }
  split.
  { intros [=Hab] [=Hbc]. f_equal. by apply (ltb_trans a b c). }
  intros [=Hab] [=Hba]. by apply ltb_total.
Qed.

Lemma ScoreTypes_Less_order_witness :
  ScoreTypes_Less [MOS; JND] 0 0 = Some false.
Proof.
  destruct (ScoreTypes_Less_order [MOS; JND] 0 1 0)
    as (a & b & c & _ & _ & _ & H & _); [done..|exact H].
Defined.

(** X27.  [Swap] on two indices within the slice exchanges the two
    entries, leaves the others and the length alone, and is undone by a
    second [Swap]; on an index outside the slice it panics. *)
Theorem ScoreTypes_Swap_exchanges (s : list string) (i j : Z) :
  if bool_decide ((0 <= i < ScoreTypes_Len s)%Z
                  ∧ (0 <= j < ScoreTypes_Len s)%Z)
  then ∃ s',
    ScoreTypes_Swap s i j = Some s'
    ∧ ScoreTypes_Len s' = ScoreTypes_Len s
    ∧ s' !! Z.to_nat i = s !! Z.to_nat j
    ∧ s' !! Z.to_nat j = s !! Z.to_nat i
    ∧ (∀ k, k ≠ Z.to_nat i → k ≠ Z.to_nat j → s' !! k = s !! k)
    ∧ ScoreTypes_Swap s' i j = Some s
  else ScoreTypes_Swap s i j = None.
Proof.
  unfold ScoreTypes_Len. case_bool_decide as Hij.
  - destruct Hij as [Hi Hj].
    destruct (at_index_is_Some s i Hi) as [a Ha].
    destruct (at_index_is_Some s j Hj) as [b Hb].
    unfold ScoreTypes_Swap. rewrite Ha, Hb. cbn [mbind option_bind].
    apply at_index_Some in Ha as [_ Ha], Hb as [_ Hb].
    set (i' := Z.to_nat i) in *. set (j' := Z.to_nat j) in *.
    assert (i' < length s)%nat as Hi' by (by eapply lookup_lt_Some).
    assert (j' < length s)%nat as Hj' by (by eapply lookup_lt_Some).
    set (s' := <[j' := a]> (<[i' := b]> s)).
    assert (length s' = length s) as Hlen
      by (subst s'; by rewrite !length_insert).
    assert (s' !! i' = Some b) as Hsi.
    { subst s'. destruct (decide (i' = j')) as [Heq|Hne].
      - rewrite Heq in *. rewrite list_lookup_insert_eq
          by (by rewrite length_insert). congruence.
      - rewrite list_lookup_insert_ne by done.
        by rewrite list_lookup_insert_eq. }
    assert (s' !! j' = Some a) as Hsj.
    { subst s'. by rewrite list_lookup_insert_eq by (by rewrite length_insert). }
    assert (∀ k, k ≠ i' → k ≠ j' → s' !! k = s !! k) as Hrest.
    { intros k Hki Hkj. subst s'. by rewrite !list_lookup_insert_ne. }
    assert (<[j' := b]> (<[i' := a]> s') = s) as Hback.
    { apply list_eq. intros k.
      destruct (decide (k = j')) as [->|Hkj].
      - rewrite list_lookup_insert_eq by (rewrite length_insert; lia).
        done.
      - rewrite list_lookup_insert_ne by done.
        destruct (decide (k = i')) as [->|Hki].
        + rewrite list_lookup_insert_eq by lia. done.
        + rewrite list_lookup_insert_ne by done. by apply Hrest. }
    exists s'. split; [done|]. split; [unfold len; lia|].
    split; [congruence|]. split; [congruence|]. split; [done|].
    assert (at_index s' i = Some b) as ->.
    { apply at_index_Some. split; [unfold len; lia|done]. }
    assert (at_index s' j = Some a) as ->.
    { apply at_index_Some. split; [unfold len; lia|done]. }
    cbn [mbind option_bind]. fold i' j'. by rewrite Hback.
  - unfold ScoreTypes_Swap.
    destruct (at_index s i) as [a|] eqn:Ha; [|done].
    destruct (at_index s j) as [b|] eqn:Hb; [|done].
    apply at_index_Some in Ha as [? _], Hb as [? _]. tauto.
Qed.

(** ** The output of [compare] *)

Section CompareOutput.
Variable lib_error : Type.
Variable Load : string → Audio + lib_error.
Variable Measure : list R → EnergyAndMaxAbsAmplitude.
Variable NormalizeAmplitude : R → list R → list R.
Variable Distance : Goohrli → list R → list R → R.
Variable NormalizedAudioDistance : Goohrli → Audio → Audio → R + lib_error.
Variable MOSFromZimtohrli : R → R.

Lemma length_channel_calls (la lb : list (list R)) :
  length la = length lb →
  length (mjoin (zip_with (channel_calls Measure NormalizeAmplitude) la lb))
  = (3 * length la)%nat.
Proof.
  revert lb. induction la as [|a la IH]; intros [|b lb] Hlen; try done.
  change (length (channel_calls Measure NormalizeAmplitude a b
                  ++ mjoin (zip_with (channel_calls Measure NormalizeAmplitude)
                                     la lb))
          = (3 * S (length la))%nat).
  rewrite length_app, (IH lb) by (simpl in Hlen; lia).
  simpl. lia.
Qed.

Lemma channel_calls_kind (la lb : list (list R)) (c : call) :
  c ∈ mjoin (zip_with (channel_calls Measure NormalizeAmplitude) la lb) →
  ∀ a b, c ≠ CallNormalizedAudioDistance a b.
Proof.
  revert lb. induction la as [|a' la IH]; intros [|b' lb] Hc a b ->;
    try (by apply elem_of_nil in Hc).
  change (CallNormalizedAudioDistance a b
          ∈ channel_calls Measure NormalizeAmplitude a' b'
            ++ mjoin (zip_with (channel_calls Measure NormalizeAmplitude)
                               la lb)) in Hc.
  apply elem_of_app in Hc as [Hc|Hc].
  - unfold channel_calls in Hc.
    repeat (apply elem_of_cons in Hc as [Hc|Hc]; [done|]).
    by apply elem_of_nil in Hc.
  - by apply (IH lb Hc a b).
Qed.

(** X28.  What [main] of [compare] prints: nothing unless it ends
    normally; and when it does, both files were loaded with the same rate
    and the same number of channels, and it has printed one line per
    channel after three calls per channel ([Measure],
    [NormalizeAmplitude], [Distance]) in per-channel mode, and one line
    after the one call of [NormalizedAudioDistance] otherwise. *)
Theorem main_output_lines fl :
  let r := main lib_error Load Measure NormalizeAmplitude Distance
                NormalizedAudioDistance MOSFromZimtohrli fl in
  match run_ending _ r with
  | Done _ =>
      ∃ signalA signalB,
        Load (path_a fl) = inl signalA ∧ Load (path_b fl) = inl signalB
        ∧ run_signalA _ r = Some signalA
        ∧ Rate signalA = Rate signalB
        ∧ length (Samples signalA) = length (Samples signalB)
        ∧ if per_channel fl
          then length (run_printed _ r) = length (Samples signalA)
               ∧ length (run_calls _ r) = (3 * length (Samples signalA))%nat
               ∧ ∀ c, c ∈ run_calls _ r →
                   ∀ a b, c ≠ CallNormalizedAudioDistance a b
          else length (run_printed _ r) = 1%nat
               ∧ run_calls _ r = [CallNormalizedAudioDistance signalA signalB]
  | _ => run_printed _ r = []
  end.
Proof.
  cbv zeta. unfold main.
  destruct (_ || _)%bool; [done|].
  destruct (Load (path_a fl)) as [signalA|err]; [|done].
  destruct (Load (path_b fl)) as [signalB|err]; [|done].
  case_bool_decide as Hrate; simpl negb; cbv iota; [|done].
  destruct (Nat.eqb_spec (length (Samples signalA)) (length (Samples signalB)))
    as [Hlen|Hlen]; simpl negb; cbv iota; [|done].
  destruct (per_channel fl) eqn:Hpc.
  - pose proof (per_channel_loop Measure NormalizeAmplitude Distance
                  MOSFromZimtohrli fl
                  (New (Rate signalA) (frequency_resolution fl))
                  (Samples signalA) [] [] (Samples signalB) [] [] eq_refl Hlen)
      as Hloop.
    cbn [app length] in Hloop. rewrite Hloop. cbn [run_ending].
    exists signalA, signalB.
    cbn [run_printed run_calls run_signalA].
    do 5 (split; [done|]).
    split; [by rewrite length_zip_with, <- Hlen, Nat.min_id|].
    split; [by apply length_channel_calls|].
    intros c Hc. by apply (channel_calls_kind (Samples signalA)
                                             (Samples signalB)).
  - destruct (NormalizedAudioDistance _ _ _) as [dist|err]; [|done].
    cbn [run_ending]. exists signalA, signalB.
    by repeat split.
Qed.

End CompareOutput.
